(** * Turn-based PvP of the game backend: matchmaking queue, battle resolver,
      match sessions and connection handling (src/index.js, lines 642-915).

    The server keeps two module-level objects, [waitingPlayers] (an array) and
    [activeMatches] (a [Map] from match id to match object).  Socket handlers
    run to completion one at a time, so the program is a state machine whose
    inputs are the socket events and whose outputs are the messages emitted.

    Conventions of the embedding.
    - JS numbers that the PvP code stores are integers: [Z].  The value of
      [Math.random()] is a binary64 number in [0,1), passed in by the
      environment as the rational it denotes; arithmetic on it rounds to
      binary64 as JavaScript does.
    - Player ids, socket ids, match ids and action names are strings; a field
      holding [null] or a string is an [option string].
    - [battle.players] is an object keyed by player id: a [gmap].  The battle
      code reads and writes its two entries through the references [p1] and
      [p2]; the embedding threads the object store through every assignment,
      so that two references to one entry stay aliased.
    - [activeMatches] is a [Map]; iteration follows insertion order, so it is
      an association list with the operations of [Map].
    - A handler that dereferences [undefined] throws; this is [None].  An
      event may arrive without its payload, and the handlers that read the
      payload then throw on their first line.
    - [console.log] lines are not part of the observable trace. *)

From Stdlib Require Import ZArith QArith Qround Qpower Lia Lqa.
From Stdlib Require Import Floats.SpecFloat.
From stdpp Require Import base option list gmap strings.

Local Open Scope Z_scope.

(** ** JavaScript helpers *)

(** [Array.prototype.findIndex]: the first index satisfying [f], or -1. *)
Fixpoint findIndex {A : Type} (f : A → bool) (l : list A) : Z :=
  match l with
  | [] => -1
  | x :: l' => if f x then 0 else
                 let i := findIndex f l' in
                 if bool_decide (i = -1) then -1 else i + 1
  end.

(** [arr.splice(i, 1)] for an index [i >= 0]. *)
Definition splice1 {A : Type} (i : Z) (l : list A) : list A :=
  delete (Z.to_nat i) l.

(** [Array.prototype.find]. *)
Fixpoint find {A : Type} (f : A → bool) (l : list A) : option A :=
  match l with
  | [] => None
  | x :: l' => if f x then Some x else find f l'
  end.

(** [Array.prototype.some]. *)
Definition some {A : Type} (f : A → bool) (l : list A) : bool := existsb f l.

(** Truthiness of a value that is [null] or a string. *)
Definition truthy (v : option string) : bool :=
  match v with
  | Some s => bool_decide (s ≠ "")
  | None => false
  end.

Definition Math_floor (q : Q) : Z := Qfloor q.
Definition Math_max (a b : Z) : Z := Z.max a b.

(** ** Numbers

    A JavaScript number is a binary64 value; a finite one is kept as the
    rational it denotes, and every arithmetic operation rounds its exact
    result to the nearest binary64 number, ties to even. *)

(** [floor (log2 q)] for [q > 0]. *)
Definition binade (q : Q) : Z :=
  let e := Z.log2 (Qnum q) - Z.log2 (Z.pos (Qden q)) in
  if Qle_bool (Qpower 2 e) q then e else e - 1.

(** The spacing of the binary64 numbers around [q > 0]: 53 significant bits,
    and not below the spacing [2^-1074] of the subnormal numbers. *)
Definition ulp (q : Q) : Q := Qpower 2 (Z.max (binade q - 52) (-1074)).

(** The integer nearest to [x], the even one of two equally near. *)
Definition nearest_even (x : Q) : Z :=
  let f := Qfloor x in
  match Qcompare (x - inject_Z f) (1#2) with
  | Lt => f
  | Gt => f + 1
  | Eq => if Z.even f then f else f + 1
  end.

(** The binary64 number nearest to [q], ties to even.  (No overflow: the
    magnitudes that occur in this program stay below [2^18].) *)
Definition binary64 (q : Q) : Q :=
  match Qcompare q 0 with
  | Gt => inject_Z (nearest_even (q / ulp q)) * ulp q
  | Eq => 0
  | Lt => - (inject_Z (nearest_even (- q / ulp (- q))) * ulp (- q))
  end%Q.

(** [a * b], [a + b] and [a / b]. *)
Definition Number_mul (a b : Q) : Q := binary64 (a * b).
Definition Number_add (a b : Q) : Q := binary64 (a + b).
Definition Number_div (a b : Q) : Q := binary64 (a / b).

(** [q] is a binary64 number. *)
Definition is_binary64 (q : Q) : Prop := (binary64 q == q)%Q.

(** The rational a finite number of the IEEE 754 specification of the
    standard library denotes, to compare [binary64] with that specification. *)
Definition SF2Q (x : spec_float) : Q :=
  match x with
  | S754_finite s m e => (if s then -1 else 1) * inject_Z (Z.pos m) * Qpower 2 e
  | _ => 0
  end%Q.

(** ** [Map] with insertion order *)

Module JsMap.
Section ops.
Context {V : Type}.

Fixpoint get (k : string) (m : list (string * V)) : option V :=
  match m with
  | [] => None
  | (k', v) :: m' => if decide (k' = k) then Some v else get k m'
  end.

(** [set] on a present key replaces the value where it stands; on an
    absent key it appends. *)
Fixpoint set (k : string) (v : V) (m : list (string * V)) : list (string * V) :=
  match m with
  | [] => [(k, v)]
  | (k', v') :: m' =>
      if decide (k' = k) then (k, v) :: m' else (k', v') :: set k v m'
  end.

Fixpoint delete (k : string) (m : list (string * V)) : list (string * V) :=
  match m with
  | [] => []
  | (k', v') :: m' =>
      if decide (k' = k) then delete k m' else (k', v') :: delete k m'
  end.
End ops.
End JsMap.

(** ** Data *)

(** The payload of a [pvp:queue] request. *)
Record PlayerData := {
  pd_playerId : string;
  pd_username : string;
  pd_stats : string;
  pd_trophies : option Z          (* may be absent *)
}.

(** An element of [waitingPlayers]. *)
Record WaitingEntry := {
  socketId : string;
  playerId : string;
  username : string;
  stats : string;
  trophies : Z
}.

(** An entry of [battle.players]: the waiting entry spread into the object,
    followed by the battle fields. *)
Record BattlePlayer := {
  bp_entry : WaitingEntry;
  hp : Z;
  maxHp : Z;
  action : option string;
  specialCooldown : Z
}.

Inductive Status := waiting_actions | resolving | finished.

Record BattleState := {
  turn : Z;
  players : gmap string BattlePlayer;
  playerIds : string * string;
  status : Status
}.

Record Match := {
  match_id : string;
  match_players : list WaitingEntry;
  battleState : BattleState;
  startedAt : Z
}.

Global Instance WaitingEntry_eq_dec : EqDecision WaitingEntry.
Proof. solve_decision. Defined.
Global Instance BattlePlayer_eq_dec : EqDecision BattlePlayer.
Proof. solve_decision. Defined.
Global Instance Status_eq_dec : EqDecision Status.
Proof. solve_decision. Defined.

Global Instance WaitingEntry_inhabited : Inhabited WaitingEntry :=
  populate {| socketId := ""; playerId := ""; username := ""; stats := ""; trophies := 0 |}.
Global Instance BattlePlayer_inhabited : Inhabited BattlePlayer :=
  populate {| bp_entry := inhabitant; hp := 0; maxHp := 0; action := None;
              specialCooldown := 0 |}.

(** Field assignments. *)
Definition set_hp (v : Z) (p : BattlePlayer) : BattlePlayer :=
  {| bp_entry := bp_entry p; hp := v; maxHp := maxHp p; action := action p;
     specialCooldown := specialCooldown p |}.
Definition set_action (v : option string) (p : BattlePlayer) : BattlePlayer :=
  {| bp_entry := bp_entry p; hp := hp p; maxHp := maxHp p; action := v;
     specialCooldown := specialCooldown p |}.
Definition set_specialCooldown (v : Z) (p : BattlePlayer) : BattlePlayer :=
  {| bp_entry := bp_entry p; hp := hp p; maxHp := maxHp p; action := action p;
     specialCooldown := v |}.

Definition set_players (h : gmap string BattlePlayer) (b : BattleState) : BattleState :=
  {| turn := turn b; players := h; playerIds := playerIds b; status := status b |}.
Definition set_status (s : Status) (b : BattleState) : BattleState :=
  {| turn := turn b; players := players b; playerIds := playerIds b; status := s |}.
Definition set_turn (t : Z) (b : BattleState) : BattleState :=
  {| turn := t; players := players b; playerIds := playerIds b; status := status b |}.
Definition set_battleState (b : BattleState) (m : Match) : Match :=
  {| match_id := match_id m; match_players := match_players m; battleState := b;
     startedAt := startedAt m |}.

(** ** Observable effects *)

Record TurnResult := {
  tr_turn : Z;
  tr_actions : gmap string (option string);
  tr_damage : gmap string Z;           (* damage taken, by player id *)
  tr_hp : gmap string Z;
  tr_specialCooldown : gmap string Z
}.

Inductive Payload :=
| pvp_queued (position : Z)
| pvp_match_found (matchId yourId : string)
                  (opponent_id opponent_username : string) (opponent_trophies : Z)
                  (startHp : Z)
| pvp_opponent_ready
| pvp_action_error (error : string)
| pvp_turn_result (r : TurnResult) (yourId opponentId : string)
| pvp_battle_end (winner : string) (won : bool) (trophyChange : Z)
| pvp_opponent_disconnect.

(** What a handler does to the outside world: a message emitted to a socket
    ([socket.emit], [io.to(id).emit]), or a statement sent to the player
    store ([pool.query], the only access the server has to player profiles). *)
Inductive Effect :=
| Emit (to : string) (p : Payload)
| Query (sql : string) (params : list string).

Definition is_Query (e : Effect) : bool :=
  match e with Query _ _ => true | Emit _ _ => false end.

(** ** Battle state, lines 647-667 *)

Definition newBattlePlayer (player : WaitingEntry) : BattlePlayer :=
  {| bp_entry := player; hp := 100; maxHp := 100; action := None;
     specialCooldown := 0 |}.

Definition createBattleState (player1 player2 : WaitingEntry) : BattleState :=
  {| turn := 1;
     players := <[playerId player2 := newBattlePlayer player2]>
                  (<[playerId player1 := newBattlePlayer player1]> ∅);
     playerIds := (playerId player1, playerId player2);
     status := waiting_actions |}.

(** ** Battle resolver, lines 670-771 *)

(** Lines 681-686 (player 1) and 689-694 (player 2): the damage a side deals
    before mitigation.  [p] is the reference into [battle.players], [rnd] the
    value [Math.random()] returns at this call site (read only on "attack"). *)
Definition baseDamage (p : string) (rnd : Q) (h : gmap string BattlePlayer)
  : Z * gmap string BattlePlayer :=
  if decide (action (h !!! p) = Some "attack") then
    (15 + Math_floor (Number_mul rnd 11), h)
  else if decide (action (h !!! p) = Some "special" ∧ specialCooldown (h !!! p) = 0) then
    (30, alter (set_specialCooldown 2) p h)
  else (0, h).

(** Lines 697-698: damage is halved and floored when the other side defends.
    (The product of an integer and 0.5 is a binary64 number, so it is not
    rounded.) *)
Definition defenseReduction (opponent : string) (damage : Z) (h : gmap string BattlePlayer) : Z :=
  if decide (action (h !!! opponent) = Some "defend")
  then Math_floor (inject_Z damage * 0.5)%Q
  else damage.

(** Lines 701-702. *)
Definition applyDamage (p : string) (damage : Z) (h : gmap string BattlePlayer)
  : gmap string BattlePlayer :=
  alter (set_hp (Math_max 0 (hp (h !!! p) - damage))) p h.

(** Lines 705-706. *)
Definition reduceCooldown (p : string) (h : gmap string BattlePlayer)
  : gmap string BattlePlayer :=
  if decide (specialCooldown (h !!! p) > 0 ∧ action (h !!! p) ≠ Some "special")
  then alter (set_specialCooldown (specialCooldown (h !!! p) - 1)) p h
  else h.

(** Lines 729-737. *)
Definition checkWinner (p1Id p2Id : string) (h : gmap string BattlePlayer) : option string :=
  if decide (hp (h !!! p1Id) <= 0 ∧ hp (h !!! p2Id) <= 0) then
    Some (if decide (hp (h !!! p1Id) > hp (h !!! p2Id)) then p1Id else p2Id)
  else if decide (hp (h !!! p1Id) <= 0) then Some p2Id
  else if decide (hp (h !!! p2Id) <= 0) then Some p1Id
  else None.

Definition winnerTrophyGain : Z := 20.
Definition loserTrophyLoss : Z := 10.

(** What one call of [resolveTurn] leaves behind: the match object as mutated,
    the registry, the messages sent in order, and the values the locals
    [p1Damage], [p2Damage] and [winner] had at the end. *)
Record Resolved := {
  r_match : Match;
  r_activeMatches : list (string * Match);
  r_effects : list Effect;
  r_damage : Z * Z;
  r_winner : option string
}.

(** Lines 708-770: the turn result, the winner and the end of the turn, from
    the object store [h] and the damages computed by lines 676-706. *)
Definition concludeTurn (matchId : string) (m : Match)
    (activeMatches : list (string * Match)) (h : gmap string BattlePlayer)
    (p1Damage p2Damage : Z) : Resolved :=
  let battle := battleState m in
  let '(p1Id, p2Id) := playerIds battle in
  (* Prepare turn result *)
  let turnResult :=
    {| tr_turn := turn battle;
       tr_actions := <[p2Id := action (h !!! p2Id)]> (<[p1Id := action (h !!! p1Id)]> ∅);
       tr_damage := <[p2Id := p1Damage]> (<[p1Id := p2Damage]> ∅);
       tr_hp := <[p2Id := hp (h !!! p2Id)]> (<[p1Id := hp (h !!! p1Id)]> ∅);
       tr_specialCooldown :=
         <[p2Id := specialCooldown (h !!! p2Id)]>
           (<[p1Id := specialCooldown (h !!! p1Id)]> ∅) |} in
  (* Check for winner *)
  let winner := checkWinner p1Id p2Id h in
  (* Send turn result to both players *)
  let sent :=
    (λ p, Emit (socketId p)
            (pvp_turn_result turnResult (playerId p)
               (if decide (playerId p = p1Id) then p2Id else p1Id)))
      <$> match_players m in
  if truthy winner then
    let w := default "" winner in
    let battle := set_status finished (set_players h battle) in
    let ended :=
      (λ p, let isWinner := bool_decide (playerId p = w) in
            Emit (socketId p)
              (pvp_battle_end w isWinner
                 (if isWinner then winnerTrophyGain else - loserTrophyLoss)))
        <$> match_players m in
    {| r_match := set_battleState battle m;
       r_activeMatches := JsMap.delete matchId activeMatches;
       r_effects := sent ++ ended;
       r_damage := (p1Damage, p2Damage);
       r_winner := winner |}
  else
    (* Reset actions for next turn *)
    let h := alter (set_action None) p1Id h in
    let h := alter (set_action None) p2Id h in
    let battle := set_status waiting_actions
                    (set_turn (turn battle + 1) (set_players h battle)) in
    let m' := set_battleState battle m in
    {| r_match := m';
       r_activeMatches := JsMap.set matchId m' activeMatches;
       r_effects := sent;
       r_damage := (p1Damage, p2Damage);
       r_winner := winner |}.

(** Lines 670-771.  [match] is the object stored in [activeMatches] under
    [matchId]; when the battle goes on, the mutated object is written back
    under that key.  [rnd1] and [rnd2] are the values of [Math.random()] at
    lines 682 and 690. *)
Definition resolveTurn (matchId : string) (m : Match) (rnd1 rnd2 : Q)
    (activeMatches : list (string * Match)) : option Resolved :=
  let battle := battleState m in
  let '(p1Id, p2Id) := playerIds battle in
  let h := players battle in
  if decide (is_Some (h !! p1Id) ∧ is_Some (h !! p2Id)) then
    (* Calculate damage *)
    let '(p1Damage, h) := baseDamage p1Id rnd1 h in
    let '(p2Damage, h) := baseDamage p2Id rnd2 h in
    (* Apply defense reduction *)
    let p1Damage := defenseReduction p2Id p1Damage h in
    let p2Damage := defenseReduction p1Id p2Damage h in
    (* Apply damage *)
    let h := applyDamage p1Id p2Damage h in
    let h := applyDamage p2Id p1Damage h in
    (* Reduce cooldowns *)
    let h := reduceCooldown p1Id h in
    let h := reduceCooldown p2Id h in
    Some (concludeTurn matchId m activeMatches h p1Damage p2Damage)
  else None.

(** ** Server state and socket handlers, lines 643-644 and 773-915 *)

Record State := {
  waitingPlayers : list WaitingEntry;
  activeMatches : list (string * Match)
}.

Definition initial : State := {| waitingPlayers := []; activeMatches := [] |}.

(** Lines 882-887: the match object. *)
Definition newMatch (matchId : string) (now : Z) (player1 player2 : WaitingEntry) : Match :=
  {| match_id := matchId;
     match_players := [player1; player2];
     battleState := createBattleState player1 player2;
     startedAt := now |}.

(** Lines 874-915.  [uuid] is the value of [uuidv4()] and [now] the value of
    [Date.now()], both read only when a pair is formed.  The two [shift]
    calls take the first two elements of the array. *)
Definition tryMatchPlayers (uuid : string) (now : Z) (st : State) : State * list Effect :=
  match waitingPlayers st with
  | player1 :: player2 :: rest =>
      let matchId := uuid in
      let m := newMatch matchId now player1 player2 in
      ({| waitingPlayers := rest;
          activeMatches := JsMap.set matchId m (activeMatches st) |},
       [ Emit (socketId player1)
           (pvp_match_found matchId (playerId player1)
              (playerId player2) (username player2) (trophies player2) 100);
         Emit (socketId player2)
           (pvp_match_found matchId (playerId player2)
              (playerId player1) (username player1) (trophies player1) 100) ])
  | _ => (st, [])                       (* waitingPlayers.length < 2 *)
  end.

(** [playerData.trophies || 0]. *)
Definition trophies_or_0 (t : option Z) : Z :=
  match t with
  | Some t => if decide (t = 0) then 0 else t
  | None => 0
  end.

(** Lines 783-789: the object pushed on the queue. *)
Definition waitingEntry (socket : string) (playerData : PlayerData) : WaitingEntry :=
  {| socketId := socket;
     playerId := pd_playerId playerData;
     username := pd_username playerData;
     stats := pd_stats playerData;
     trophies := trophies_or_0 (pd_trophies playerData) |}.

(** Lines 780-789: the queue after a join request, before pairing. *)
Definition enqueue (socket : string) (playerData : PlayerData)
    (waiting : list WaitingEntry) : list WaitingEntry :=
  let existingIndex :=
    findIndex (λ p, bool_decide (playerId p = pd_playerId playerData)) waiting in
  let waiting :=
    if decide (existingIndex > -1) then splice1 existingIndex waiting else waiting in
  waiting ++ [ waitingEntry socket playerData ].

(** Lines 797-798 and 858-859. *)
Definition withdraw (socket : string) (waiting : list WaitingEntry) : list WaitingEntry :=
  let index := findIndex (λ p, bool_decide (socketId p = socket)) waiting in
  if decide (index > -1) then splice1 index waiting else waiting.

(** Lines 777-793. *)
Definition on_queue (socket : string) (playerData : PlayerData) (uuid : string) (now : Z)
    (st : State) : State * list Effect :=
  let waiting := enqueue socket playerData (waitingPlayers st) in
  let queued := Emit socket (pvp_queued (Z.of_nat (length waiting))) in
  let '(st', found) :=
    tryMatchPlayers uuid now
      {| waitingPlayers := waiting; activeMatches := activeMatches st |} in
  (st', queued :: found).

(** Lines 796-799. *)
Definition on_leave (socket : string) (st : State) : State * list Effect :=
  ({| waitingPlayers := withdraw socket (waitingPlayers st);
      activeMatches := activeMatches st |}, []).

(** Lines 831-833: [playerIds.every(id => players[id].action !== null)];
    [None] when an id has no entry. *)
Definition allSubmitted (b : BattleState) : option bool :=
  let '(p1Id, p2Id) := playerIds b in
  p1 ← players b !! p1Id;
  if decide (action p1 ≠ None) then
    p2 ← players b !! p2Id;
    Some (bool_decide (action p2 ≠ None))
  else Some false.

Definition valid_action (a : string) : bool :=
  bool_decide (a ∈ ["attack"; "defend"; "special"]).

(** Line 821: [battlePlayer.action = action], where [battlePlayer] is the
    entry of [player] in [match.battleState.players]. *)
Definition recordAction (player : WaitingEntry) (action_ : string) (m : Match) : Match :=
  let h := alter (set_action (Some action_)) (playerId player)
             (players (battleState m)) in
  set_battleState (set_players h (battleState m)) m.

(** Lines 802-839.  A request that is dropped leaves [st] as it is.  The
    third component records the call of [resolveTurn], if the handler makes
    one: the match object passed and what the call left behind. *)
Definition submit_action (socket matchId action_ : string) (rnd1 rnd2 : Q)
    (st : State) : option (State * list Effect * option (Match * Resolved)) :=
  match JsMap.get matchId (activeMatches st) with
  | None => Some (st, [], None)
  | Some m =>
    if decide (status (battleState m) ≠ waiting_actions) then Some (st, [], None) else
    (* Find which player this is *)
    match find (λ p, bool_decide (socketId p = socket)) (match_players m) with
    | None => Some (st, [], None)
    | Some player =>
      match players (battleState m) !! playerId player with
      | None => Some (st, [], None)
      | Some battlePlayer =>
        if truthy (action battlePlayer) then Some (st, [], None)   (* Already submitted *)
        (* Validate action *)
        else if negb (valid_action action_) then Some (st, [], None)
        else if decide (action_ = "special" ∧ specialCooldown battlePlayer > 0) then
          Some (st, [Emit socket (pvp_action_error "Special is on cooldown!")], None)
        else
          let m := recordAction player action_ m in
          (* Notify opponent that we're ready *)
          let ready :=
            match find (λ p, bool_decide (socketId p ≠ socket)) (match_players m) with
            | Some opponent => [Emit (socketId opponent) pvp_opponent_ready]
            | None => []
            end in
          (* Check if both players have submitted *)
          all ← allSubmitted (battleState m);
          if all : bool then
            let m := set_battleState (set_status resolving (battleState m)) m in
            r ← resolveTurn matchId m rnd1 rnd2 (activeMatches st);
            Some ({| waitingPlayers := waitingPlayers st;
                     activeMatches := r_activeMatches r |},
                  ready ++ r_effects r, Some (m, r))
          else
            Some ({| waitingPlayers := waitingPlayers st;
                     activeMatches := JsMap.set matchId m (activeMatches st) |},
                  ready, None)
      end
    end
  end.

Definition on_submit_action (socket matchId action_ : string) (rnd1 rnd2 : Q)
    (st : State) : option (State * list Effect) :=
  '(st', out, _) ← submit_action socket matchId action_ rnd1 rnd2 st;
  Some (st', out).

(** Lines 861-869: [forEach] over the registry, deleting as it goes. *)
Fixpoint forfeit_all (socket : string) (entries : list (string * Match))
    (active : list (string * Match)) : list (string * Match) * list Effect :=
  match entries with
  | [] => (active, [])
  | (matchId, m) :: entries' =>
      if some (λ p, bool_decide (socketId p = socket)) (match_players m) then
        let notice :=
          match find (λ p, bool_decide (socketId p ≠ socket)) (match_players m) with
          | Some opponent => [Emit (socketId opponent) pvp_opponent_disconnect]
          | None => []
          end in
        let '(active', rest) := forfeit_all socket entries' (JsMap.delete matchId active) in
        (active', notice ++ rest)
      else forfeit_all socket entries' active
  end.

(** Lines 855-870. *)
Definition on_disconnect (socket : string) (st : State) : State * list Effect :=
  let waiting := withdraw socket (waitingPlayers st) in
  let '(active, notices) := forfeit_all socket (activeMatches st) (activeMatches st) in
  ({| waitingPlayers := waiting; activeMatches := active |}, notices).

(** The events of a connection.  [pvp_queue_no_data] and
    [pvp_submit_action_no_data] are the two events that carry a payload,
    arriving without one ([undefined] or [null]). *)
Inductive Event :=
| pvp_queue (socket : string) (playerData : PlayerData) (uuid : string) (now : Z)
| pvp_queue_no_data (socket : string)
| pvp_leave (socket : string)
| pvp_submit_action (socket matchId action_ : string) (rnd1 rnd2 : Q)
| pvp_submit_action_no_data (socket : string)
| disconnect (socket : string).

(** The values [Math.random()] can return: the binary64 numbers from 0 up to,
    but not including, 1. *)
Definition random_ok (rnd : Q) : Prop :=
  (0 <= rnd)%Q ∧ (rnd < 1)%Q ∧ is_binary64 rnd.

Definition event_ok (e : Event) : Prop :=
  match e with
  | pvp_submit_action _ _ _ rnd1 rnd2 => random_ok rnd1 ∧ random_ok rnd2
  | _ => True
  end.

Definition handle (e : Event) (st : State) : option (State * list Effect) :=
  match e with
  | pvp_queue socket playerData uuid now => Some (on_queue socket playerData uuid now st)
  | pvp_queue_no_data _ => None            (* line 778: [playerData.username] *)
  | pvp_leave socket => Some (on_leave socket st)
  | pvp_submit_action socket matchId action_ rnd1 rnd2 =>
      on_submit_action socket matchId action_ rnd1 rnd2 st
  | pvp_submit_action_no_data _ => None    (* line 803: [const { matchId, action } = data] *)
  | disconnect socket => Some (on_disconnect socket st)
  end.

(** Running the server from a state on a list of events: the final state and
    the whole trace, or [None] if some handler throws. *)
Fixpoint run (es : list Event) (st : State) : option (State * list Effect) :=
  match es with
  | [] => Some (st, [])
  | e :: es' =>
      '(st', out) ← handle e st;
      '(st'', out') ← run es' st';
      Some (st'', out ++ out')
  end.

(** States the server can be in between two events. *)
Inductive reachable : State → Prop :=
| reachable_initial : reachable initial
| reachable_step st e st' out :
    reachable st → event_ok e → handle e st = Some (st', out) → reachable st'.

(** * Global chat, lines 842-853 *)

(** A text whose length matters is kept as JavaScript has it: the list of its
    UTF-16 code units. *)
Abbreviation jsstring := (list N).

(** The code units [String.prototype.trim] removes: the white space and line
    terminator characters of ECMAScript, all of which are single code units. *)
Definition isWhiteSpace (c : N) : bool :=
  bool_decide (c ∈ [0x09; 0x0A; 0x0B; 0x0C; 0x0D; 0x20; 0xA0; 0x1680;
                    0x2028; 0x2029; 0x202F; 0x205F; 0x3000; 0xFEFF]%N)
  || (0x2000 <=? c)%N && (c <=? 0x200A)%N.

Fixpoint trimStart (s : jsstring) : jsstring :=
  match s with
  | c :: s' => if isWhiteSpace c then trimStart s' else s
  | [] => []
  end.

Definition trimEnd (s : jsstring) : jsstring := reverse (trimStart (reverse s)).

Definition trim (s : jsstring) : jsstring := trimEnd (trimStart s).

(** [s.slice(0, n)] for a count [n >= 0]. *)
Definition slice0 (n : nat) (s : jsstring) : jsstring := take n s.

(** Truthiness of a value that is [undefined] or a string. *)
Definition nonempty (v : option jsstring) : bool :=
  match v with
  | Some (_ :: _) => true
  | _ => false
  end.

(** The payload of [chat:message], sent to every connected socket. *)
Record ChatMessage := {
  chat_id : Z;
  chat_username : jsstring;
  chat_message : jsstring;
  chat_timestamp : string
}.

(** Lines 842-853.  [now] is the value of [Date.now()] and [iso] the value of
    [new Date().toISOString()]; the result is the message broadcast with
    [io.emit], if any. *)
Definition on_chat_send (username message : option jsstring) (now : Z) (iso : string)
  : option ChatMessage :=
  match username, message with
  | Some username, Some message =>
      if negb (nonempty (Some username)) || negb (nonempty (Some message))
         || bool_decide (Z.of_nat (length message) > 200)
      then None
      else Some {| chat_id := now;
                   chat_username := username;
                   chat_message := slice0 200 (trim message);
                   chat_timestamp := iso |}
  | _, _ => None
  end.

(** * Guilds without a database, lines 920-929 and the [else] branches of
      lines 981-1441

    When [DATABASE_URL] is not set [pool] stays [null] and the guild routes
    work on the [Map] [guilds].  These branches contain no [await], so each
    request runs to completion on its own. *)

Record Member := {
  member_playerId : option string;      (* [undefined] when the request has none *)
  role : string;
  guildCoins : Z
}.

Record Guild := {
  guild_id : string;
  guild_name : jsstring;
  leaderId : string;
  level : Z;
  members : list Member;
  bossHp : Z
}.

(** [GUILD_BOSS], lines 925-929. *)
Definition GUILD_BOSS_maxHp : Z := 10000000.
Definition GUILD_BOSS_dailyAttacks : Z := 3.
Definition GUILD_BOSS_coinsPerDamage : Z := 1000.

Definition set_members (ms : list Member) (g : Guild) : Guild :=
  {| guild_id := guild_id g; guild_name := guild_name g; leaderId := leaderId g;
     level := level g; members := ms; bossHp := bossHp g |}.
Definition set_bossHp (v : Z) (g : Guild) : Guild :=
  {| guild_id := guild_id g; guild_name := guild_name g; leaderId := leaderId g;
     level := level g; members := members g; bossHp := v |}.

Global Instance Member_eq_dec : EqDecision Member.
Proof. solve_decision. Defined.

(** What a route answers: [res.status(code).json({error})] or one of the
    success bodies. *)
Inductive Response :=
| res_error (code : Z) (error : string)
| res_created (id : string) (name : jsstring) (level : Z)
| res_guilds (guilds : list (Guild * Z))            (* each with [member_count] *)
| res_guild (guild : Guild) (members : list Member) (* and [bossDamage: []] *)
| res_player_guild (guild : option (Guild * string)) (* the guild with [role], or [null] *)
| res_success
| res_boss_attack (damage coinsEarned attacksLeft : Z)
| res_boss (bossHp maxHp : Z).                       (* and [leaderboard: []] *)

(** Lines 981-986 and 1026-1036. *)
Definition create_guild (playerId : option string) (guildName : option jsstring)
    (uuid : string) (guilds : list (string * Guild)) : list (string * Guild) * Response :=
  match playerId, guildName with
  | Some playerId, Some guildName =>
      if negb (truthy (Some playerId)) || negb (nonempty (Some guildName))
         || bool_decide (Z.of_nat (length guildName) < 3)
      then (guilds, res_error 400 "Guild name must be at least 3 characters")
      else
        let guildId := uuid in
        (JsMap.set guildId
           {| guild_id := guildId;
              guild_name := guildName;
              leaderId := playerId;
              level := 1;
              members := [ {| member_playerId := Some playerId; role := "leader";
                              guildCoins := 0 |} ];
              bossHp := GUILD_BOSS_maxHp |} guilds,
         res_created guildId guildName 1)
  | _, _ => (guilds, res_error 400 "Guild name must be at least 3 characters")
  end.

(** Lines 1059-1063. *)
Definition list_guilds (guilds : list (string * Guild)) : Response :=
  res_guilds ((λ kg, (kg.2, Z.of_nat (length (members kg.2)))) <$> guilds).

(** Lines 1103-1107. *)
Definition get_guild (guildId : string) (guilds : list (string * Guild)) : Response :=
  match JsMap.get guildId guilds with
  | None => res_error 404 "Guild not found"
  | Some guild => res_guild guild (members guild)
  end.

(** Lines 1145-1151: the first guild, in the order of the [Map], that has the
    player among its members. *)
Fixpoint player_guild (playerId : string) (guilds : list (string * Guild)) : Response :=
  match guilds with
  | [] => res_player_guild None
  | (_, guild) :: guilds' =>
      match find (λ m, bool_decide (member_playerId m = Some playerId)) (members guild) with
      | Some member => res_player_guild (Some (guild, role member))
      | None => player_guild playerId guilds'
      end
  end.

(** Lines 1189-1192.  The member list is changed in place in the object the
    [Map] holds, which is written back under its key. *)
Definition join_guild (guildId : string) (playerId : option string)
    (guilds : list (string * Guild)) : list (string * Guild) * Response :=
  match JsMap.get guildId guilds with
  | None => (guilds, res_error 404 "Guild not found")
  | Some guild =>
      let guild :=
        set_members (members guild ++ [ {| member_playerId := playerId; role := "member";
                                           guildCoins := 0 |} ]) guild in
      (JsMap.set guildId guild guilds, res_success)
  end.

(** Lines 1219-1222. *)
Definition leave_guild (guildId : string) (playerId : option string)
    (guilds : list (string * Guild)) : list (string * Guild) * Response :=
  match JsMap.get guildId guilds with
  | None => (guilds, res_error 404 "Guild not found")
  | Some guild =>
      let guild :=
        set_members (filter (λ m, member_playerId m ≠ playerId) (members guild)) guild in
      (JsMap.set guildId guild guilds, res_success)
  end.

(** Lines 1341-1342; [rnd] is the value of [Math.random()]. *)
Definition boss_damage (rnd : Q) : Z :=
  Math_floor (Number_add 50000 (Number_mul rnd 100000)).
Definition boss_coins (damage : Z) : Z :=
  Math_floor (Number_div (inject_Z damage) (inject_Z GUILD_BOSS_coinsPerDamage)).

(** Lines 1336-1342 and 1397-1400. *)
Definition attack_boss (guildId : string) (rnd : Q)
    (guilds : list (string * Guild)) : list (string * Guild) * Response :=
  let damage := boss_damage rnd in
  let coinsEarned := boss_coins damage in
  match JsMap.get guildId guilds with
  | None => (guilds, res_error 404 "Guild not found")
  | Some guild =>
      let guild := set_bossHp (Math_max 0 (bossHp guild - damage)) guild in
      (JsMap.set guildId guild guilds, res_boss_attack damage coinsEarned 2)
  end.

(** Lines 1430-1435: [guild?.bossHp || GUILD_BOSS.maxHp]. *)
Definition boss_status (guildId : string) (guilds : list (string * Guild)) : Response :=
  let hp :=
    match JsMap.get guildId guilds with
    | Some guild => if decide (bossHp guild = 0) then GUILD_BOSS_maxHp else bossHp guild
    | None => GUILD_BOSS_maxHp
    end in
  res_boss hp GUILD_BOSS_maxHp.

(** The requests that change [guilds]. *)
Inductive GuildRequest :=
| req_create (playerId : option string) (guildName : option jsstring) (uuid : string)
| req_join (guildId : string) (playerId : option string)
| req_leave (guildId : string) (playerId : option string)
| req_attack (guildId : string) (rnd : Q).

Definition request_ok (q : GuildRequest) : Prop :=
  match q with
  | req_attack _ rnd => random_ok rnd
  | _ => True
  end.

Definition serve (q : GuildRequest) (guilds : list (string * Guild))
  : list (string * Guild) * Response :=
  match q with
  | req_create playerId guildName uuid => create_guild playerId guildName uuid guilds
  | req_join guildId playerId => join_guild guildId playerId guilds
  | req_leave guildId playerId => leave_guild guildId playerId guilds
  | req_attack guildId rnd => attack_boss guildId rnd guilds
  end.

(** The contents of [guilds] the server can reach from the empty [Map]. *)
Inductive guilds_reachable : list (string * Guild) → Prop :=
| guilds_initial : guilds_reachable []
| guilds_step guilds q :
    guilds_reachable guilds → request_ok q → guilds_reachable (serve q guilds).1.

(** A run of boss attacks on one guild, one [Math.random()] value each. *)
Definition attacks (guildId : string) (rnds : list Q)
    (guilds : list (string * Guild)) : list (string * Guild) :=
  foldl (λ guilds rnd, (attack_boss guildId rnd guilds).1) guilds rnds.

Definition total_damage (rnds : list Q) : Z :=
  foldr Z.add 0 (boss_damage <$> rnds).

(** * Definitions used in the statements *)

(** A test for the values of [Math.random()]. *)
Definition random_okb (rnd : Q) : bool :=
  Qle_bool 0 rnd && negb (Qle_bool 1 rnd) && Qeq_bool (binary64 rnd) rnd.

(** The steps of [resolveTurn] as they act on one entry of [battle.players]. *)
Definition base_of (b : BattlePlayer) (rnd : Q) : Z :=
  if decide (action b = Some "attack") then 15 + Math_floor (Number_mul rnd 11)
  else if decide (action b = Some "special" ∧ specialCooldown b = 0) then 30
  else 0.

Definition charged (b : BattlePlayer) : BattlePlayer :=
  if decide (action b = Some "attack") then b
  else if decide (action b = Some "special" ∧ specialCooldown b = 0)
       then set_specialCooldown 2 b
       else b.

Definition reduced (opponent : BattlePlayer) (damage : Z) : Z :=
  if decide (action opponent = Some "defend")
  then Math_floor (inject_Z damage * 0.5)%Q else damage.

Definition damaged (damage : Z) (b : BattlePlayer) : BattlePlayer :=
  set_hp (Math_max 0 (hp b - damage)) b.

Definition cooled (b : BattlePlayer) : BattlePlayer :=
  if decide (specialCooldown b > 0 ∧ action b ≠ Some "special")
  then set_specialCooldown (specialCooldown b - 1) b else b.

(** The two sides of a turn: what each deals and what becomes of each. *)
Definition dealt1 (b1 b2 : BattlePlayer) (rnd1 : Q) : Z := reduced b2 (base_of b1 rnd1).
Definition dealt2 (b1 b2 : BattlePlayer) (rnd2 : Q) : Z := reduced b1 (base_of b2 rnd2).
Definition after1 (b1 b2 : BattlePlayer) (rnd2 : Q) : BattlePlayer :=
  cooled (damaged (dealt2 b1 b2 rnd2) (charged b1)).
Definition after2 (b1 b2 : BattlePlayer) (rnd1 : Q) : BattlePlayer :=
  cooled (damaged (dealt1 b1 b2 rnd1) (charged b2)).

(** What [findIndex] followed by a guarded [splice] does: the first element
    satisfying [f] is taken out. *)
Fixpoint remove_first {A : Type} (f : A → bool) (l : list A) : list A :=
  match l with
  | [] => []
  | x :: l' => if f x then l' else x :: remove_first f l'
  end.

Definition action_ok (a : option string) : Prop :=
  a = None ∨ a = Some "attack" ∨ a = Some "defend" ∨ a = Some "special".

Record wf_player (b : BattlePlayer) : Prop := {
  wf_hp : 0 ≤ hp b ≤ 100;
  wf_cooldown : 0 ≤ specialCooldown b ≤ 2;
  wf_action : action_ok (action b);
  wf_special : action b = Some "special" → specialCooldown b = 0
}.

(** A match as [tryMatchPlayers] builds it and the handlers keep it. *)
Definition wf_match (m : Match) : Prop :=
  ∃ pl1 pl2 b1 b2,
    match_players m = [pl1; pl2] ∧
    playerId pl1 ≠ playerId pl2 ∧
    playerIds (battleState m) = (playerId pl1, playerId pl2) ∧
    players (battleState m) !! playerId pl1 = Some b1 ∧
    players (battleState m) !! playerId pl2 = Some b2 ∧
    wf_player b1 ∧ wf_player b2 ∧
    status (battleState m) = waiting_actions.

Record inv (st : State) : Prop := {
  inv_matches : Forall (λ km, wf_match km.2) (activeMatches st);
  inv_distinct : NoDup (playerId <$> waitingPlayers st);
  inv_short : (length (waitingPlayers st) ≤ 1)%nat
}.

(** The request passes every check of lines 803-819: [m] is the match found,
    [player] the participant the connection stands for, [bp] its entry. *)
Definition accepted (socket matchId action_ : string) (st : State)
    (m : Match) (player : WaitingEntry) (bp : BattlePlayer) : Prop :=
  JsMap.get matchId (activeMatches st) = Some m ∧
  status (battleState m) = waiting_actions ∧
  find (λ p, bool_decide (socketId p = socket)) (match_players m) = Some player ∧
  players (battleState m) !! playerId player = Some bp ∧
  truthy (action bp) = false ∧
  valid_action action_ = true ∧
  ¬ (action_ = "special" ∧ specialCooldown bp > 0).

(** Line 825-828. *)
Definition ready_notice (socket : string) (m : Match) : list Effect :=
  match find (λ p, bool_decide (socketId p ≠ socket)) (match_players m) with
  | Some opponent => [Emit (socketId opponent) pvp_opponent_ready]
  | None => []
  end.

Definition first_id (m : Match) : string := (playerIds (battleState m)).1.
Definition second_id (m : Match) : string := (playerIds (battleState m)).2.
Definition combatant (m : Match) (pid : string) : BattlePlayer :=
  players (battleState m) !!! pid.

(** The object store at the end of line 706. *)
Definition store_after (m : Match) (rnd1 rnd2 : Q) : gmap string BattlePlayer :=
  let b1 := combatant m (first_id m) in
  let b2 := combatant m (second_id m) in
  <[second_id m := after2 b1 b2 rnd1]>
    (<[first_id m := after1 b1 b2 rnd2]> (players (battleState m))).

(** A match on which [resolveTurn] is called: a well-formed match in which
    both sides have chosen, marked as resolving. *)
Definition resolving_match (m : Match) : Prop :=
  ∃ pl1 pl2,
    match_players m = [pl1; pl2] ∧
    playerIds (battleState m) = (playerId pl1, playerId pl2) ∧
    playerId pl1 ≠ playerId pl2 ∧
    is_Some (players (battleState m) !! playerId pl1) ∧
    is_Some (players (battleState m) !! playerId pl2) ∧
    wf_player (combatant m (playerId pl1)) ∧
    wf_player (combatant m (playerId pl2)) ∧
    action (combatant m (playerId pl1)) ≠ None ∧
    action (combatant m (playerId pl2)) ≠ None ∧
    status (battleState m) = resolving.

Definition alice : PlayerData :=
  {| pd_playerId := "A"; pd_username := "alice"; pd_stats := ""; pd_trophies := Some 120 |}.
Definition bob : PlayerData :=
  {| pd_playerId := "B"; pd_username := "bob"; pd_stats := ""; pd_trophies := None |}.

(** Both join; the match gets the id "m1". *)
Definition paired : list Event :=
  [ pvp_queue "sa" alice "m0" 0; pvp_queue "sb" bob "m1" 0 ].

(** One full turn: A chooses, then B chooses, which resolves the turn with
    the rolls [rnd1] (for A) and [rnd2] (for B). *)
Definition play (a1 a2 : string) (rnd1 rnd2 : Q) : list Event :=
  [ pvp_submit_action "sa" "m1" a1 0 0; pvp_submit_action "sb" "m1" a2 rnd1 rnd2 ].

(** Four turns that leave A with 25 and B with 15 hit points, both with
    their special ready; then A chooses the special. *)
Definition tie_events : list Event :=
  paired
  ++ play "special" "attack" 0 0
  ++ play "attack" "attack" 0 (1#2)
  ++ play "attack" "attack" 0 (1#2)
  ++ play "attack" "attack" (15#16) (1#2)
  ++ [ pvp_submit_action "sa" "m1" "special" 0 0 ].

Definition state_after (es : list Event) : State :=
  match run es initial with Some (st, _) => st | None => initial end.

(** The two notices of lines 892-912. *)
Definition found (matchId : string) (player1 player2 : WaitingEntry) : list Effect :=
  [ Emit (socketId player1)
      (pvp_match_found matchId (playerId player1)
         (playerId player2) (username player2) (trophies player2) 100);
    Emit (socketId player2)
      (pvp_match_found matchId (playerId player2)
         (playerId player1) (username player1) (trophies player1) 100) ].

(** The pairing operation in the words of the specification: while at least
    two entries remain, the two at the front are removed and paired.  The
    result is the list of pairs in the order they are formed, and what is left
    of the queue. *)
Fixpoint TryPairAll (waiting : list WaitingEntry)
  : list (WaitingEntry * WaitingEntry) * list WaitingEntry :=
  match waiting with
  | player1 :: player2 :: rest =>
      let '(pairs, remaining) := TryPairAll rest in
      ((player1, player2) :: pairs, remaining)
  | _ => ([], waiting)
  end.

(** The entries of a list of pairs, in order. *)
Definition paired_entries (pairs : list (WaitingEntry * WaitingEntry)) : list WaitingEntry :=
  pairs ≫= λ p, [p.1; p.2].

(** The last call of the sample session [tie_events]: B answers with the
    special and the turn is resolved. *)
Definition tie_call : option (State * list Effect * option (Match * Resolved)) :=
  submit_action "sb" "m1" "special" 0 0 (state_after tie_events).

(** The state after the first turn of the sample session: A has used the
    special. *)
Definition after_special : list Event := paired ++ play "special" "attack" 0 0.

Definition cooldown_error : Effect :=
  Emit "sa" (pvp_action_error "Special is on cooldown!").

Definition attacker : BattlePlayer :=
  set_action (Some "attack") (newBattlePlayer (waitingEntry "sa" alice)).

(** A attacks in the first turn of a fresh match; B is about to answer. *)
Definition first_attack : list Event :=
  paired ++ [ pvp_submit_action "sa" "m1" "attack" 0 0 ].

(** What else holds of a match stored under the key [k]. *)
Record match_shape (k : string) (m : Match) : Prop := {
  shape_key : match_id m = k;
  shape_turn : 1 ≤ turn (battleState m);
  shape_pending :
    action (combatant m (first_id m)) = None ∨
    action (combatant m (second_id m)) = None;
  shape_maxHp :
    maxHp (combatant m (first_id m)) = 100 ∧ maxHp (combatant m (second_id m)) = 100;
  shape_entries :
    match_players m =
      [bp_entry (combatant m (first_id m)); bp_entry (combatant m (second_id m))];
  shape_dom : dom (players (battleState m)) = {[first_id m; second_id m]}
}.

(** The part of [match_shape] that also holds while a turn is resolved. *)
Definition match_frame (k : string) (m : Match) : Prop :=
  match_id m = k ∧
  1 ≤ turn (battleState m) ∧
  (maxHp (combatant m (first_id m)) = 100 ∧ maxHp (combatant m (second_id m)) = 100) ∧
  match_players m =
    [bp_entry (combatant m (first_id m)); bp_entry (combatant m (second_id m))] ∧
  dom (players (battleState m)) = {[first_id m; second_id m]}.

Definition shaped (st : State) : Prop :=
  Forall (λ km, match_shape km.1 km.2) (activeMatches st).


(** A player whose id is the empty string. *)
Definition nameless : PlayerData :=
  {| pd_playerId := ""; pd_username := "ghost"; pd_stats := ""; pd_trophies := None |}.

(** Alice against the nameless player: three turns of mutual attacks, A with
    roll 15 and the other with roll 25, then A attacks again. *)
Definition nameless_events : list Event :=
  [ pvp_queue "sa" alice "m0" 0; pvp_queue "sb" nameless "m1" 0 ]
  ++ play "attack" "attack" 0 (15#16)
  ++ play "attack" "attack" 0 (15#16)
  ++ play "attack" "attack" 0 (15#16)
  ++ [ pvp_submit_action "sa" "m1" "attack" 0 0 ].

Definition is_battle_end (e : Effect) : bool :=
  match e with Emit _ (pvp_battle_end _ _ _) => true | _ => false end.

(** The event is a join that registers its match, if it makes one, under the
    id [matchId]: [uuidv4()] returns that id. *)
Definition reuses (matchId : string) (e : Event) : bool :=
  match e with
  | pvp_queue _ _ uuid _ => bool_decide (uuid = matchId)
  | _ => false
  end.

(** What every guild of the [Map] satisfies. *)
Record guild_ok (k : string) (g : Guild) : Prop := {
  ok_key : guild_id g = k;
  ok_level : level g = 1;
  ok_bossHp : 0 ≤ bossHp g ≤ GUILD_BOSS_maxHp;
  ok_name : 3 ≤ Z.of_nat (length (guild_name g));
  ok_leader : leaderId g ≠ ""
}.

Definition guilds_ok (guilds : list (string * Guild)) : Prop :=
  NoDup guilds.*1 ∧ Forall (λ kg, guild_ok kg.1 kg.2) guilds.

Definition founder : GuildRequest :=
  req_create (Some "p1") (Some [99; 97; 112; 121]%N) "g1".

Definition one_guild : list (string * Guild) := (serve founder []).1.

Definition slain : list (string * Guild) := attacks "g1" (replicate 200 0%Q) one_guild.

(** The member a guild is created with and the member a join adds. *)
Definition leader_of (playerId : string) : Member :=
  {| member_playerId := Some playerId; role := "leader"; guildCoins := 0 |}.
Definition joiner (playerId : option string) : Member :=
  {| member_playerId := playerId; role := "member"; guildCoins := 0 |}.

(** No member of any guild of the [Map] has this player id. *)
Definition guildless (playerId : string) (guilds : list (string * Guild)) : Prop :=
  ∀ k g m, (k, g) ∈ guilds → m ∈ members g → member_playerId m ≠ Some playerId.

(** The same player founds two guilds of the same name. *)
Definition two_guilds : list (string * Guild) :=
  (serve (req_create (Some "p1") (Some [99; 97; 112; 121]%N) "g2") one_guild).1.

(** When both participants of a match sit on the same connection, the second
    one has no action recorded. *)
Definition lone_match (m : Match) : Prop :=
  ∀ pl1 pl2, match_players m = [pl1; pl2] → socketId pl1 = socketId pl2 →
             action (combatant m (second_id m)) = None.

Definition lone (st : State) : Prop :=
  Forall (λ km, lone_match km.2) (activeMatches st).

(** One connection joins under two player ids. *)
Definition solo : list Event :=
  [ pvp_queue "sa" alice "m0" 0; pvp_queue "sa" bob "m1" 0 ].

(** * Arithmetic of JavaScript numbers *)

(** ** Rounding to binary64 *)

Section binary64_facts.
Local Open Scope Q_scope.

Lemma two_pow_pos e : 0 < Qpower 2 e.
Proof. apply Qpower_0_lt. reflexivity. Qed.

Lemma two_pow_le a b : (a <= b)%Z -> Qpower 2 a <= Qpower 2 b.
Proof. intros H. apply Qpower_le_compat_l; [exact H | discriminate]. Qed.

Lemma two_pow_lt_inv a b : Qpower 2 a < Qpower 2 b -> (a < b)%Z.
Proof. intros H. apply (Qpower_lt_compat_l_inv 2); [exact H | reflexivity]. Qed.

Lemma two_pow_plus a b : Qpower 2 (a + b) == Qpower 2 a * Qpower 2 b.
Proof. apply Qpower_plus. discriminate. Qed.

Lemma two_pow_inject k : (0 <= k)%Z -> inject_Z (2 ^ k) == Qpower 2 k.
Proof. intros H. apply (Zpower_Qpower 2 k H). Qed.

Lemma Zlog2_bounds n : (0 < n)%Z -> (2 ^ Z.log2 n <= n < 2 ^ (Z.log2 n + 1))%Z.
Proof. intros H. pose proof (Z.log2_spec n H). lia. Qed.

Lemma two_pow_cancel a : Qpower 2 a * Qpower 2 (- a) == 1.
Proof. rewrite <- two_pow_plus. rewrite Z.add_opp_diag_r. reflexivity. Qed.

Lemma Q_num_den q : q * inject_Z (Z.pos (Qden q)) == inject_Z (Qnum q).
Proof.
destruct q as [n d]. unfold Qeq, Qmult, inject_Z. simpl. lia.
Qed.

Lemma binade_rough q :
0 < q ->
let e := (Z.log2 (Qnum q) - Z.log2 (Z.pos (Qden q)))%Z in
Qpower 2 (e - 1) <= q /\ q < Qpower 2 (e + 1).
Proof.
intros Hq e. subst e.
set (ln := Z.log2 (Qnum q)). set (ld := Z.log2 (Z.pos (Qden q))).
assert (0 < Qnum q)%Z as Hn by (destruct q as [n d]; unfold Qlt in Hq; simpl in *; lia).
destruct (Zlog2_bounds _ Hn) as [Hn1 Hn2]. fold ln in Hn1, Hn2.
destruct (Zlog2_bounds (Z.pos (Qden q)) eq_refl) as [Hd1 Hd2]. fold ld in Hd1, Hd2.
assert (0 <= ln)%Z as Hln by apply Z.log2_nonneg.
assert (0 <= ld)%Z as Hld by apply Z.log2_nonneg.
pose proof (Q_num_den q) as Hq'.
set (n := inject_Z (Qnum q)) in *. set (d := inject_Z (Z.pos (Qden q))) in *.
assert (0 < d) as Hdpos by reflexivity.
assert (Qpower 2 ln <= n) as Pn1.
{ rewrite <- two_pow_inject by lia. unfold n. rewrite <- Zle_Qle. exact Hn1. }
assert (n < Qpower 2 (ln + 1)) as Pn2.
{ rewrite <- two_pow_inject by lia. unfold n. rewrite <- Zlt_Qlt. exact Hn2. }
assert (Qpower 2 ld <= d) as Pd1.
{ rewrite <- two_pow_inject by lia. unfold d. rewrite <- Zle_Qle. exact Hd1. }
assert (d < Qpower 2 (ld + 1)) as Pd2.
{ rewrite <- two_pow_inject by lia. unfold d. rewrite <- Zlt_Qlt. exact Hd2. }
split.
- apply (Qmult_le_r _ _ d Hdpos). rewrite Hq'.
  apply Qle_trans with (Qpower 2 (ln - ld - 1) * Qpower 2 (ld + 1)).
  + apply Qmult_le_l; [apply two_pow_pos | apply Qlt_le_weak, Pd2].
  + rewrite <- two_pow_plus. replace (ln - ld - 1 + (ld + 1))%Z with ln by lia. exact Pn1.
- apply (Qmult_lt_r _ _ d Hdpos). rewrite Hq'.
  apply Qlt_le_trans with (Qpower 2 (ln + 1)); [exact Pn2|].
  apply Qle_trans with (Qpower 2 (ln - ld + 1) * Qpower 2 ld).
  + rewrite <- two_pow_plus. replace (ln - ld + 1 + ld)%Z with (ln + 1)%Z by lia.
    apply Qle_refl.
  + apply Qmult_le_l; [apply two_pow_pos | exact Pd1].
Qed.

Lemma binade_spec q : 0 < q -> Qpower 2 (binade q) <= q /\ q < Qpower 2 (binade q + 1).
Proof.
intros Hq. destruct (binade_rough q Hq) as [Hlo Hhi]. unfold binade.
set (e := (Z.log2 (Qnum q) - Z.log2 (Z.pos (Qden q)))%Z) in *.
destruct (Qle_bool (Qpower 2 e) q) eqn:Ht.
- apply Qle_bool_iff in Ht. split; [exact Ht | exact Hhi].
- split; [exact Hlo|]. replace (e - 1 + 1)%Z with e by lia.
  apply Qnot_le_lt. intros H. apply Qle_bool_iff in H. congruence.
Qed.

Lemma binade_unique q e : Qpower 2 e <= q -> q < Qpower 2 (e + 1) -> binade q = e.
Proof.
intros Hlo Hhi.
assert (0 < q) as Hq by (eapply Qlt_le_trans; [apply (two_pow_pos e) | exact Hlo]).
destruct (binade_spec q Hq) as [Blo Bhi].
assert (binade q < e + 1)%Z
  by (apply two_pow_lt_inv; eapply Qle_lt_trans; [exact Blo | exact Hhi]).
assert (e < binade q + 1)%Z
  by (apply two_pow_lt_inv; eapply Qle_lt_trans; [exact Hlo | exact Bhi]).
lia.
Qed.

Lemma binade_mono q1 q2 : 0 < q1 -> q1 <= q2 -> (binade q1 <= binade q2)%Z.
Proof.
intros H1 H12. assert (0 < q2) as H2 by (eapply Qlt_le_trans; eassumption).
destruct (binade_spec q1 H1) as [B1 _]. destruct (binade_spec q2 H2) as [_ B2].
assert (binade q1 < binade q2 + 1)%Z; [|lia].
apply two_pow_lt_inv. eapply Qle_lt_trans; [exact B1|].
eapply Qle_lt_trans; [exact H12 | exact B2].
Qed.

Lemma binade_below q k : 0 < q -> q < Qpower 2 k -> (binade q < k)%Z.
Proof.
intros Hq Hk. destruct (binade_spec q Hq) as [B _].
apply two_pow_lt_inv. eapply Qle_lt_trans; [exact B | exact Hk].
Qed.

(** Rounding to the nearest integer. *)

Lemma nearest_even_cases x :
let f := Qfloor x in
(nearest_even x = f /\ x - inject_Z f <= 1#2) \/
(nearest_even x = (f + 1)%Z /\ 1#2 <= x - inject_Z f).
Proof.
intros f. unfold nearest_even. fold f.
destruct (Qcompare (x - inject_Z f) (1#2)) eqn:Hc.
- apply Qeq_alt in Hc. destruct (Z.even f); [left | right]; split; try reflexivity;
    rewrite Hc; apply Qle_refl.
- apply Qlt_alt in Hc. left. split; [reflexivity | apply Qlt_le_weak, Hc].
- apply Qgt_alt in Hc. right. split; [reflexivity | apply Qlt_le_weak, Hc].
Qed.

Lemma Qfloor_bounds' x : inject_Z (Qfloor x) <= x /\ x < inject_Z (Qfloor x) + 1.
Proof.
split; [apply Qfloor_le|]. pose proof (Qlt_floor x) as H.
rewrite inject_Z_plus in H. exact H.
Qed.

Lemma nearest_even_error x :
- (1#2) <= inject_Z (nearest_even x) - x <= 1#2.
Proof.
destruct (Qfloor_bounds' x) as [Hlo Hhi].
destruct (nearest_even_cases x) as [[-> H]|[-> H]]; cbv zeta in H.
- revert Hlo Hhi H. generalize (inject_Z (Qfloor x)). intros f ? ? ?. split; lra.
- rewrite inject_Z_plus. revert Hlo Hhi H. generalize (inject_Z (Qfloor x)).
  intros f ? ? ?. change (inject_Z 1) with 1. split; lra.
Qed.

Lemma nearest_even_int z : nearest_even (inject_Z z) = z.
Proof.
unfold nearest_even. rewrite Qfloor_Z.
replace (Qcompare (inject_Z z - inject_Z z) (1#2)) with Lt; [reflexivity|].
symmetry. apply (proj1 (Qlt_alt _ _)). generalize (inject_Z z). intros f. lra.
Qed.

Lemma nearest_even_le_int x z : x <= inject_Z z -> (nearest_even x <= z)%Z.
Proof.
intros H. destruct (Qfloor_bounds' x) as [Hlo Hhi].
destruct (nearest_even_cases x) as [[-> _]|[-> Hc]]; cbv zeta in *.
- rewrite Zle_Qle. lra.
- assert (Qfloor x < z)%Z; [|lia]. rewrite Zlt_Qlt.
  revert H Hlo Hhi Hc. generalize (inject_Z (Qfloor x)) (inject_Z z). intros. lra.
Qed.

Lemma nearest_even_ge_int x z : inject_Z z <= x -> (z <= nearest_even x)%Z.
Proof.
intros H. assert (z <= Qfloor x)%Z as Hz.
{ rewrite <- (Qfloor_Z z). apply Qfloor_resp_le, H. }
destruct (nearest_even_cases x) as [[-> _]|[-> _]]; lia.
Qed.

Lemma Qcompare_cases p q :
match Qcompare p q with Eq => p == q | Lt => p < q | Gt => q < p end.
Proof.
destruct (Qcompare p q) eqn:H.
- apply (proj2 (Qeq_alt _ _)), H.
- apply (proj2 (Qlt_alt _ _)), H.
- apply (proj2 (Qgt_alt _ _)), H.
Qed.

Lemma nearest_even_mono x y : x <= y -> (nearest_even x <= nearest_even y)%Z.
Proof.
intros Hxy.
assert (Qfloor x <= Qfloor y)%Z as Hf by (apply Qfloor_resp_le, Hxy).
destruct (Z.eq_dec (Qfloor x) (Qfloor y)) as [E|E].
- unfold nearest_even. rewrite <- E.
  pose proof (Qcompare_cases (x - inject_Z (Qfloor x)) (1#2)) as Cx.
  pose proof (Qcompare_cases (y - inject_Z (Qfloor x)) (1#2)) as Cy.
  revert Cx Cy. generalize (inject_Z (Qfloor x)). intros f.
  destruct (Qcompare (x - f) (1#2)); destruct (Qcompare (y - f) (1#2));
    intros Cx Cy; try (destruct (Z.even (Qfloor x))); try lia; exfalso; lra.
- apply Z.le_trans with (Qfloor x + 1)%Z.
  + destruct (nearest_even_cases x) as [[-> _]|[-> _]]; lia.
  + apply Z.le_trans with (Qfloor y); [lia|].
    destruct (nearest_even_cases y) as [[-> _]|[-> _]]; lia.
Qed.

Lemma nearest_even_eq x y : x == y -> nearest_even x = nearest_even y.
Proof.
intros E. apply Z.le_antisymm; apply nearest_even_mono; rewrite E; apply Qle_refl.
Qed.

(** Rounding to binary64. *)

Lemma binary64_pos q :
0 < q -> binary64 q = inject_Z (nearest_even (q / ulp q)) * ulp q.
Proof.
intros H. unfold binary64. apply (proj1 (Qgt_alt _ _)) in H. rewrite H. reflexivity.
Qed.

Lemma binary64_0 q : q == 0 -> binary64 q = 0.
Proof.
intros H. unfold binary64. apply (proj1 (Qeq_alt _ _)) in H. rewrite H. reflexivity.
Qed.

Lemma ulp_pos q : 0 < ulp q.
Proof. apply two_pow_pos. Qed.

Lemma binary64_nonneg q : 0 <= q -> 0 <= binary64 q.
Proof.
intros H. destruct (Qlt_le_dec 0 q) as [Hq|Hq].
- rewrite (binary64_pos q Hq). apply Qmult_le_0_compat; [|apply Qlt_le_weak, ulp_pos].
  change 0 with (inject_Z 0). rewrite <- Zle_Qle. apply nearest_even_ge_int.
  change (inject_Z 0) with 0. apply Qle_shift_div_l; [apply ulp_pos|]. lra.
- rewrite binary64_0; [apply Qle_refl | lra].
Qed.

(** Scaling by a power of two. *)
Lemma scaled_le q p e :
q <= Qpower 2 e -> q / Qpower 2 p <= Qpower 2 (e - p).
Proof.
intros H. apply Qle_shift_div_r; [apply two_pow_pos|].
rewrite <- two_pow_plus. replace (e - p + p)%Z with e by lia. exact H.
Qed.

Lemma scaled_ge q p e :
Qpower 2 e <= q -> Qpower 2 (e - p) <= q / Qpower 2 p.
Proof.
intros H. apply Qle_shift_div_l; [apply two_pow_pos|].
rewrite <- two_pow_plus. replace (e - p + p)%Z with e by lia. exact H.
Qed.

Lemma binary64_le_pow q e :
0 < q -> q <= Qpower 2 e -> (Z.max (binade q - 52) (-1074) <= e)%Z ->
binary64 q <= Qpower 2 e.
Proof.
intros Hq He Hp. rewrite (binary64_pos q Hq). unfold ulp.
set (p := Z.max (binade q - 52) (-1074)) in *.
assert (nearest_even (q / Qpower 2 p) <= 2 ^ (e - p))%Z as Hn.
{ apply nearest_even_le_int. rewrite two_pow_inject by lia. apply scaled_le, He. }
rewrite Zle_Qle, two_pow_inject in Hn by lia.
apply Qle_trans with (Qpower 2 (e - p) * Qpower 2 p).
- apply Qmult_le_compat_r; [exact Hn | apply Qlt_le_weak, two_pow_pos].
- rewrite <- two_pow_plus. replace (e - p + p)%Z with e by lia. apply Qle_refl.
Qed.

Lemma binary64_ge_pow q e :
Qpower 2 e <= q -> (Z.max (binade q - 52) (-1074) <= e)%Z ->
Qpower 2 e <= binary64 q.
Proof.
intros He Hp.
assert (0 < q) as Hq by (eapply Qlt_le_trans; [apply (two_pow_pos e) | exact He]).
rewrite (binary64_pos q Hq). unfold ulp.
set (p := Z.max (binade q - 52) (-1074)) in *.
assert (2 ^ (e - p) <= nearest_even (q / Qpower 2 p))%Z as Hn.
{ apply nearest_even_ge_int. rewrite two_pow_inject by lia. apply scaled_ge, He. }
rewrite Zle_Qle, two_pow_inject in Hn by lia.
apply Qle_trans with (Qpower 2 (e - p) * Qpower 2 p).
- rewrite <- two_pow_plus. replace (e - p + p)%Z with e by lia. apply Qle_refl.
- apply Qmult_le_compat_r; [exact Hn | apply Qlt_le_weak, two_pow_pos].
Qed.

(** Rounding keeps the order. *)
Lemma binary64_mono q1 q2 : 0 <= q1 -> q1 <= q2 -> binary64 q1 <= binary64 q2.
Proof.
intros H1 H12. destruct (Qlt_le_dec 0 q1) as [Hq1|Hq1].
2: { rewrite (binary64_0 q1) by lra. apply binary64_nonneg. lra. }
assert (0 < q2) as Hq2 by lra.
pose proof (binade_mono q1 q2 Hq1 H12) as Hb.
destruct (binade_spec q1 Hq1) as [_ B1]. destruct (binade_spec q2 Hq2) as [B2 _].
destruct (Z.eq_dec (Z.max (binade q1 - 52) (-1074)) (Z.max (binade q2 - 52) (-1074)))
  as [E|E].
- rewrite (binary64_pos q1 Hq1), (binary64_pos q2 Hq2). unfold ulp. rewrite <- E.
  apply Qmult_le_compat_r; [|apply Qlt_le_weak, two_pow_pos].
  rewrite <- Zle_Qle. apply nearest_even_mono.
  apply Qmult_le_compat_r; [exact H12|].
  apply Qlt_le_weak, Qinv_lt_0_compat, two_pow_pos.
- apply Qle_trans with (Qpower 2 (binade q2)).
  + apply binary64_le_pow; [exact Hq1| |lia].
    apply Qle_trans with (Qpower 2 (binade q1 + 1)); [apply Qlt_le_weak, B1|].
    apply two_pow_le. lia.
  + apply binary64_ge_pow; [exact B2 | lia].
Qed.

(** Rounding respects the equality of rationals. *)
Lemma binary64_eq q1 q2 : 0 <= q1 -> q1 == q2 -> binary64 q1 == binary64 q2.
Proof.
intros H1 E. apply Qle_antisym; apply binary64_mono; lra.
Qed.

(** An integer below [2^53] is a binary64 number. *)
Lemma binary64_int z : (0 <= z < 2 ^ 53)%Z -> binary64 (inject_Z z) == inject_Z z.
Proof.
intros [H0 H53]. destruct (Z.eq_dec z 0%Z) as [-> | Hz]; [reflexivity|].
assert (0 < inject_Z z) as Hq by (change 0 with (inject_Z 0); rewrite <- Zlt_Qlt; lia).
rewrite (binary64_pos _ Hq). unfold ulp.
destruct (binade_spec _ Hq) as [B1 B2].
assert (0 <= binade (inject_Z z))%Z as Hb0.
{ assert (0 < binade (inject_Z z) + 1)%Z; [|lia]. apply two_pow_lt_inv.
  eapply Qle_lt_trans; [|exact B2]. change (Qpower 2 0) with (inject_Z 1).
  rewrite <- Zle_Qle. lia. }
assert (binade (inject_Z z) < 53)%Z as Hb53.
{ apply binade_below; [exact Hq|]. rewrite <- two_pow_inject by lia.
  rewrite <- Zlt_Qlt. exact H53. }
set (p := Z.max (binade (inject_Z z) - 52) (-1074)).
assert (p <= 0)%Z as Hp by lia.
assert (inject_Z z / Qpower 2 p == inject_Z (z * 2 ^ (- p))) as Hs.
{ rewrite inject_Z_mult, two_pow_inject by lia. unfold Qdiv.
  rewrite <- Qpower_opp. reflexivity. }
rewrite (nearest_even_eq _ _ Hs).
rewrite nearest_even_int, inject_Z_mult, two_pow_inject by lia.
rewrite <- Qmult_assoc, (Qmult_comm (Qpower 2 (- p))), two_pow_cancel.
apply Qmult_1_r.
Qed.

(** So is an integer below [2^53] times a power of two above the smallest. *)
Lemma binary64_dyadic z e :
(0 <= z < 2 ^ 53)%Z -> (-1074 <= e)%Z ->
binary64 (inject_Z z * Qpower 2 e) == inject_Z z * Qpower 2 e.
Proof.
intros [H0 H53] He. destruct (Z.eq_dec z 0%Z) as [-> | Hz].
{ rewrite binary64_0; [|apply Qmult_0_l]. symmetry. apply Qmult_0_l. }
assert (0 < inject_Z z) as Hzq by (change 0 with (inject_Z 0); rewrite <- Zlt_Qlt; lia).
assert (0 < inject_Z z * Qpower 2 e) as Hq
  by (apply Qmult_lt_0_compat; [exact Hzq | apply two_pow_pos]).
set (q := inject_Z z * Qpower 2 e) in *.
rewrite (binary64_pos _ Hq). unfold ulp.
assert (binade q < 53 + e)%Z as Hb.
{ apply binade_below; [exact Hq|]. rewrite two_pow_plus. unfold q.
  apply Qmult_lt_compat_r; [apply two_pow_pos|].
  rewrite <- two_pow_inject by lia. rewrite <- Zlt_Qlt. exact H53. }
set (p := Z.max (binade q - 52) (-1074)).
assert (p <= e)%Z as Hp by lia.
assert (q / Qpower 2 p == inject_Z (z * 2 ^ (e - p))) as Hs.
{ rewrite inject_Z_mult, two_pow_inject by lia. unfold q, Qdiv.
  rewrite <- Qpower_opp, <- Qmult_assoc, <- two_pow_plus. reflexivity. }
rewrite (nearest_even_eq _ _ Hs).
rewrite nearest_even_int, inject_Z_mult, two_pow_inject by lia.
rewrite <- Qmult_assoc, <- two_pow_plus. unfold q.
replace (e - p + p)%Z with e by lia. reflexivity.
Qed.

(** The error of rounding is at most half the spacing. *)
Lemma binary64_error q :
0 < q -> - (ulp q * (1#2)) <= binary64 q - q <= ulp q * (1#2).
Proof.
intros Hq. rewrite (binary64_pos q Hq).
pose proof (nearest_even_error (q / ulp q)) as [E1 E2].
pose proof (ulp_pos q) as Hu.
assert (q == (q / ulp q) * ulp q) as Hqu by (field; lra).
set (u := ulp q) in *. set (x := q / u) in *.
set (n := inject_Z (nearest_even x)) in *. clearbody n x u.
assert ((n - x) * u <= (1#2) * u) as U1 by (apply Qmult_le_compat_r; lra).
assert (- (1#2) * u <= (n - x) * u) as U2 by (apply Qmult_le_compat_r; lra).
assert ((n - x) * u == n * u - q) as U3 by (rewrite Hqu; ring).
rewrite U3 in U1, U2. set (nu := n * u) in *. clearbody nu. clear U3 Hqu.
split; lra.
Qed.

Lemma ulp_below q k : 0 < q -> q < Qpower 2 k -> (-1021 <= k)%Z -> ulp q <= Qpower 2 (k - 53).
Proof.
intros Hq Hk Hk'. pose proof (binade_below q k Hq Hk). unfold ulp.
apply two_pow_le. lia.
Qed.

(** A binary64 number below 1 is at most [1 - 2^-53]. *)
Lemma below_one q :
0 <= q -> q < 1 -> binary64 q == q -> q <= 1 - Qpower 2 (-53).
Proof.
intros H0 H1 Hfix. destruct (Qlt_le_dec q (1#2)) as [Hh|Hh].
- apply Qle_trans with (1#2); [lra|]. apply (proj1 (Qle_bool_iff _ _)). reflexivity.
- assert (0 < q) as Hq by lra.
  assert (binade q = -1)%Z as Hb by (apply binade_unique; [exact Hh | exact H1]).
  rewrite (binary64_pos q Hq) in Hfix. unfold ulp in Hfix. rewrite Hb in Hfix.
  change (Z.max (-1 - 52) (-1074)) with (-53)%Z in Hfix.
  set (n := nearest_even (q / Qpower 2 (-53))) in *.
  assert (n < 2 ^ 53)%Z as Hn.
  { rewrite Zlt_Qlt. apply (Qmult_lt_r _ _ (Qpower 2 (-53))); [apply two_pow_pos|].
    rewrite Hfix. rewrite two_pow_inject by lia.
    rewrite two_pow_cancel. exact H1. }
  assert (n <= 2 ^ 53 - 1)%Z as Hn' by lia.
  rewrite Zle_Qle in Hn'. rewrite <- Hfix.
  apply Qle_trans with (inject_Z (2 ^ 53 - 1) * Qpower 2 (-53)).
  + apply Qmult_le_compat_r; [exact Hn' | apply Qlt_le_weak, two_pow_pos].
  + apply (proj1 (Qle_bool_iff _ _)). reflexivity.
Qed.
(** Below [2^k] the error of rounding is at most [2^(k-54)]. *)
Lemma binary64_near q k :
0 < q -> q < Qpower 2 k -> (-1021 <= k)%Z ->
q - Qpower 2 (k - 54) <= binary64 q /\ binary64 q <= q + Qpower 2 (k - 54).
Proof.
intros Hq Hk Hk'. pose proof (binary64_error q Hq) as [E1 E2].
pose proof (ulp_below q k Hq Hk Hk') as Hu.
assert (Qpower 2 (k - 53) == Qpower 2 (k - 54) * 2) as Hp.
{ replace (k - 53)%Z with (k - 54 + 1)%Z by lia. rewrite two_pow_plus. reflexivity. }
rewrite Hp in Hu. revert E1 E2 Hu.
generalize (ulp q) (binary64 q) (Qpower 2 (k - 54)). intros u b w E1 E2 Hu.
split; lra.
Qed.

(** The integer part of a rounded number is at least any integer below the
  exact one. *)
Lemma floor_binary64_ge q z :
(0 <= z < 2 ^ 53)%Z -> inject_Z z <= q -> (z <= Qfloor (binary64 q))%Z.
Proof.
intros Hz Hq. rewrite <- (Qfloor_Z z). apply Qfloor_resp_le.
rewrite <- (binary64_int z Hz). apply binary64_mono; [|exact Hq].
change 0 with (inject_Z 0). rewrite <- Zle_Qle. lia.
Qed.

Lemma floor_lt q z : q < inject_Z z -> (Qfloor q < z)%Z.
Proof.
intros H. rewrite Zlt_Qlt. eapply Qle_lt_trans; [apply Qfloor_le | exact H].
Qed.

Lemma floor_ge q z : inject_Z z <= q -> (z <= Qfloor q)%Z.
Proof. intros H. rewrite <- (Qfloor_Z z). apply Qfloor_resp_le, H. Qed.

End binary64_facts.

Lemma random_okb_ok rnd : random_okb rnd = true → random_ok rnd.
Proof.
  unfold random_okb. intros [[H0 H1]%andb_prop H2]%andb_prop.
  split_and!.
  - by apply Qle_bool_iff.
  - apply Qnot_le_lt. intros H%Qle_bool_iff. by rewrite H in H1.
  - by apply Qeq_bool_iff.
Qed.

Ltac random_values := apply random_okb_ok; vm_compute; reflexivity.

Ltac events_ok :=
  repeat first
    [ apply Forall_nil_2
    | apply Forall_cons; split; [first [exact I | split; random_values]|] ].

(** [binary64] against the IEEE 754 specification of the standard library
    ([SFmul], [SFadd] and [SFdiv], at precision 53 and maximal exponent 1024),
    on the products, sums and quotients this program forms at some sample
    values of [Math.random()]: 0.2727272727272727, the largest number below
    1, and 0.10968. *)
Lemma binary64_agrees_with_IEEE :
  Forall (λ x : spec_float,
    let eleven := S754_finite false 11 0 in
    let e5 := S754_finite false 100000 0 in
    let f5 := S754_finite false 50000 0 in
    let k := S754_finite false 1000 0 in
    Qeq_bool (binary64 (SF2Q x)) (SF2Q x) = true ∧
    Qeq_bool (Number_mul (SF2Q x) 11) (SF2Q (SFmul 53 1024 x eleven)) = true ∧
    Qeq_bool (Number_add 50000 (Number_mul (SF2Q x) 100000))
             (SF2Q (SFadd 53 1024 f5 (SFmul 53 1024 x e5))) = true ∧
    Qeq_bool (Number_div (Number_add 50000 (Number_mul (SF2Q x) 100000)) 1000)
             (SF2Q (SFdiv 53 1024 (SFadd 53 1024 f5 (SFmul 53 1024 x e5)) k)) = true)
    [ S754_finite false 4913017775313268 (-54);
      S754_finite false 9007199254740991 (-53);
      S754_finite false 7903276914079936 (-56) ].
Proof. repeat constructor; vm_compute; reflexivity. Qed.

(** * Properties *)

(** ** One side of a turn *)

Section store.
Context (h : gmap string BattlePlayer) (p : string) (b : BattlePlayer).
Hypothesis Hp : h !! p = Some b.

Lemma alter_Some (f : BattlePlayer → BattlePlayer) : alter f p h = <[p := f b]> h.
Proof using Hp.
  rewrite <- (insert_id h p b Hp) at 1. by rewrite alter_insert_eq.
Qed.

Lemma baseDamage_Some rnd : baseDamage p rnd h = (base_of b rnd, <[p := charged b]> h).
Proof using Hp.
  unfold baseDamage, base_of, charged.
  rewrite (lookup_total_correct _ _ _ Hp).
  repeat case_decide; try by rewrite insert_id.
  by rewrite alter_Some.
Qed.

Lemma defenseReduction_Some damage : defenseReduction p damage h = reduced b damage.
Proof using Hp.
  unfold defenseReduction, reduced. by rewrite (lookup_total_correct _ _ _ Hp).
Qed.

Lemma applyDamage_Some damage : applyDamage p damage h = <[p := damaged damage b]> h.
Proof using Hp.
  unfold applyDamage, damaged. by rewrite (lookup_total_correct _ _ _ Hp), alter_Some.
Qed.

Lemma reduceCooldown_Some : reduceCooldown p h = <[p := cooled b]> h.
Proof using Hp.
  unfold reduceCooldown, cooled. rewrite (lookup_total_correct _ _ _ Hp).
  case_decide; [by rewrite alter_Some | by rewrite insert_id].
Qed.
End store.

Lemma action_charged b : action (charged b) = action b.
Proof. unfold charged. by repeat case_decide. Qed.
Lemma reduced_charged b d : reduced (charged b) d = reduced b d.
Proof. unfold reduced. by rewrite action_charged. Qed.
Lemma action_damaged d b : action (damaged d b) = action b.
Proof. done. Qed.
Lemma action_cooled b : action (cooled b) = action b.
Proof. unfold cooled. by case_decide. Qed.
Lemma hp_charged b : hp (charged b) = hp b.
Proof. unfold charged. by repeat case_decide. Qed.
Lemma hp_cooled b : hp (cooled b) = hp b.
Proof. unfold cooled. by case_decide. Qed.
Lemma hp_damaged d b : hp (damaged d b) = Z.max 0 (hp b - d).
Proof. done. Qed.
Lemma specialCooldown_damaged d b : specialCooldown (damaged d b) = specialCooldown b.
Proof. done. Qed.
Lemma bp_entry_charged b : bp_entry (charged b) = bp_entry b.
Proof. unfold charged. by repeat case_decide. Qed.
Lemma bp_entry_cooled b : bp_entry (cooled b) = bp_entry b.
Proof. unfold cooled. by case_decide. Qed.

(** [resolveTurn] on two distinct entries. *)
Lemma resolveTurn_distinct matchId m rnd1 rnd2 active p1Id p2Id b1 b2 :
  playerIds (battleState m) = (p1Id, p2Id) →
  p1Id ≠ p2Id →
  players (battleState m) !! p1Id = Some b1 →
  players (battleState m) !! p2Id = Some b2 →
  resolveTurn matchId m rnd1 rnd2 active =
    Some (concludeTurn matchId m active
            (<[p2Id := after2 b1 b2 rnd1]> (<[p1Id := after1 b1 b2 rnd2]>
               (players (battleState m))))
            (dealt1 b1 b2 rnd1) (dealt2 b1 b2 rnd2)).
Proof.
  intros Hids Hne H1 H2. unfold resolveTurn. rewrite Hids.
  rewrite decide_True by (rewrite H1, H2; eauto).
  rewrite (baseDamage_Some _ _ _ H1).
  erewrite baseDamage_Some by (rewrite lookup_insert_ne by done; exact H2).
  set (h2 := <[p2Id:=_]> _).
  assert (h2 !! p2Id = Some (charged b2)) as H22 by (subst h2; by rewrite lookup_insert_eq).
  assert (h2 !! p1Id = Some (charged b1)) as H21.
  { subst h2. rewrite lookup_insert_ne by done. by rewrite lookup_insert_eq. }
  rewrite (defenseReduction_Some _ _ _ H22), (defenseReduction_Some _ _ _ H21).
  rewrite (applyDamage_Some _ _ _ H21).
  erewrite applyDamage_Some
    by (rewrite lookup_insert_ne by done; exact H22).
  erewrite (reduceCooldown_Some _ p1Id)
    by (rewrite lookup_insert_ne by done; by rewrite lookup_insert_eq).
  erewrite (reduceCooldown_Some _ p2Id)
    by (rewrite lookup_insert_ne by done; by rewrite lookup_insert_eq).
  rewrite !reduced_charged. unfold after1, after2, dealt1, dealt2.
  do 2 f_equal. subst h2. apply map_eq. intros k.
  rewrite !lookup_insert. repeat case_decide; congruence.
Qed.

(** ** Arrays *)

Section arrays.
Context {A : Type} (f : A → bool).

Lemma findIndex_ge (l : list A) : -1 ≤ findIndex f l.
Proof.
  induction l as [|x l IH]; cbn [findIndex]; [lia|].
  destruct (f x); [lia|]. case_bool_decide; lia.
Qed.

Lemma findIndex_splice (l : list A) :
  (if decide (findIndex f l > -1) then splice1 (findIndex f l) l else l)
  = remove_first f l.
Proof.
  induction l as [|x l IH]; cbn [findIndex remove_first].
  - by case_decide.
  - destruct (f x) eqn:Hx; [done|].
    pose proof (findIndex_ge l) as Hge.
    case_bool_decide as Hi.
    + rewrite Hi in IH. rewrite decide_False in IH by lia.
      rewrite decide_False by lia. by rewrite <- IH.
    + rewrite decide_True in IH by lia. rewrite decide_True by lia.
      rewrite <- IH. unfold splice1.
      replace (Z.to_nat (findIndex f l + 1)) with (S (Z.to_nat (findIndex f l))) by lia.
      done.
Qed.

Lemma remove_first_sublist (l : list A) : remove_first f l `sublist_of` l.
Proof.
  induction l as [|x l IH]; simpl; [done|].
  destruct (f x); [by apply sublist_cons | by apply sublist_skip].
Qed.

Lemma remove_first_length (l : list A) : (length (remove_first f l) ≤ length l)%nat.
Proof. apply sublist_length, remove_first_sublist. Qed.

Lemma remove_first_none (l : list A) :
  Forall (λ x, f x = false) l → remove_first f l = l.
Proof. induction 1 as [|x l Hx _ IH]; simpl; [done|]. by rewrite Hx, IH. Qed.

Lemma find_Some (l : list A) x : find f l = Some x → x ∈ l ∧ f x = true.
Proof.
  induction l as [|y l IH]; simpl; [done|].
  destruct (f y) eqn:Hy.
  - intros [= <-]. split; [left | done].
  - intros H. destruct (IH H). split; [by right | done].
Qed.

Lemma find_None (l : list A) : find f l = None → Forall (λ x, f x = false) l.
Proof.
  induction l as [|y l IH]; simpl; [done|].
  destruct (f y) eqn:Hy; [done|]. intros H. constructor; auto.
Qed.
End arrays.

(** With distinct keys, taking out the first element with a key takes out
    every element with that key. *)
Lemma remove_first_filter {A K : Type} `{EqDecision K} (key : A → K) (k : K) (l : list A) :
  NoDup (key <$> l) →
  remove_first (λ x, bool_decide (key x = k)) l = filter (λ x, key x ≠ k) l.
Proof.
  induction l as [|x l IH]; simpl; [done|].
  intros [Hx Hl]%NoDup_cons. case_bool_decide as Hk.
  - rewrite filter_cons_False by (intros ?; done).
    clear IH Hl. induction l as [|y l IH]; [done|].
    apply not_elem_of_cons in Hx as [Hy Hx].
    rewrite filter_cons_True by congruence. by rewrite <- IH.
  - rewrite filter_cons_True by done. by rewrite IH.
Qed.

(** ** The registry *)

Section registry.
Context {V : Type}.
Implicit Types (m : list (string * V)) (k : string).

Lemma get_Some_elem m k v : JsMap.get k m = Some v → (k, v) ∈ m.
Proof.
  induction m as [|[k' v'] m IH]; simpl; [done|].
  case_decide as Hk.
  - intros [= <-]. subst. left.
  - intros H. right. auto.
Qed.

Lemma get_delete m k : JsMap.get k (JsMap.delete k m) = None.
Proof.
  induction m as [|[k' v'] m IH]; simpl; [done|].
  case_decide; [done|]. simpl. by rewrite decide_False.
Qed.

Lemma get_set m k v : JsMap.get k (JsMap.set k v m) = Some v.
Proof.
  induction m as [|[k' v'] m IH]; simpl.
  - by rewrite decide_True.
  - case_decide; simpl; [by rewrite decide_True | by rewrite decide_False].
Qed.

Lemma delete_sublist m k : JsMap.delete k m `sublist_of` m.
Proof.
  induction m as [|[k' v'] m IH]; simpl; [done|].
  case_decide; [by apply sublist_cons | by apply sublist_skip].
Qed.

Lemma Forall_delete (P : string * V → Prop) m k :
  Forall P m → Forall P (JsMap.delete k m).
Proof.
  induction 1 as [|[k' v'] m Hx _ IH]; simpl; [done|].
  case_decide; [done | by constructor].
Qed.

Lemma Forall_set (P : string * V → Prop) m k v :
  P (k, v) → Forall P m → Forall P (JsMap.set k v m).
Proof.
  intros Hv. induction 1 as [|[k' v'] m Hx Hm IH]; simpl.
  - by constructor.
  - case_decide; constructor; auto.
Qed.

Lemma elem_delete m k k' v : (k', v) ∈ JsMap.delete k m → k' ≠ k ∧ (k', v) ∈ m.
Proof.
  induction m as [|[k0 v0] m IH]; simpl; [by intros ?%elem_of_nil|].
  case_decide as Hk.
  - intros [? ?]%IH. split; [done | by right].
  - intros [[= -> ->]|H]%elem_of_cons; [split; [done | left]|].
    destruct (IH H). split; [done | by right].
Qed.
End registry.

(** ** Arithmetic of the damage formulas *)



Lemma roll_range (rnd : Q) : random_ok rnd → 0 ≤ Math_floor (Number_mul rnd 11) ≤ 10.
Proof.
  intros (Hlo & Hhi & Hfix). unfold Math_floor, Number_mul.
  pose proof (below_one rnd Hlo Hhi Hfix) as Hb.
  assert (0 <= rnd * 11)%Q as H0 by (apply Qmult_le_0_compat; [done | discriminate]).
  split.
  - change 0 with (Qfloor 0). apply Qfloor_resp_le. by apply binary64_nonneg.
  - assert (Qfloor (binary64 (rnd * 11)) < 11); [|lia]. apply floor_lt.
    apply Qle_lt_trans with (binary64 ((1 - Qpower 2 (-53)) * 11)).
    + apply binary64_mono; [exact H0|].
      apply Qmult_le_compat_r; [exact Hb | discriminate].
    + vm_compute. reflexivity.
Qed.

(** Half of an integer below [2^53] is a binary64 number: the product of line
    697 is exact. *)
Lemma half_exact (d : Z) :
  0 ≤ d < 2 ^ 53 → (Number_mul (inject_Z d) 0.5 == inject_Z d * 0.5)%Q.
Proof.
  intros Hd. unfold Number_mul.
  assert (inject_Z d * 0.5 == inject_Z d * Qpower 2 (-1))%Q as E
    by (apply Qmult_comp; [reflexivity | reflexivity]).
  assert (0 <= inject_Z d * 0.5)%Q as H0.
  { apply Qmult_le_0_compat; [|discriminate].
    change 0%Q with (inject_Z 0). rewrite <- Zle_Qle. lia. }
  rewrite (binary64_eq _ _ H0 E), E. apply binary64_dyadic; lia.
Qed.

Lemma half_floor (d : Z) : Math_floor (inject_Z d * 0.5)%Q = d `div` 2.
Proof.
  unfold Math_floor, Qfloor, Qmult, inject_Z. simpl Qnum. simpl Qden.
  change (Z.pos (1 * 10)) with (2 * 5). by rewrite Z.div_mul_cancel_r.
Qed.

(** ** Invariant of the server state *)

Lemma valid_action_ok a : valid_action a = true → action_ok (Some a).
Proof.
  unfold valid_action, action_ok. intros H%bool_decide_eq_true.
  repeat (apply elem_of_cons in H as [-> | H]); auto. by apply elem_of_nil in H.
Qed.

Lemma action_ok_truthy a : action_ok a → truthy a = false → a = None.
Proof. by intros [-> | [-> | [-> | ->]]]. Qed.

Lemma wf_player_new p : wf_player (newBattlePlayer p).
Proof. split; simpl; [lia | lia | by left | done]. Qed.

Lemma base_of_range b rnd : random_ok rnd → 0 ≤ base_of b rnd ≤ 30.
Proof.
  intros H%roll_range. unfold base_of. repeat case_decide; lia.
Qed.

Lemma reduced_range b d : 0 ≤ d ≤ 30 → 0 ≤ reduced b d ≤ 30.
Proof.
  intros Hd. unfold reduced. case_decide; [|done]. rewrite half_floor.
  split; [apply Z.div_pos; lia | apply Z.div_le_upper_bound; lia].
Qed.

Lemma specialCooldown_charged b :
  specialCooldown (charged b) =
    if decide (action b = Some "special" ∧ specialCooldown b = 0) then 2
    else specialCooldown b.
Proof.
  unfold charged. repeat case_decide; try done.
  exfalso. destruct_and!. congruence.
Qed.

Lemma specialCooldown_cooled b :
  specialCooldown (cooled b) =
    if decide (specialCooldown b > 0 ∧ action b ≠ Some "special")
    then specialCooldown b - 1 else specialCooldown b.
Proof. unfold cooled. by case_decide. Qed.

(** The cooldown of a side after a resolved turn. *)
Lemma cooldown_after b d :
  specialCooldown (cooled (damaged d (charged b))) =
    if decide (action b = Some "special") then
      if decide (specialCooldown b = 0) then 2 else specialCooldown b
    else if decide (specialCooldown b > 0) then specialCooldown b - 1
    else specialCooldown b.
Proof.
  rewrite specialCooldown_cooled, specialCooldown_damaged, action_damaged,
    action_charged, specialCooldown_charged.
  destruct (decide (action b = Some "special")) as [Ha|Ha],
    (decide (specialCooldown b = 0)) as [Hc|Hc];
    repeat (case_decide; destruct_and?; try lia; try tauto).
Qed.

Lemma hp_after b d : hp (cooled (damaged d (charged b))) = Z.max 0 (hp b - d).
Proof. by rewrite hp_cooled, hp_damaged, hp_charged. Qed.

Lemma action_after b d : action (cooled (damaged d (charged b))) = action b.
Proof. by rewrite action_cooled, action_damaged, action_charged. Qed.

Lemma wf_player_after b d :
  wf_player b → 0 ≤ d →
  wf_player (set_action None (cooled (damaged d (charged b)))).
Proof.
  intros [Hhp Hcd Ha Hs] Hd. split; simpl.
  - rewrite hp_after. lia.
  - rewrite cooldown_after. repeat case_decide; lia.
  - by left.
  - done.
Qed.

Lemma cooldown_after_range b d :
  wf_player b → 0 ≤ specialCooldown (cooled (damaged d (charged b))) ≤ 2.
Proof. intros [_ Hcd _ _]. rewrite cooldown_after. repeat case_decide; lia. Qed.

Lemma wf_player_record b a :
  wf_player b → valid_action a = true →
  ¬ (a = "special" ∧ specialCooldown b > 0) →
  wf_player (set_action (Some a) b).
Proof.
  intros [Hhp Hcd Ha Hs] Hv Hc. split; simpl; try done.
  - by apply valid_action_ok.
  - intros [= ->]. destruct (decide (specialCooldown b > 0)); [by destruct Hc | lia].
Qed.

(** *** Pairing *)

Lemma createBattleState_lookup pl1 pl2 :
  playerId pl1 ≠ playerId pl2 →
  players (createBattleState pl1 pl2) !! playerId pl1 = Some (newBattlePlayer pl1) ∧
  players (createBattleState pl1 pl2) !! playerId pl2 = Some (newBattlePlayer pl2).
Proof.
  intros Hne. simpl. split.
  - rewrite lookup_insert_ne by done. by rewrite lookup_insert_eq.
  - by rewrite lookup_insert_eq.
Qed.

Lemma wf_match_new uuid now pl1 pl2 :
  playerId pl1 ≠ playerId pl2 →
  wf_match (newMatch uuid now pl1 pl2).
Proof.
  intros Hne. destruct (createBattleState_lookup pl1 pl2 Hne) as [H1 H2].
  exists pl1, pl2, (newBattlePlayer pl1), (newBattlePlayer pl2).
  split_and!; auto using wf_player_new.
Qed.

Lemma tryMatchPlayers_inv uuid now st :
  Forall (λ km, wf_match km.2) (activeMatches st) →
  NoDup (playerId <$> waitingPlayers st) →
  (length (waitingPlayers st) ≤ 2)%nat →
  inv (tryMatchPlayers uuid now st).1.
Proof.
  intros Hm Hd Hl. unfold tryMatchPlayers.
  destruct (waitingPlayers st) as [|pl1 [|pl2 rest]] eqn:Hw; simpl.
  - split; rewrite ?Hw; simpl; [done | constructor | lia].
  - split; rewrite ?Hw; simpl; [done | done | lia].
  - assert (rest = []) as -> by (destruct rest; [done | simpl in Hl; lia]).
    split; simpl; [| constructor | lia].
    apply Forall_set; [|done]. simpl. apply wf_match_new.
    simpl in Hd. apply NoDup_cons in Hd as [Hd _]. set_solver.
Qed.

(** *** The queue *)

Lemma enqueue_eq socket playerData waiting :
  enqueue socket playerData waiting =
    remove_first (λ p, bool_decide (playerId p = pd_playerId playerData)) waiting
    ++ [ waitingEntry socket playerData ].
Proof. unfold enqueue. by rewrite findIndex_splice. Qed.

Lemma withdraw_eq socket waiting :
  withdraw socket waiting = remove_first (λ p, bool_decide (socketId p = socket)) waiting.
Proof. unfold withdraw. by rewrite findIndex_splice. Qed.

Lemma enqueue_NoDup socket playerData waiting :
  NoDup (playerId <$> waiting) →
  NoDup (playerId <$> enqueue socket playerData waiting).
Proof.
  intros Hd. rewrite enqueue_eq, remove_first_filter by done.
  rewrite fmap_app. apply NoDup_app. split; [|split].
  - eapply sublist_NoDup; [exact Hd | apply fmap_sublist, sublist_filter].
  - intros x (p & -> & [Hp _]%list_elem_of_filter)%list_elem_of_fmap.
    simpl. intros ?%list_elem_of_singleton. done.
  - simpl. apply NoDup_singleton.
Qed.

Lemma enqueue_length socket playerData waiting :
  (length (enqueue socket playerData waiting) ≤ S (length waiting))%nat.
Proof.
  rewrite enqueue_eq, length_app. simpl.
  pose proof (remove_first_length
    (λ p, bool_decide (playerId p = pd_playerId playerData)) waiting). lia.
Qed.

Lemma withdraw_NoDup socket waiting :
  NoDup (playerId <$> waiting) → NoDup (playerId <$> withdraw socket waiting).
Proof.
  intros Hd. rewrite withdraw_eq.
  eapply sublist_NoDup; [exact Hd | apply fmap_sublist, remove_first_sublist].
Qed.

Lemma withdraw_length socket waiting :
  (length (withdraw socket waiting) ≤ length waiting)%nat.
Proof. rewrite withdraw_eq. apply remove_first_length. Qed.

(** *** Disconnecting *)

Lemma forfeit_all_Forall (P : string * Match → Prop) socket entries active :
  Forall P active → Forall P (forfeit_all socket entries active).1.
Proof.
  revert active. induction entries as [|[matchId m] entries IH]; intros active Ha; simpl.
  - done.
  - destruct (some _ _).
    + specialize (IH (JsMap.delete matchId active) (Forall_delete _ _ _ Ha)).
      by destruct (forfeit_all socket entries _).
    + by apply IH.
Qed.

(** *** Submitting an action *)

Lemma submit_action_inv socket matchId action_ rnd1 rnd2 st st' out res :
  submit_action socket matchId action_ rnd1 rnd2 st = Some (st', out, res) →
  (st' = st ∧ res = None ∧
   (out = [] ∨ out = [Emit socket (pvp_action_error "Special is on cooldown!")]))
  ∨ ∃ m player bp,
      accepted socket matchId action_ st m player bp ∧
      ((allSubmitted (battleState (recordAction player action_ m)) = Some false ∧
        st' = {| waitingPlayers := waitingPlayers st;
                 activeMatches :=
                   JsMap.set matchId (recordAction player action_ m) (activeMatches st) |} ∧
        out = ready_notice socket m ∧ res = None)
       ∨
       (allSubmitted (battleState (recordAction player action_ m)) = Some true ∧
        ∃ r, let m2 := set_battleState
                         (set_status resolving
                            (battleState (recordAction player action_ m)))
                         (recordAction player action_ m) in
          resolveTurn matchId m2 rnd1 rnd2 (activeMatches st) = Some r ∧
          st' = {| waitingPlayers := waitingPlayers st;
                   activeMatches := r_activeMatches r |} ∧
          out = ready_notice socket m ++ r_effects r ∧
          res = Some (m2, r))).
Proof.
  unfold submit_action.
  destruct (JsMap.get matchId (activeMatches st)) as [m|] eqn:Hget;
    [|intros [= <- <- <-]; left; auto].
  case_decide as Hst; [intros [= <- <- <-]; left; auto|].
  destruct (find _ (match_players m)) as [player|] eqn:Hfind;
    [|intros [= <- <- <-]; left; auto].
  destruct (players (battleState m) !! playerId player) as [bp|] eqn:Hbp;
    [|intros [= <- <- <-]; left; auto].
  destruct (truthy (action bp)) eqn:Htr; [intros [= <- <- <-]; left; auto|].
  destruct (valid_action action_) eqn:Hv; simpl; [|intros [= <- <- <-]; left; auto].
  case_decide as Hcd; [intros [= <- <- <-]; left; auto|].
  intros H. right. exists m, player, bp. split.
  { unfold accepted. split_and!; auto; by destruct (status (battleState m)). }
  destruct (allSubmitted _) as [[]|] eqn:Hall; simpl in H; [| |done].
  - right. split; [done|].
    destruct (resolveTurn _ _ _ _ _) as [r|] eqn:Hr; simpl in H; [|done].
    injection H as <- <- <-. exists r. auto.
  - left. injection H as <- <- <-. auto.
Qed.

Lemma accepted_pending socket matchId action_ st m player bp :
  wf_match m → accepted socket matchId action_ st m player bp → action bp = None.
Proof.
  intros (pl1 & pl2 & b1 & b2 & Hpl & Hne & Hids & H1 & H2 & Hw1 & Hw2 & Hst)
    (Hget & _ & Hfind & Hbp & Htr & _).
  apply find_Some in Hfind as [Hin _]. rewrite Hpl in Hin.
  apply action_ok_truthy; [|done].
  apply elem_of_cons in Hin as [-> | Hin]; [|apply list_elem_of_singleton in Hin as ->].
  - rewrite H1 in Hbp. injection Hbp as <-. apply Hw1.
  - rewrite H2 in Hbp. injection Hbp as <-. apply Hw2.
Qed.

Lemma wf_match_record socket matchId action_ st m player bp :
  wf_match m → accepted socket matchId action_ st m player bp →
  wf_match (recordAction player action_ m).
Proof.
  intros (pl1 & pl2 & b1 & b2 & Hpl & Hne & Hids & H1 & H2 & Hw1 & Hw2 & Hst)
    (Hget & _ & Hfind & Hbp & Htr & Hv & Hcd).
  apply find_Some in Hfind as [Hin _]. rewrite Hpl in Hin.
  apply elem_of_cons in Hin as [-> | Hin]; [|apply list_elem_of_singleton in Hin as ->].
  - rewrite H1 in Hbp. injection Hbp as <-.
    exists pl1, pl2, (set_action (Some action_) b1), b2. simpl.
    split_and!; auto using wf_player_record.
    + by rewrite lookup_alter_eq, H1.
    + by rewrite lookup_alter_ne.
  - rewrite H2 in Hbp. injection Hbp as <-.
    exists pl1, pl2, b1, (set_action (Some action_) b2). simpl.
    split_and!; auto using wf_player_record.
    + by rewrite lookup_alter_ne.
    + by rewrite lookup_alter_eq, H2.
Qed.

(** *** Resolving a turn *)

Lemma resolving_match_intro m :
  wf_match m → allSubmitted (battleState m) = Some true →
  resolving_match (set_battleState (set_status resolving (battleState m)) m).
Proof.
  intros (pl1 & pl2 & b1 & b2 & Hpl & Hne & Hids & H1 & H2 & Hw1 & Hw2 & Hst) Hall.
  unfold allSubmitted in Hall. rewrite Hids, H1 in Hall. simpl in Hall.
  case_decide as Ha1; [|done]. rewrite H2 in Hall. simpl in Hall.
  injection Hall as Ha2%bool_decide_eq_true.
  exists pl1, pl2. unfold combatant. simpl.
  rewrite (lookup_total_correct _ _ _ H1), (lookup_total_correct _ _ _ H2).
  split_and!; eauto.
Qed.

Lemma resolveTurn_resolving matchId m rnd1 rnd2 active :
  resolving_match m →
  resolveTurn matchId m rnd1 rnd2 active =
    Some (concludeTurn matchId m active (store_after m rnd1 rnd2)
            (dealt1 (combatant m (first_id m)) (combatant m (second_id m)) rnd1)
            (dealt2 (combatant m (first_id m)) (combatant m (second_id m)) rnd2)).
Proof.
  intros (pl1 & pl2 & Hpl & Hids & Hne & [b1 H1] & [b2 H2] & _).
  unfold store_after, first_id, second_id, combatant. rewrite Hids. simpl.
  rewrite (lookup_total_correct _ _ _ H1), (lookup_total_correct _ _ _ H2).
  by apply resolveTurn_distinct.
Qed.

Lemma dealt1_range b1 b2 rnd : random_ok rnd → 0 ≤ dealt1 b1 b2 rnd ≤ 30.
Proof. intros. by apply reduced_range, base_of_range. Qed.
Lemma dealt2_range b1 b2 rnd : random_ok rnd → 0 ≤ dealt2 b1 b2 rnd ≤ 30.
Proof. intros. by apply reduced_range, base_of_range. Qed.

(** When no winner is found the mutated match is well-formed again. *)
Lemma concludeTurn_continue matchId m rnd1 rnd2 active d1 d2 :
  resolving_match m → random_ok rnd1 → random_ok rnd2 →
  truthy (checkWinner (first_id m) (second_id m) (store_after m rnd1 rnd2)) = false →
  let r := concludeTurn matchId m active (store_after m rnd1 rnd2) d1 d2 in
  wf_match (r_match r) ∧
  r_activeMatches r = JsMap.set matchId (r_match r) active.
Proof.
  intros (pl1 & pl2 & Hpl & Hids & Hne & [b1 H1] & [b2 H2] & Hw1 & Hw2 & _) Hr1 Hr2.
  unfold concludeTurn, store_after, first_id, second_id. rewrite Hids. simpl.
  intros ->. simpl. split; [|done].
  eexists pl1, pl2, _, _. simpl. split_and!; auto.
  - rewrite lookup_alter_ne, lookup_alter_eq, lookup_insert_ne, lookup_insert_eq
      by congruence. reflexivity.
  - rewrite lookup_alter_eq, lookup_alter_ne, lookup_insert_eq by congruence.
    reflexivity.
  - apply wf_player_after; [done | by apply dealt2_range].
  - apply wf_player_after; [done | by apply dealt1_range].
Qed.

Lemma concludeTurn_finished matchId m active h d1 d2 :
  truthy (checkWinner (first_id m) (second_id m) h) = true →
  let r := concludeTurn matchId m active h d1 d2 in
  r_match r = set_battleState (set_status finished (set_players h (battleState m))) m ∧
  r_activeMatches r = JsMap.delete matchId active.
Proof.
  unfold concludeTurn, first_id, second_id.
  destruct (playerIds (battleState m)) as [p1Id p2Id]. simpl. by intros ->.
Qed.

(** *** The invariant holds in every reachable state *)

Lemma submit_action_inv_state socket matchId action_ rnd1 rnd2 st st' out res :
  inv st → random_ok rnd1 → random_ok rnd2 →
  submit_action socket matchId action_ rnd1 rnd2 st = Some (st', out, res) →
  inv st'.
Proof.
  intros [Hm Hd Hl] Hr1 Hr2 H.
  apply submit_action_inv in H
    as [(-> & _)|(m & player & bp & Hacc & [(Hall & -> & _)|(Hall & r & Hr & -> & _)])];
    [done|..].
  all: assert (wf_match m) as Hwf
    by (destruct Hacc as [Hget%get_Some_elem _];
        by apply (proj1 (Forall_forall _ _) Hm (matchId, m))).
  all: pose proof (wf_match_record _ _ _ _ _ _ _ Hwf Hacc) as Hwf'.
  - split; simpl; [|done..]. by apply Forall_set.
  - split; simpl; [|done..].
    pose proof (resolving_match_intro _ Hwf' Hall) as Hres.
    simpl in Hr. rewrite (resolveTurn_resolving _ _ _ _ _ Hres) in Hr.
    injection Hr as <-.
    match goal with |- context [concludeTurn _ ?m2 _ _ _ _] => set (m2' := m2) in * end.
    destruct (truthy (checkWinner (first_id m2') (second_id m2')
                        (store_after m2' rnd1 rnd2))) eqn:Hw.
    + edestruct (concludeTurn_finished matchId m2' (activeMatches st)) as [_ ->];
        [exact Hw|]. by apply Forall_delete.
    + edestruct (concludeTurn_continue matchId m2' rnd1 rnd2 (activeMatches st))
        as [Hwf2 ->]; [done..|]. by apply Forall_set.
Qed.

Lemma handle_inv e st st' out :
  inv st → event_ok e → handle e st = Some (st', out) → inv st'.
Proof.
  intros Hinv Hok. destruct e as [socket pd uuid now|socket|socket|socket matchId a rnd1 rnd2|socket|socket];
    simpl; try done.
  - intros [= H]. destruct Hinv as [Hm Hd Hl]. unfold on_queue in H.
    match type of H with context [tryMatchPlayers ?u ?n ?s] =>
      pose proof (tryMatchPlayers_inv u n s) as Ht;
      destruct (tryMatchPlayers u n s) as [st1 found] end.
    injection H as <- _.
    simpl in *. apply Ht; [done | by apply enqueue_NoDup|].
    pose proof (enqueue_length socket pd (waitingPlayers st)). lia.
  - intros [= <- _]. destruct Hinv as [Hm Hd Hl]. split; simpl.
    + done.
    + by apply withdraw_NoDup.
    + pose proof (withdraw_length socket (waitingPlayers st)). lia.
  - unfold on_submit_action.
    destruct (submit_action _ _ _ _ _ _) as [[[st1 out1] res]|] eqn:H; [|done].
    simpl. intros [= <- _]. destruct Hok as [Hr1 Hr2].
    exact (submit_action_inv_state _ _ _ _ _ _ _ _ _ Hinv Hr1 Hr2 H).
  - intros [= H]. destruct Hinv as [Hm Hd Hl]. unfold on_disconnect in H.
    pose proof (forfeit_all_Forall (λ km, wf_match km.2) socket
                  (activeMatches st) (activeMatches st) Hm) as Hf.
    destruct (forfeit_all _ _ _) as [active notices]. injection H as <- _.
    split; simpl.
    + done.
    + by apply withdraw_NoDup.
    + pose proof (withdraw_length socket (waitingPlayers st)). lia.
Qed.

Theorem reachable_inv st : reachable st → inv st.
Proof.
  induction 1 as [|st e st' out _ IH Hok Hstep].
  - split; simpl; [constructor | constructor | lia].
  - by eapply handle_inv.
Qed.

(** *** Runs *)

Lemma run_reachable es st st' out :
  reachable st → Forall event_ok es → run es st = Some (st', out) → reachable st'.
Proof.
  intros Hst Hes. revert st out Hst.
  induction Hes as [|e es He _ IH]; intros st out Hst; simpl.
  - by intros [= <- _].
  - destruct (handle e st) as [[st1 out1]|] eqn:Hh; [|done]. simpl.
    destruct (run es st1) as [[st2 out2]|] eqn:Hrun; [|done]. simpl.
    intros [= <- _]. eapply IH; [|exact Hrun]. by eapply reachable_step.
Qed.

(** *** What a call of [resolveTurn] from the handler looks like *)

Lemma submit_action_resolves socket matchId action_ rnd1 rnd2 st st' out m2 r :
  inv st →
  submit_action socket matchId action_ rnd1 rnd2 st = Some (st', out, Some (m2, r)) →
  resolving_match m2 ∧
  r = concludeTurn matchId m2 (activeMatches st) (store_after m2 rnd1 rnd2)
        (dealt1 (combatant m2 (first_id m2)) (combatant m2 (second_id m2)) rnd1)
        (dealt2 (combatant m2 (first_id m2)) (combatant m2 (second_id m2)) rnd2) ∧
  st' = {| waitingPlayers := waitingPlayers st; activeMatches := r_activeMatches r |} ∧
  ∃ m0, JsMap.get matchId (activeMatches st) = Some m0 ∧
        out = ready_notice socket m0 ++ r_effects r.
Proof.
  intros [Hm _ _] H.
  apply submit_action_inv in H
    as [(_ & [=] & _)|(m & player & bp & Hacc &
         [(_ & _ & _ & [=])|(Hall & r' & Hr & -> & -> & Heq)])].
  cbv zeta in Hr, Heq. injection Heq as Hm2 Hr'. subst m2 r'.
  assert (wf_match m) as Hwf
    by (destruct Hacc as [Hget%get_Some_elem _];
        by apply (proj1 (Forall_forall _ _) Hm (matchId, m))).
  pose proof (wf_match_record _ _ _ _ _ _ _ Hwf Hacc) as Hwf'.
  pose proof (resolving_match_intro _ Hwf' Hall) as Hres.
  simpl in Hr. rewrite (resolveTurn_resolving _ _ _ _ _ Hres) in Hr.
  injection Hr as <-. split_and!; auto. exists m. split; [apply Hacc | done].
Qed.

Section turn.
Context (m : Match) (rnd1 rnd2 : Q).
Hypothesis Hres : resolving_match m.

Let p1Id := first_id m.
Let p2Id := second_id m.
Let b1 := combatant m p1Id.
Let b2 := combatant m p2Id.

Lemma resolving_ids_distinct : p1Id ≠ p2Id.
Proof using Hres.
  destruct Hres as (pl1 & pl2 & _ & Hids & Hne & _).
  subst p1Id p2Id. unfold first_id, second_id. by rewrite Hids.
Qed.

Lemma store_after_first : store_after m rnd1 rnd2 !!! p1Id = after1 b1 b2 rnd2.
Proof using Hres.
  pose proof resolving_ids_distinct. unfold store_after.
  rewrite lookup_total_insert_ne by done. by rewrite lookup_total_insert_eq.
Qed.

Lemma store_after_second : store_after m rnd1 rnd2 !!! p2Id = after2 b1 b2 rnd1.
Proof using Hres. unfold store_after. by rewrite lookup_total_insert_eq. Qed.

Lemma resolving_wf_first : wf_player b1.
Proof using Hres.
  destruct Hres as (pl1 & pl2 & _ & Hids & _ & _ & _ & Hw1 & _).
  subst b1 p1Id. unfold first_id. by rewrite Hids.
Qed.

Lemma resolving_wf_second : wf_player b2.
Proof using Hres.
  destruct Hres as (pl1 & pl2 & _ & Hids & _ & _ & _ & _ & Hw2 & _).
  subst b2 p2Id. unfold second_id. by rewrite Hids.
Qed.

Lemma resolving_players : ∃ pl1 pl2,
  match_players m = [pl1; pl2] ∧ playerId pl1 = p1Id ∧ playerId pl2 = p2Id.
Proof using Hres.
  destruct Hres as (pl1 & pl2 & Hpl & Hids & _). exists pl1, pl2.
  subst p1Id p2Id. unfold first_id, second_id. by rewrite Hids.
Qed.

Lemma resolving_actions : action b1 ≠ None ∧ action b2 ≠ None.
Proof using Hres.
  destruct Hres as (pl1 & pl2 & _ & Hids & _ & _ & _ & _ & _ & Ha1 & Ha2 & _).
  subst b1 b2 p1Id p2Id. unfold first_id, second_id. by rewrite Hids.
Qed.

(** The hit points compared by lines 731-737 are the clamped ones. *)
Lemma checkWinner_cases :
  let w := checkWinner p1Id p2Id (store_after m rnd1 rnd2) in
  w = None ∨ w = Some p1Id ∨ w = Some p2Id.
Proof. unfold checkWinner. simpl. repeat case_decide; auto. Qed.

Lemma checkWinner_after :
  checkWinner p1Id p2Id (store_after m rnd1 rnd2) =
    let hp1 := Z.max 0 (hp b1 - dealt2 b1 b2 rnd2) in
    let hp2 := Z.max 0 (hp b2 - dealt1 b1 b2 rnd1) in
    if decide (hp1 <= 0 ∧ hp2 <= 0) then
      Some (if decide (hp1 > hp2) then p1Id else p2Id)
    else if decide (hp1 <= 0) then Some p2Id
    else if decide (hp2 <= 0) then Some p1Id
    else None.
Proof using Hres.
  unfold checkWinner. rewrite store_after_first, store_after_second.
  unfold after1, after2. by rewrite !hp_after.
Qed.
End turn.

(** *** The end of a turn *)

Section conclude.
Context (matchId : string) (m : Match) (active : list (string * Match))
        (h : gmap string BattlePlayer) (d1 d2 : Z).

Let r := concludeTurn matchId m active h d1 d2.

Lemma concludeTurn_winner : r_winner r = checkWinner (first_id m) (second_id m) h.
Proof.
  subst r. unfold concludeTurn, first_id, second_id.
  destruct (playerIds (battleState m)). simpl.
  destruct (truthy (checkWinner _ _ _)) eqn:Hw; simpl; by rewrite ?Hw.
Qed.

Lemma concludeTurn_damage : r_damage r = (d1, d2).
Proof.
  subst r. unfold concludeTurn.
  destruct (playerIds (battleState m)). simpl.
  destruct (truthy (checkWinner _ _ _)) eqn:Hw; simpl; by rewrite ?Hw.
Qed.

Lemma concludeTurn_status :
  status (battleState (r_match r)) =
    if truthy (r_winner r) then finished else waiting_actions.
Proof.
  subst r. unfold concludeTurn.
  destruct (playerIds (battleState m)). simpl.
  destruct (truthy (checkWinner _ _ _)) eqn:Hw; simpl; by rewrite ?Hw.
Qed.

Lemma concludeTurn_match_players : match_players (r_match r) = match_players m.
Proof.
  subst r. unfold concludeTurn.
  destruct (playerIds (battleState m)). simpl.
  destruct (truthy (checkWinner _ _ _)) eqn:Hw; simpl; by rewrite ?Hw.
Qed.

Lemma concludeTurn_playerIds :
  playerIds (battleState (r_match r)) = playerIds (battleState m).
Proof.
  subst r. unfold concludeTurn.
  destruct (playerIds (battleState m)) eqn:Hids. simpl.
  destruct (truthy (checkWinner _ _ _)) eqn:Hw; simpl; by rewrite ?Hw.
Qed.

Lemma concludeTurn_players :
  players (battleState (r_match r)) =
    if truthy (r_winner r) then h
    else alter (set_action None) (second_id m)
           (alter (set_action None) (first_id m) h).
Proof.
  subst r. unfold concludeTurn, first_id, second_id.
  destruct (playerIds (battleState m)). simpl.
  destruct (truthy (checkWinner _ _ _)) eqn:Hw; simpl; by rewrite ?Hw.
Qed.

Lemma concludeTurn_activeMatches :
  r_activeMatches r =
    if truthy (r_winner r) then JsMap.delete matchId active
    else JsMap.set matchId (r_match r) active.
Proof.
  subst r. unfold concludeTurn.
  destruct (playerIds (battleState m)). simpl.
  destruct (truthy (checkWinner _ _ _)) eqn:Hw; simpl; by rewrite ?Hw.
Qed.

Lemma concludeTurn_turn :
  turn (battleState (r_match r)) =
    if truthy (r_winner r) then turn (battleState m) else turn (battleState m) + 1.
Proof.
  subst r. unfold concludeTurn.
  destruct (playerIds (battleState m)). simpl.
  destruct (truthy (checkWinner _ _ _)) eqn:Hw; simpl; by rewrite ?Hw.
Qed.

Lemma concludeTurn_no_query : Forall (λ e, is_Query e = false) (r_effects r).
Proof.
  subst r. unfold concludeTurn.
  destruct (playerIds (battleState m)). simpl.
  destruct (truthy (checkWinner _ _ _)); simpl; rewrite ?Forall_app, !Forall_fmap;
    repeat split; by apply Forall_true.
Qed.
End conclude.

Lemma ready_notice_no_query socket m : Forall (λ e, is_Query e = false) (ready_notice socket m).
Proof. unfold ready_notice. destruct (find _ _); by repeat constructor. Qed.

(** ** Sample sessions *)

Lemma state_after_reachable es :
  Forall event_ok es → is_Some (run es initial) → reachable (state_after es).
Proof.
  intros Hok [[st out] Hrun]. unfold state_after. rewrite Hrun.
  eapply run_reachable; [apply reachable_initial | exact Hok | exact Hrun].
Qed.

Lemma tie_events_ok : Forall event_ok tie_events.
Proof. unfold tie_events, paired, play. simpl. events_ok. Qed.

Lemma tie_events_run : is_Some (run tie_events initial).
Proof. vm_compute. eauto. Qed.

(** ** The claims *)

(** C1.  When the damage of one turn takes both sides to zero or below, line
    732 compares the hit points after they were clamped at zero by lines
    701-702, so the comparison never holds and the second player of the match
    is the winner, whatever the two values were before clamping.  The claim
    asks for the side with the higher post-damage value, which the code does
    not deliver (see [C1_minus5_minus15]). *)
Theorem C1_both_down_second_wins socket matchId action_ rnd1 rnd2 st st' out m r :
  reachable st →
  submit_action socket matchId action_ rnd1 rnd2 st = Some (st', out, Some (m, r)) →
  hp (combatant m (first_id m)) - (r_damage r).2 ≤ 0 →
  hp (combatant m (second_id m)) - (r_damage r).1 ≤ 0 →
  r_winner r = Some (second_id m).
Proof.
  intros Hst%reachable_inv H Hp1 Hp2.
  destruct (submit_action_resolves _ _ _ _ _ _ _ _ _ _ Hst H) as (Hres & -> & _).
  unfold concludeTurn in *. unfold first_id, second_id in *.
  destruct (playerIds (battleState m)) as [p1Id p2Id] eqn:Hids. simpl in *.
  assert (checkWinner p1Id p2Id (store_after m rnd1 rnd2) = Some p2Id) as Hw.
  { pose proof (checkWinner_after m rnd1 rnd2 Hres) as Hc.
    unfold first_id, second_id in Hc. rewrite Hids in Hc. simpl in Hc. rewrite Hc.
    destruct (truthy _); simpl in Hp1, Hp2;
      rewrite decide_True by lia; by rewrite decide_False by lia. }
  rewrite Hw. by destruct (truthy (Some p2Id)).
Qed.

(** C1, at the input of the scenario: A is at 25 and B at 15, both use the
    special; the post-damage values are -5 and -15 and B is declared winner. *)
Lemma C1_minus5_minus15 :
  match submit_action "sb" "m1" "special" 0 0 (state_after tie_events) with
  | Some (_, out, Some (m, r)) =>
      first_id m = "A" ∧ second_id m = "B" ∧
      hp (combatant m "A") - (r_damage r).2 = -5 ∧
      hp (combatant m "B") - (r_damage r).1 = -15 ∧
      r_winner r = Some "B" ∧
      Emit "sa" (pvp_battle_end "B" false (-10)) ∈ out
  | _ => False
  end.
Proof.
  assert ((λ c, match c with
                | Some (_, out, Some (m, r)) =>
                    Some (first_id m, second_id m,
                          hp (combatant m "A") - (r_damage r).2,
                          hp (combatant m "B") - (r_damage r).1, out !! 3%nat)
                | _ => None
                end)
            (submit_action "sb" "m1" "special" 0 0 (state_after tie_events))
          = Some ("A", "B", -5, -15, Some (Emit "sa" (pvp_battle_end "B" false (-10)))))
    as Hobs by (vm_compute; reflexivity).
  destruct (submit_action "sb" "m1" "special" 0 0 (state_after tie_events))
    as [[[st' out] [[m r]|]]|] eqn:H.
  2-3: exact (eq_ind None (λ o, if o is None then True else False) I _ Hobs).
  injection Hobs as H1 H2 H3 H4 H5.
  pose proof (C1_both_down_second_wins "sb" "m1" "special" 0 0 _ st' out m r
                (state_after_reachable _ tie_events_ok tie_events_run) H) as Hthm.
  clear H.
  rewrite H1, H2, H3, H4 in Hthm.
  split; [exact H1|]. split; [exact H2|]. split; [exact H3|]. split; [exact H4|].
  split.
  - apply Hthm; lia.
  - eapply list_elem_of_lookup_2. exact H5.
Defined.

Lemma on_queue_empty socket pd uuid now active :
  on_queue socket pd uuid now {| waitingPlayers := []; activeMatches := active |}
  = ({| waitingPlayers := [waitingEntry socket pd]; activeMatches := active |},
     [Emit socket (pvp_queued 1)]).
Proof. done. Qed.

Lemma on_queue_second socket pd uuid now e active :
  playerId e ≠ pd_playerId pd →
  on_queue socket pd uuid now {| waitingPlayers := [e]; activeMatches := active |}
  = ({| waitingPlayers := [];
        activeMatches := JsMap.set uuid (newMatch uuid now e (waitingEntry socket pd)) active |},
     Emit socket (pvp_queued 2) :: found uuid e (waitingEntry socket pd)).
Proof.
  intros Hne. unfold on_queue. rewrite enqueue_eq. simpl.
  by rewrite bool_decide_eq_false_2.
Qed.

Lemma TryPairAll_spec waiting :
  (length (TryPairAll waiting).2 < 2)%nat ∧
  waiting = paired_entries (TryPairAll waiting).1 ++ (TryPairAll waiting).2.
Proof.
  assert (∀ n waiting, (length waiting < n)%nat →
            (length (TryPairAll waiting).2 < 2)%nat ∧
            waiting = paired_entries (TryPairAll waiting).1 ++ (TryPairAll waiting).2)
    as H; [|apply (H (S (length waiting))); lia].
  clear waiting. induction n as [|n IH]; intros waiting Hn; [lia|].
  destruct waiting as [|p1 [|p2 rest]]; simpl in *; [split; [lia | done]..|].
  destruct (IH rest ltac:(lia)) as [H1 H2].
  destruct (TryPairAll rest) as [pairs remaining]. simpl in *. split; [done|].
  by rewrite H2 at 1.
Qed.

(** C2.  [tryMatchPlayers] itself has no loop: one call takes the two entries
    at the front of the queue, registers their match and notifies both, or
    does nothing when fewer than two wait.  The program calls it in one place
    only, at the end of the [pvp:queue] handler, and there it does what
    [TryPairAll] does: since the queue of a reachable state holds at most one
    entry, the queue at the call holds at most two, [TryPairAll] forms at most
    one pair, and the call forms exactly the pairs [TryPairAll] forms, from
    the front, and leaves what [TryPairAll] leaves: fewer than two entries.
    Four players joining an empty queue in the order A, B, C, D are paired
    (A,B), then (C,D). *)
Theorem C2_pairs_front_in_order :
  (∀ waiting,
     (length (TryPairAll waiting).2 < 2)%nat ∧
     waiting = paired_entries (TryPairAll waiting).1 ++ (TryPairAll waiting).2) ∧
  (∀ st socket pd uuid now,
     reachable st →
     let waiting := enqueue socket pd (waitingPlayers st) in
     let call := tryMatchPlayers uuid now
                   {| waitingPlayers := waiting; activeMatches := activeMatches st |} in
     on_queue socket pd uuid now st
       = (call.1, Emit socket (pvp_queued (Z.of_nat (length waiting))) :: call.2) ∧
     waitingPlayers call.1 = (TryPairAll waiting).2 ∧
     (length (waitingPlayers call.1) < 2)%nat ∧
     match (TryPairAll waiting).1 with
     | [] => activeMatches call.1 = activeMatches st ∧ call.2 = []
     | [(player1, player2)] =>
         activeMatches call.1
           = JsMap.set uuid (newMatch uuid now player1 player2) (activeMatches st) ∧
         call.2 = found uuid player1 player2
     | _ => False
     end) ∧
  (∀ uuid now player1 player2 rest active,
     tryMatchPlayers uuid now
       {| waitingPlayers := player1 :: player2 :: rest; activeMatches := active |}
     = ({| waitingPlayers := rest;
           activeMatches := JsMap.set uuid (newMatch uuid now player1 player2) active |},
        found uuid player1 player2)) ∧
  (∀ uuid now st,
     (length (waitingPlayers st) < 2)%nat → tryMatchPlayers uuid now st = (st, [])) ∧
  (∀ st sa sb sc sd a b c d ua ub uc ud now,
     reachable st → waitingPlayers st = [] →
     pd_playerId a ≠ pd_playerId b → pd_playerId c ≠ pd_playerId d →
     run [ pvp_queue sa a ua now; pvp_queue sb b ub now;
           pvp_queue sc c uc now; pvp_queue sd d ud now ] st
     = Some ({| waitingPlayers := [];
                activeMatches :=
                  JsMap.set ud (newMatch ud now (waitingEntry sc c) (waitingEntry sd d))
                    (JsMap.set ub (newMatch ub now (waitingEntry sa a) (waitingEntry sb b))
                       (activeMatches st)) |},
             [Emit sa (pvp_queued 1); Emit sb (pvp_queued 2)]
             ++ found ub (waitingEntry sa a) (waitingEntry sb b)
             ++ [Emit sc (pvp_queued 1); Emit sd (pvp_queued 2)]
             ++ found ud (waitingEntry sc c) (waitingEntry sd d))).
Proof.
  split_and!.
  - apply TryPairAll_spec.
  - intros st socket pd uuid now Hst waiting call.
    pose proof (inv_short _ (reachable_inv _ Hst)) as Hl.
    pose proof (enqueue_length socket pd (waitingPlayers st)) as Hl'.
    fold waiting in Hl'.
    assert (on_queue socket pd uuid now st
            = (call.1, Emit socket (pvp_queued (Z.of_nat (length waiting))) :: call.2))
      as Hq.
    { unfold on_queue. fold waiting. fold call. by destruct call. }
    split; [exact Hq|]. subst call. clear Hq. unfold tryMatchPlayers.
    cbn [waitingPlayers activeMatches].
    destruct waiting as [|p1 [|p2 [|p3 rest]]]; simpl in *; try lia.
    + split_and!; [done | lia | done | done].
    + split_and!; [done | lia | done | done].
    + split_and!; [done | lia | done | done].
  - done.
  - intros uuid now st Hl. unfold tryMatchPlayers.
    destruct (waitingPlayers st) as [|p1 [|p2 rest]]; simpl in *; [done | done | lia].
  - intros st sa sb sc sd a b c d ua ub uc ud now _ Hw Hab Hcd.
    destruct st as [waiting active]. simpl in Hw. subst waiting.
    cbn [run handle mbind option_bind].
    rewrite on_queue_empty. cbn [run handle mbind option_bind].
    rewrite on_queue_second by done. cbn [run handle mbind option_bind].
    rewrite on_queue_empty. cbn [run handle mbind option_bind].
    rewrite on_queue_second by done. done.
Qed.

Lemma alice_bob_ids : pd_playerId alice ≠ pd_playerId bob.
Proof. intros [=]. Qed.

(** C2 on a sample: bob joins while alice waits, and A, B, C and D are alice
    and bob joining twice. *)
Lemma C2_pairs_front_in_order_sample :
  (TryPairAll (enqueue "sb" bob (waitingPlayers (state_after [pvp_queue "sa" alice "m0" 0])))).1
    = [(waitingEntry "sa" alice, waitingEntry "sb" bob)] ∧
  waitingPlayers (on_queue "sb" bob "m1" 0 (state_after [pvp_queue "sa" alice "m0" 0])).1
    = [] ∧
  is_Some (run [ pvp_queue "sa" alice "m0" 0; pvp_queue "sb" bob "m1" 0;
                 pvp_queue "sa" alice "m2" 0; pvp_queue "sb" bob "m3" 0 ] initial).
Proof.
  destruct C2_pairs_front_in_order as (_ & H2 & _ & _ & H5).
  assert (reachable (state_after [pvp_queue "sa" alice "m0" 0])) as Hr
    by (apply state_after_reachable; [by repeat constructor | by eexists]).
  destruct (H2 _ "sb" bob "m1" 0 Hr) as (Hq & Hw & _).
  split; [reflexivity|]. split.
  - rewrite Hq. cbn [fst]. rewrite Hw. reflexivity.
  - rewrite (H5 initial "sa" "sb" "sa" "sb" alice bob alice bob "m0" "m1" "m2" "m3" 0
               reachable_initial eq_refl alice_bob_ids alice_bob_ids).
    by eexists.
Defined.

(** C3, as stated, fails: the match object of the sample session ends as
    finished with both actions still set. *)
Lemma C3_finished_with_actions :
  match tie_call with
  | Some (_, _, Some (m, r)) =>
      status (battleState (r_match r)) = finished ∧
      ¬ (action (combatant (r_match r) "A") = None ∧
         action (combatant (r_match r) "B") = None)
  | _ => False
  end.
Proof.
  assert ((λ c, match c with
                | Some (_, _, Some (m, r)) =>
                    Some (status (battleState (r_match r)),
                          action (combatant (r_match r) "A"))
                | _ => None
                end) tie_call = Some (finished, Some "special")) as Hobs
    by (vm_compute; reflexivity).
  destruct tie_call as [[[st' out] [[m r]|]]|].
  2-3: exact (eq_ind None (λ o, if o is None then True else False) I _ Hobs).
  injection Hobs as H1 H2. split; [exact H1|]. rewrite H2. intros [[=] _].
Qed.

(** C3, amended.  No match in the registry of a reachable state is finished
    (all are waiting for actions); and when a call of [resolveTurn] leaves
    the match finished, both combatants still hold the action they chose for
    that last turn, and the match is no longer in the registry. *)
Theorem C3_finished_is_dropped_with_actions st :
  reachable st →
  (∀ k m, (k, m) ∈ activeMatches st → status (battleState m) = waiting_actions) ∧
  (∀ socket matchId action_ rnd1 rnd2 st' out m r,
     submit_action socket matchId action_ rnd1 rnd2 st = Some (st', out, Some (m, r)) →
     status (battleState (r_match r)) = finished →
     action (combatant (r_match r) (first_id m)) = action (combatant m (first_id m)) ∧
     action (combatant (r_match r) (second_id m)) = action (combatant m (second_id m)) ∧
     action (combatant m (first_id m)) ≠ None ∧
     action (combatant m (second_id m)) ≠ None ∧
     JsMap.get matchId (activeMatches st') = None).
Proof.
  intros Hst%reachable_inv. split.
  - intros k m Hin. destruct Hst as [Hm _ _].
    pose proof (proj1 (Forall_forall _ _) Hm (k, m) Hin) as Hwf.
    by destruct Hwf as (? & ? & ? & ? & ? & ? & ? & ? & ? & ? & ? & ?).
  - intros socket matchId action_ rnd1 rnd2 st' out m r H Hfin.
    destruct (submit_action_resolves _ _ _ _ _ _ _ _ _ _ Hst H) as (Hres & Hr & -> & _).
    rewrite Hr in Hfin. rewrite concludeTurn_status in Hfin.
    destruct (truthy (r_winner _)) eqn:Hw; [|done]. clear Hfin.
    unfold combatant at 1 3. rewrite Hr at 1 2.
    rewrite concludeTurn_players, Hw.
    rewrite store_after_first, store_after_second by done.
    unfold after1, after2. rewrite !action_after.
    destruct (resolving_actions m Hres) as [Ha1 Ha2]. split_and!; try done.
    simpl. rewrite Hr, concludeTurn_activeMatches, Hw. apply get_delete.
Qed.

(** C3, amended, on the sample session. *)
Lemma C3_finished_is_dropped_sample :
  match tie_call with
  | Some (st', _, Some (m, r)) =>
      status (battleState (r_match r)) = finished ∧
      action (combatant (r_match r) (first_id m)) ≠ None ∧
      JsMap.get "m1" (activeMatches st') = None
  | _ => False
  end.
Proof.
  assert ((λ c, match c with
                | Some (_, _, Some (m, r)) => Some (status (battleState (r_match r)))
                | _ => None
                end) tie_call = Some finished) as Hobs
    by (vm_compute; reflexivity).
  destruct (C3_finished_is_dropped_with_actions _
              (state_after_reachable _ tie_events_ok tie_events_run)) as [_ Hthm].
  specialize (Hthm "sb" "m1" "special" 0%Q 0%Q).
  fold tie_call in Hthm.
  destruct tie_call as [[[st' out] [[m r]|]]|].
  2-3: exact (eq_ind None (λ o, if o is None then True else False) I _ Hobs).
  injection Hobs as H1.
  destruct (Hthm st' out m r eq_refl H1) as (E1 & _ & N1 & _ & G).
  split; [exact H1|]. split; [|exact G]. rewrite E1. exact N1.
Defined.

(** The messages of a resolved turn between [pl1] and [pl2]. *)
Lemma concludeTurn_effects matchId m active h d1 d2 pl1 pl2 :
  match_players m = [pl1; pl2] →
  playerIds (battleState m) = (playerId pl1, playerId pl2) →
  playerId pl1 ≠ playerId pl2 →
  let r := concludeTurn matchId m active h d1 d2 in
  ∃ tr,
    r_effects r =
      [ Emit (socketId pl1) (pvp_turn_result tr (playerId pl1) (playerId pl2));
        Emit (socketId pl2) (pvp_turn_result tr (playerId pl2) (playerId pl1)) ]
      ++ match r_winner r with
         | Some w =>
             if bool_decide (w ≠ "") then
               [ Emit (socketId pl1)
                   (pvp_battle_end w (bool_decide (playerId pl1 = w))
                      (if bool_decide (playerId pl1 = w) then 20 else -10));
                 Emit (socketId pl2)
                   (pvp_battle_end w (bool_decide (playerId pl2 = w))
                      (if bool_decide (playerId pl2 = w) then 20 else -10)) ]
             else []
         | None => []
         end.
Proof.
  intros Hpl Hids Hne. unfold concludeTurn. rewrite Hids, Hpl.
  destruct (checkWinner _ _ _) as [w|] eqn:Hw; cbn [truthy].
  - destruct (decide (w ≠ "")) as [Hn|Hn];
      [rewrite !(bool_decide_eq_true_2 (w ≠ "")) by done; simpl;
       rewrite !(bool_decide_eq_true_2 (w ≠ "")) by done
      |rewrite !(bool_decide_eq_false_2 (w ≠ "")) by done; simpl;
       rewrite !(bool_decide_eq_false_2 (w ≠ "")) by done];
      rewrite decide_True by done; rewrite decide_False by done;
      eexists; by rewrite ?app_nil_r.
  - simpl. rewrite decide_True by done. rewrite decide_False by done.
    eexists. reflexivity.
Qed.

(** C4, as stated, fails: in the sample session a winner is declared and
    nothing is sent to the player store. *)
Lemma C4_nothing_forwarded :
  match tie_call with
  | Some (_, out, Some (m, r)) =>
      r_winner r = Some "B" ∧ ¬ (∃ e, e ∈ out ∧ is_Query e = true)
  | _ => False
  end.
Proof.
  assert ((λ c, match c with
                | Some (_, out, Some (m, r)) => Some (r_winner r, existsb is_Query out)
                | _ => None
                end) tie_call = Some (Some "B", false)) as Hobs
    by (vm_compute; reflexivity).
  destruct tie_call as [[[st' out] [[m r]|]]|].
  2-3: exact (eq_ind None (λ o, if o is None then True else False) I _ Hobs).
  injection Hobs as H1 H2. split; [exact H1|].
  intros (e & Hin & He). apply not_true_iff_false in H2. apply H2.
  apply existsb_exists. exists e. split; [by apply list_elem_of_In | done].
Qed.

(** C4, amended.  When a turn resolution finds a winner (an id that passes
    the test of line 748, that is a non-empty one), the match becomes
    finished, each of the two participants is sent, after the turn result, a
    battle-end message carrying +20 if it is the winner and -10 otherwise,
    and the match is removed from the registry.  The winner is one of the two
    participants.  The handler sends nothing to the player store: the trophy
    change is only reported to the clients. *)
Theorem C4_winner_ends_match socket matchId action_ rnd1 rnd2 st st' out m r w :
  reachable st →
  submit_action socket matchId action_ rnd1 rnd2 st = Some (st', out, Some (m, r)) →
  r_winner r = Some w → w ≠ "" →
  status (battleState (r_match r)) = finished ∧
  JsMap.get matchId (activeMatches st') = None ∧
  Forall (λ e, is_Query e = false) out ∧
  ∃ pl1 pl2 tr,
    match_players m = [pl1; pl2] ∧
    playerId pl1 ≠ playerId pl2 ∧
    (w = playerId pl1 ∨ w = playerId pl2) ∧
    r_effects r =
      [ Emit (socketId pl1) (pvp_turn_result tr (playerId pl1) (playerId pl2));
        Emit (socketId pl2) (pvp_turn_result tr (playerId pl2) (playerId pl1));
        Emit (socketId pl1)
          (pvp_battle_end w (bool_decide (playerId pl1 = w))
             (if bool_decide (playerId pl1 = w) then 20 else -10));
        Emit (socketId pl2)
          (pvp_battle_end w (bool_decide (playerId pl2 = w))
             (if bool_decide (playerId pl2 = w) then 20 else -10)) ].
Proof.
  intros Hst%reachable_inv H Hw Hne.
  destruct (submit_action_resolves _ _ _ _ _ _ _ _ _ _ Hst H)
    as (Hres & Hr & -> & m0 & _ & ->).
  assert (truthy (r_winner r) = true) as Htr
    by (rewrite Hw; simpl; by apply bool_decide_eq_true_2).
  split_and!.
  - rewrite Hr, concludeTurn_status. rewrite <- Hr. by rewrite Htr.
  - simpl. rewrite Hr, concludeTurn_activeMatches. rewrite <- Hr. rewrite Htr.
    apply get_delete.
  - apply Forall_app. split; [apply ready_notice_no_query|].
    rewrite Hr. apply concludeTurn_no_query.
  - destruct Hres as (pl1 & pl2 & Hpl & Hids & Hd & _).
    destruct (concludeTurn_effects matchId m (activeMatches st)
                (store_after m rnd1 rnd2)
                (dealt1 (combatant m (first_id m)) (combatant m (second_id m)) rnd1)
                (dealt2 (combatant m (first_id m)) (combatant m (second_id m)) rnd2)
                pl1 pl2 Hpl Hids Hd) as [tr Heff].
    cbv zeta in Heff. rewrite <- Hr in Heff. rewrite Hw in Heff.
    rewrite bool_decide_eq_true_2 in Heff by done.
    exists pl1, pl2, tr. split_and!; [done | done | | exact Heff].
    pose proof (checkWinner_cases m rnd1 rnd2) as Hc. cbv zeta in Hc.
    rewrite <- concludeTurn_winner with (matchId := matchId) (active := activeMatches st)
      (d1 := dealt1 (combatant m (first_id m)) (combatant m (second_id m)) rnd1)
      (d2 := dealt2 (combatant m (first_id m)) (combatant m (second_id m)) rnd2) in Hc.
    rewrite <- Hr, Hw in Hc. unfold first_id, second_id in Hc. rewrite Hids in Hc.
    simpl in Hc. destruct Hc as [[=] | [[= ->] | [= ->]]]; auto.
Qed.

(** C4, amended, on the sample session: B wins, gets +20, and A gets -10. *)
Lemma C4_winner_ends_match_sample :
  match tie_call with
  | Some (st', out, Some (m, r)) =>
      status (battleState (r_match r)) = finished ∧
      JsMap.get "m1" (activeMatches st') = None ∧
      Emit "sb" (pvp_battle_end "B" true 20) ∈ r_effects r ∧
      Emit "sa" (pvp_battle_end "B" false (-10)) ∈ r_effects r
  | _ => False
  end.
Proof.
  assert ((λ c, match c with
                | Some (_, _, Some (m, r)) =>
                    Some (r_winner r, r_effects r !! 2%nat, r_effects r !! 3%nat)
                | _ => None
                end) tie_call
          = Some (Some "B", Some (Emit "sa" (pvp_battle_end "B" false (-10))),
                  Some (Emit "sb" (pvp_battle_end "B" true 20)))) as Hobs
    by (vm_compute; reflexivity).
  pose proof (λ st' out m r w,
                C4_winner_ends_match "sb" "m1" "special" 0 0 _ st' out m r w
                  (state_after_reachable _ tie_events_ok tie_events_run)) as Hthm.
  unfold tie_call in Hobs |- *.
  destruct (submit_action "sb" "m1" "special" 0 0 (state_after tie_events))
    as [[[st' out] [[m r]|]]|].
  2-3: exact (eq_ind None (λ o, if o is None then True else False) I _ Hobs).
  injection Hobs as H1 H2 H3.
  assert ("B" ≠ "") as HB by (intros [=]).
  destruct (Hthm st' out m r "B" eq_refl H1 HB) as (S1 & G & _).
  split; [exact S1|]. split; [exact G|]. split.
  - eapply list_elem_of_lookup_2. exact H3.
  - eapply list_elem_of_lookup_2. exact H2.
Defined.

Lemma valid_action_truthy a : valid_action a = true → truthy (Some a) = true.
Proof.
  intros H%valid_action_ok. simpl. apply bool_decide_eq_true_2.
  destruct H as [[=] | [[= ->] | [[= ->] | [= ->]]]]; by intros [=].
Qed.

Lemma on_submit_action_eq socket matchId action_ rnd1 rnd2 st st' out res :
  submit_action socket matchId action_ rnd1 rnd2 st = Some (st', out, res) →
  on_submit_action socket matchId action_ rnd1 rnd2 st = Some (st', out).
Proof. unfold on_submit_action. by intros ->. Qed.

(** C5.  A submission leaves the server state as it is and sends nothing when
    the match is not waiting for actions, when the connection is not one of
    the two participants, when the combatant of the connection already holds
    an action, or when the action is not one of the three names.  A special
    chosen while the cooldown is positive also leaves the state as it is and
    sends the cooldown error to the submitter, and only this case does.  After
    a submission that was accepted and did not complete the turn, any further
    submission of the same connection is dropped without effect. *)
Theorem C5_rejected_submission socket matchId action_ rnd1 rnd2 st m :
  JsMap.get matchId (activeMatches st) = Some m →
  (status (battleState m) ≠ waiting_actions →
   on_submit_action socket matchId action_ rnd1 rnd2 st = Some (st, [])) ∧
  ((∀ p, p ∈ match_players m → socketId p ≠ socket) →
   on_submit_action socket matchId action_ rnd1 rnd2 st = Some (st, [])) ∧
  (∀ player bp pending,
     find (λ p, bool_decide (socketId p = socket)) (match_players m) = Some player →
     players (battleState m) !! playerId player = Some bp →
     action bp = Some pending → pending ∈ ["attack"; "defend"; "special"] →
     on_submit_action socket matchId action_ rnd1 rnd2 st = Some (st, [])) ∧
  (action_ ∉ ["attack"; "defend"; "special"] →
   on_submit_action socket matchId action_ rnd1 rnd2 st = Some (st, [])) ∧
  (∀ player bp,
     status (battleState m) = waiting_actions →
     find (λ p, bool_decide (socketId p = socket)) (match_players m) = Some player →
     players (battleState m) !! playerId player = Some bp →
     action bp = None →
     action_ = "special" → specialCooldown bp > 0 →
     on_submit_action socket matchId action_ rnd1 rnd2 st
     = Some (st, [Emit socket (pvp_action_error "Special is on cooldown!")])) ∧
  (∀ player bp,
     status (battleState m) = waiting_actions →
     find (λ p, bool_decide (socketId p = socket)) (match_players m) = Some player →
     players (battleState m) !! playerId player = Some bp →
     action bp = None →
     action_ ∈ ["attack"; "defend"; "special"] →
     ¬ (action_ = "special" ∧ specialCooldown bp > 0) →
     allSubmitted (battleState (recordAction player action_ m)) = Some false →
     ∃ st' out,
       on_submit_action socket matchId action_ rnd1 rnd2 st = Some (st', out) ∧
       JsMap.get matchId (activeMatches st') = Some (recordAction player action_ m) ∧
       ∀ again rnd1' rnd2',
         on_submit_action socket matchId again rnd1' rnd2' st' = Some (st', [])).
Proof.
  intros Hget. split_and!.
  - intros Hst. unfold on_submit_action, submit_action. rewrite Hget.
    by rewrite decide_True.
  - intros Hno. unfold on_submit_action, submit_action. rewrite Hget.
    case_decide; [done|].
    destruct (find _ (match_players m)) as [player|] eqn:Hf; [|done].
    apply find_Some in Hf as [Hin Hs%bool_decide_eq_true]. by destruct (Hno _ Hin).
  - intros player bp pending Hf Hbp Ha Hv.
    unfold on_submit_action, submit_action. rewrite Hget.
    case_decide; [done|]. rewrite Hf, Hbp, Ha.
    rewrite valid_action_truthy; [done|]. by apply bool_decide_eq_true_2.
  - intros Hv. unfold on_submit_action, submit_action. rewrite Hget.
    case_decide; [done|].
    destruct (find _ (match_players m)) as [player|]; [|done].
    destruct (players (battleState m) !! playerId player) as [bp|]; [|done].
    destruct (truthy (action bp)); [done|].
    unfold valid_action. by rewrite bool_decide_eq_false_2.
  - intros player bp Hst Hf Hbp Ha -> Hcd.
    unfold on_submit_action, submit_action. rewrite Hget.
    rewrite decide_False by (by intros []). rewrite Hf, Hbp, Ha. simpl.
    by rewrite decide_True.
  - intros player bp Hst Hf Hbp Ha Hv Hcd Hall.
    assert (valid_action action_ = true) as Hv' by (by apply bool_decide_eq_true_2).
    eexists _, _. split_and!.
    + unfold on_submit_action, submit_action. rewrite Hget.
      rewrite decide_False by (by intros []). rewrite Hf, Hbp, Ha. cbn [truthy].
      rewrite Hv'. cbn [negb]. rewrite decide_False by done. rewrite Hall. reflexivity.
    + simpl. apply get_set.
    + intros again rnd1' rnd2'.
      unfold on_submit_action, submit_action. simpl. rewrite get_set. simpl.
      rewrite decide_False by (by intros []). rewrite Hf.
      rewrite lookup_alter_eq, Hbp. simpl.
      change (bool_decide (action_ ≠ "")) with (truthy (Some action_)).
      by rewrite valid_action_truthy.
Qed.

(** C5 on the sample session: after the first turn A may not use the special
    again; and once A has chosen to attack, a second choice is dropped. *)
Lemma C5_rejected_submission_sample :
  on_submit_action "sa" "m1" "special" 0 0 (state_after after_special)
  = Some (state_after after_special, [cooldown_error]) ∧
  on_submit_action "sa" "m1" "dance" 0 0 (state_after after_special)
  = Some (state_after after_special, []) ∧
  ∃ st' out,
    on_submit_action "sa" "m1" "attack" 0 0 (state_after after_special) = Some (st', out) ∧
    on_submit_action "sa" "m1" "defend" 0 0 st' = Some (st', []).
Proof.
  assert ((λ o, match o with
                | Some m =>
                    Some (status (battleState m),
                          find (λ p, bool_decide (socketId p = "sa")) (match_players m),
                          (λ b, (action b, specialCooldown b))
                            <$> players (battleState m) !! "A",
                          allSubmitted
                            (battleState (recordAction (waitingEntry "sa" alice) "attack" m)))
                | None => None
                end) (JsMap.get "m1" (activeMatches (state_after after_special)))
          = Some (waiting_actions, Some (waitingEntry "sa" alice), Some (None, 2),
                  Some false)) as Hobs
    by (vm_compute; reflexivity).
  destruct (JsMap.get "m1" (activeMatches (state_after after_special)))
    as [m|] eqn:Hget.
  2: exfalso; exact (eq_ind None (λ o, if o is None then True else False) I _ Hobs).
  injection Hobs as Hst Hf Hbp Hall.
  destruct (players (battleState m) !! "A") as [bp|] eqn:HA.
  2: exfalso; exact (eq_ind None (λ o, if o is None then True else False) I _ Hbp).
  injection Hbp as Ha Hcd.
  assert ("dance" ∉ ["attack"; "defend"; "special"]) as Hdance.
  { intros H. repeat (apply elem_of_cons in H as [[=] | H]). by apply elem_of_nil in H. }
  assert ("attack" ∈ ["attack"; "defend"; "special"]) as Hattack by left.
  split; [|split].
  - destruct (C5_rejected_submission "sa" "m1" "special" 0 0 _ m Hget)
      as (_ & _ & _ & _ & H5 & _).
    apply (H5 (waitingEntry "sa" alice) bp Hst Hf HA Ha eq_refl). rewrite Hcd. lia.
  - destruct (C5_rejected_submission "sa" "m1" "dance" 0 0 _ m Hget)
      as (_ & _ & _ & H4 & _).
    exact (H4 Hdance).
  - destruct (C5_rejected_submission "sa" "m1" "attack" 0 0 _ m Hget)
      as (_ & _ & _ & _ & _ & H6).
    destruct (H6 (waitingEntry "sa" alice) bp Hst Hf HA Ha Hattack) as (st' & out & H1 & _ & H2).
    + intros [[=] _].
    + exact Hall.
    + exists st', out. split; [exact H1 | apply H2].
Defined.

(** The two combatants after a call of [resolveTurn]. *)
Lemma resolved_combatants matchId m rnd1 rnd2 active :
  resolving_match m →
  let b1 := combatant m (first_id m) in
  let b2 := combatant m (second_id m) in
  let r := concludeTurn matchId m active (store_after m rnd1 rnd2)
             (dealt1 b1 b2 rnd1) (dealt2 b1 b2 rnd2) in
  combatant (r_match r) (first_id m) =
    (if truthy (r_winner r) then after1 b1 b2 rnd2
     else set_action None (after1 b1 b2 rnd2)) ∧
  combatant (r_match r) (second_id m) =
    (if truthy (r_winner r) then after2 b1 b2 rnd1
     else set_action None (after2 b1 b2 rnd1)).
Proof.
  intros Hres b1 b2 r. pose proof (resolving_ids_distinct m Hres) as Hne.
  unfold combatant at 1 2. subst r. rewrite concludeTurn_players.
  destruct (truthy _).
  - by rewrite store_after_first, store_after_second.
  - split.
    + rewrite lookup_total_alter_ne by done. rewrite lookup_total_alter_eq.
      unfold store_after. rewrite lookup_insert_ne by done.
      by rewrite lookup_insert_eq.
    + rewrite lookup_total_alter_eq. rewrite lookup_alter_ne by done.
      unfold store_after. by rewrite lookup_insert_eq.
Qed.

Lemma base_of_baseDamage p rnd h b :
  h !! p = Some b → (baseDamage p rnd h).1 = base_of b rnd.
Proof. intros H. by rewrite (baseDamage_Some _ _ _ H). Qed.

Lemma combatant_lookup m p b :
  players (battleState m) !! p = Some b → combatant m p = b.
Proof. apply lookup_total_correct. Qed.

Lemma resolving_lookups m :
  resolving_match m →
  players (battleState m) !! first_id m = Some (combatant m (first_id m)) ∧
  players (battleState m) !! second_id m = Some (combatant m (second_id m)).
Proof.
  intros (pl1 & pl2 & _ & Hids & _ & [b1 H1] & [b2 H2] & _).
  unfold first_id, second_id, combatant. rewrite Hids. simpl.
  by rewrite (lookup_total_correct _ _ _ H1), (lookup_total_correct _ _ _ H2).
Qed.




(** Where the rounding shows: at 0.2727272727272727 eleven times the random
    number is just below 3 and rounds to 3, so the attack deals 18. *)
Lemma attack_at_rounding_boundary :
  let rnd := (1228254443828317 # 4503599627370496)%Q in
  random_ok rnd ∧ (rnd * 11 < 3)%Q ∧ (baseDamage "A" rnd {["A" := attacker]}).1 = 18.
Proof.
  split_and!; [random_values | vm_compute; reflexivity | vm_compute; reflexivity].
Qed.

(** C7.  In a resolved turn the damage a side deals is its base damage,
    multiplied by 0.5 and floored exactly when the other side defends; whether
    the side itself defends plays no part in what it deals.  From 100 hit
    points each, an attack with roll 20 against a defending opponent leaves
    the attacker at 100 and the defender at 90. *)
Theorem C7_defend_halves_incoming socket matchId action_ rnd1 rnd2 st st' out m r :
  reachable st →
  submit_action socket matchId action_ rnd1 rnd2 st = Some (st', out, Some (m, r)) →
  let b1 := combatant m (first_id m) in
  let b2 := combatant m (second_id m) in
  let base1 := (baseDamage (first_id m) rnd1 (players (battleState m))).1 in
  let base2 := (baseDamage (second_id m) rnd2 (players (battleState m))).1 in
  r_damage r =
    (if decide (action b2 = Some "defend")
     then Math_floor (inject_Z base1 * 0.5)%Q else base1,
     if decide (action b1 = Some "defend")
     then Math_floor (inject_Z base2 * 0.5)%Q else base2) ∧
  hp (combatant (r_match r) (first_id m)) = Z.max 0 (hp b1 - (r_damage r).2) ∧
  hp (combatant (r_match r) (second_id m)) = Z.max 0 (hp b2 - (r_damage r).1) ∧
  (hp b1 = 100 → hp b2 = 100 →
   action b1 = Some "attack" → action b2 = Some "defend" →
   15 + Math_floor (Number_mul rnd1 11) = 20 →
   r_damage r = (10, 0) ∧
   hp (combatant (r_match r) (first_id m)) = 100 ∧
   hp (combatant (r_match r) (second_id m)) = 90).
Proof.
  intros Hst%reachable_inv H b1 b2 base1 base2.
  destruct (submit_action_resolves _ _ _ _ _ _ _ _ _ _ Hst H) as (Hres & Hr & _).
  destruct (resolving_lookups m Hres) as [H1 H2].
  assert (base1 = base_of b1 rnd1) as -> by (by apply base_of_baseDamage).
  assert (base2 = base_of b2 rnd2) as -> by (by apply base_of_baseDamage).
  destruct (resolved_combatants matchId m rnd1 rnd2 (activeMatches st) Hres) as [C1 C2].
  cbv zeta in C1, C2. rewrite <- Hr in C1, C2. fold b1 b2 in C1, C2.
  assert (r_damage r = (dealt1 b1 b2 rnd1, dealt2 b1 b2 rnd2)) as Hd
    by (rewrite Hr; apply concludeTurn_damage).
  assert (hp (combatant (r_match r) (first_id m)) = Z.max 0 (hp b1 - dealt2 b1 b2 rnd2))
    as Hhp1.
  { rewrite C1. destruct (truthy _); simpl; unfold after1; by rewrite hp_after. }
  assert (hp (combatant (r_match r) (second_id m)) = Z.max 0 (hp b2 - dealt1 b1 b2 rnd1))
    as Hhp2.
  { rewrite C2. destruct (truthy _); simpl; unfold after2; by rewrite hp_after. }
  rewrite Hd, Hhp1, Hhp2. cbn [fst snd]. split_and!; try done.
  intros E1 E2 A1 A2 Hroll.
  unfold dealt1, dealt2, reduced, base_of. rewrite A1, A2, E1, E2.
  rewrite (decide_True (P := Some "defend" = Some "defend")) by done.
  rewrite (decide_False (P := Some "attack" = Some "defend")) by (by intros [=]).
  rewrite (decide_True (P := Some "attack" = Some "attack")) by done.
  rewrite (decide_False (P := Some "defend" = Some "attack")) by (by intros [=]).
  rewrite (decide_False (P := Some "defend" = Some "special" ∧ _))
    by (by intros [[=] _]).
  rewrite Hroll. by vm_compute.
Qed.

(** C10.  A new battle starts with both cooldowns at 0.  In every match of a
    reachable state both cooldowns are 0, 1 or 2.  A resolved turn leaves the
    cooldown of a side at 2 when the side used the special (which it can only
    do at cooldown 0), and otherwise one lower than before when it was
    positive, and at 0 when it was 0. *)
Theorem C10_cooldown_range st :
  reachable st →
  (∀ player1 player2 pid b,
     players (createBattleState player1 player2) !! pid = Some b →
     specialCooldown b = 0) ∧
  (∀ k m, (k, m) ∈ activeMatches st →
     0 ≤ specialCooldown (combatant m (first_id m)) ≤ 2 ∧
     0 ≤ specialCooldown (combatant m (second_id m)) ≤ 2) ∧
  (∀ socket matchId action_ rnd1 rnd2 st' out m r pid,
     submit_action socket matchId action_ rnd1 rnd2 st = Some (st', out, Some (m, r)) →
     pid = first_id m ∨ pid = second_id m →
     let before := combatant m pid in
     let after := combatant (r_match r) pid in
     0 ≤ specialCooldown before ≤ 2 ∧
     0 ≤ specialCooldown after ≤ 2 ∧
     (action before = Some "special" →
        specialCooldown before = 0 ∧ specialCooldown after = 2) ∧
     (action before ≠ Some "special" →
        specialCooldown after =
          if decide (specialCooldown before > 0) then specialCooldown before - 1 else 0)).
Proof.
  intros Hst%reachable_inv. split_and!.
  - intros pl1 pl2 pid b. simpl. rewrite !lookup_insert.
    repeat case_decide; by intros [= <-].
  - intros k m Hin. destruct Hst as [Hm _ _].
    pose proof (proj1 (Forall_forall _ _) Hm (k, m) Hin) as Hwf. simpl in Hwf.
    destruct Hwf as (pl1 & pl2 & b1 & b2 & _ & _ & Hids & H1 & H2 & W1 & W2 & _).
    unfold combatant, first_id, second_id. rewrite Hids. simpl.
    rewrite (lookup_total_correct _ _ _ H1), (lookup_total_correct _ _ _ H2).
    split; [apply W1 | apply W2].
  - intros socket matchId action_ rnd1 rnd2 st' out m r pid H Hpid before after.
    destruct (submit_action_resolves _ _ _ _ _ _ _ _ _ _ Hst H) as (Hres & Hr & _).
    destruct (resolved_combatants matchId m rnd1 rnd2 (activeMatches st) Hres) as [C1 C2].
    cbv zeta in C1, C2. rewrite <- Hr in C1, C2.
    assert (wf_player before ∧
            specialCooldown after =
              specialCooldown (cooled (damaged 0 (charged before)))) as [W Ha].
    { subst before after. destruct Hpid as [-> | ->].
      - split; [by apply resolving_wf_first|]. rewrite C1.
        destruct (truthy _); cbn [specialCooldown set_action]; unfold after1;
          by rewrite !cooldown_after.
      - split; [by apply resolving_wf_second|]. rewrite C2.
        destruct (truthy _); cbn [specialCooldown set_action]; unfold after2;
          by rewrite !cooldown_after. }
    rewrite Ha, cooldown_after. destruct W as [_ Hcd _ Hs].
    split_and!; try lia.
    + repeat case_decide; lia.
    + repeat case_decide; lia.
    + intros A. specialize (Hs A). rewrite !decide_True by done. by split.
    + intros A. rewrite decide_False by done. repeat case_decide; lia.
Qed.

Lemma first_attack_reachable : reachable (state_after first_attack).
Proof.
  apply state_after_reachable.
  - simpl; events_ok.
  - vm_compute. eauto.
Qed.

(** C7 on the scenario of the claim: A attacks with roll 20, B defends. *)
Lemma C7_defend_halves_incoming_sample :
  match submit_action "sb" "m1" "defend" (1#2) 0 (state_after first_attack) with
  | Some (_, _, Some (m, r)) =>
      r_damage r = (10, 0) ∧
      hp (combatant (r_match r) (first_id m)) = 100 ∧
      hp (combatant (r_match r) (second_id m)) = 90
  | _ => False
  end.
Proof.
  assert ((λ c, match c with
                | Some (_, _, Some (m, r)) =>
                    Some (hp (combatant m (first_id m)), hp (combatant m (second_id m)),
                          action (combatant m (first_id m)),
                          action (combatant m (second_id m)))
                | _ => None
                end)
            (submit_action "sb" "m1" "defend" (1#2) 0 (state_after first_attack))
          = Some (100, 100, Some "attack", Some "defend")) as Hobs
    by (vm_compute; reflexivity).
  pose proof (λ st' out m r,
                C7_defend_halves_incoming "sb" "m1" "defend" (1#2) 0 _ st' out m r
                  first_attack_reachable) as Hthm.
  destruct (submit_action "sb" "m1" "defend" (1#2) 0 (state_after first_attack))
    as [[[st' out] [[m r]|]]|].
  2-3: exfalso; exact (eq_ind None (λ o, if o is None then True else False) I _ Hobs).
  injection Hobs as H1 H2 A1 A2.
  destruct (Hthm st' out m r eq_refl) as (_ & _ & _ & Hs).
  exact (Hs H1 H2 A1 A2 eq_refl).
Defined.

(** C10 on the sample session: A uses the special in the last turn and ends
    with cooldown 2. *)
Lemma C10_cooldown_range_sample :
  match tie_call with
  | Some (_, _, Some (m, r)) =>
      specialCooldown (combatant m (first_id m)) = 0 ∧
      specialCooldown (combatant (r_match r) (first_id m)) = 2
  | _ => False
  end.
Proof.
  assert ((λ c, match c with
                | Some (_, _, Some (m, r)) => Some (action (combatant m (first_id m)))
                | _ => None
                end) tie_call = Some (Some "special")) as Hobs
    by (vm_compute; reflexivity).
  destruct (C10_cooldown_range _ (state_after_reachable _ tie_events_ok tie_events_run))
    as (_ & _ & Hthm).
  specialize (Hthm "sb" "m1" "special" 0%Q 0%Q). fold tie_call in Hthm.
  destruct tie_call as [[[st' out] [[m r]|]]|].
  2-3: exfalso; exact (eq_ind None (λ o, if o is None then True else False) I _ Hobs).
  injection Hobs as A1.
  destruct (Hthm st' out m r (first_id m) eq_refl (or_introl eq_refl)) as (_ & _ & Hs & _).
  exact (Hs A1).
Defined.

Lemma on_queue_effects socket pd uuid now st :
  ∃ rest,
    (on_queue socket pd uuid now st).2 =
      Emit socket (pvp_queued (Z.of_nat (length (enqueue socket pd (waitingPlayers st)))))
      :: rest.
Proof. unfold on_queue. destruct (tryMatchPlayers _ _ _). simpl. eauto. Qed.

Lemma on_queue_again socket pd uuid now e active :
  playerId e = pd_playerId pd →
  on_queue socket pd uuid now {| waitingPlayers := [e]; activeMatches := active |}
  = ({| waitingPlayers := [waitingEntry socket pd]; activeMatches := active |},
     [Emit socket (pvp_queued 1)]).
Proof.
  intros He. unfold on_queue. rewrite enqueue_eq. simpl.
  by rewrite bool_decide_eq_true_2.
Qed.

(** C8.  In every reachable state, and also between the insertion of a join
    request and the pairing that follows it, no two waiting entries carry the
    same player id.  A join request takes out the entry of that player id, if
    there is one, and appends the new entry at the back; the position sent to
    the client is the length of the queue at that moment, which is the
    1-based position of the new entry.  The state the handler leaves is that
    queue after the pairing: its first two entries are taken off if it has
    two.  So when the player was waiting already, or nobody was, the queue
    afterwards holds the new entry and nothing else (the old entry is gone)
    and no match is made; when another player was waiting, the two are
    matched at once and the queue is empty. *)
Theorem C8_queue_unique st :
  reachable st →
  NoDup (playerId <$> waitingPlayers st) ∧
  (∀ socket pd,
     let waiting := enqueue socket pd (waitingPlayers st) in
     NoDup (playerId <$> waiting) ∧
     waiting = filter (λ p, playerId p ≠ pd_playerId pd) (waitingPlayers st)
               ++ [waitingEntry socket pd] ∧
     (∀ uuid now, ∃ position rest,
       (on_queue socket pd uuid now st).2 = Emit socket (pvp_queued position) :: rest ∧
       1 ≤ position ∧
       waiting !! Z.to_nat (position - 1) = Some (waitingEntry socket pd) ∧
       position = Z.of_nat (length waiting)) ∧
     (∀ uuid now,
       let st' := (on_queue socket pd uuid now st).1 in
       NoDup (playerId <$> waitingPlayers st') ∧
       waitingPlayers st'
         = (if decide (2 ≤ length waiting)%nat then drop 2 waiting else waiting) ∧
       ((∃ e, e ∈ waitingPlayers st ∧ playerId e = pd_playerId pd) ∨
        waitingPlayers st = [] →
          waitingPlayers st' = [waitingEntry socket pd] ∧
          activeMatches st' = activeMatches st) ∧
       (∀ e, waitingPlayers st = [e] → playerId e ≠ pd_playerId pd →
          waitingPlayers st' = [] ∧
          activeMatches st'
            = JsMap.set uuid (newMatch uuid now e (waitingEntry socket pd))
                (activeMatches st)))).
Proof.
  intros Hst. pose proof (reachable_inv _ Hst) as [_ Hd Hshort]. split; [done|].
  intros socket pd waiting. split_and!.
  - by apply enqueue_NoDup.
  - subst waiting. by rewrite enqueue_eq, remove_first_filter.
  - intros uuid now. destruct (on_queue_effects socket pd uuid now st) as [rest Hq].
    exists (Z.of_nat (length waiting)), rest. fold waiting in Hq.
    assert (length waiting =
            S (length (remove_first
                         (λ p, bool_decide (playerId p = pd_playerId pd))
                         (waitingPlayers st)))) as Hl.
    { subst waiting. rewrite enqueue_eq, length_app. simpl. lia. }
    split_and!; [done | lia | | done].
    subst waiting. rewrite enqueue_eq in Hl |- *.
    rewrite Hl. replace (Z.to_nat (Z.of_nat (S _) - 1)) with
      (length (remove_first (λ p, bool_decide (playerId p = pd_playerId pd))
                 (waitingPlayers st)) + 0)%nat by lia.
    by rewrite lookup_app_r, Nat.add_comm, Nat.add_sub by lia.
  - intros uuid now st'.
    assert (NoDup (playerId <$> waitingPlayers st')) as Hd'.
    { assert (handle (pvp_queue socket pd uuid now) st = Some (st', (on_queue socket pd uuid now st).2))
        as Hh by (subst st'; simpl; by destruct (on_queue socket pd uuid now st)).
      exact (inv_distinct _ (reachable_inv _ (reachable_step st (pvp_queue socket pd uuid now) _ _ Hst I Hh))). }
    split; [exact Hd'|]. clear Hd'. subst st' waiting.
    destruct st as [w active]. cbn [waitingPlayers activeMatches] in *.
    destruct w as [|e [|e' w]]; [| |simpl in Hshort; lia].
    + rewrite on_queue_empty. simpl. split_and!; [done | done |].
      intros e [=].
    + destruct (decide (playerId e = pd_playerId pd)) as [He|He].
      * rewrite (on_queue_again _ _ _ _ _ _ He). rewrite enqueue_eq. simpl.
        rewrite bool_decide_eq_true_2 by done. simpl. split_and!; [done | done |].
        intros e0 [= <-] Hne. by destruct Hne.
      * rewrite (on_queue_second _ _ _ _ _ _ He). rewrite enqueue_eq. simpl.
        rewrite bool_decide_eq_false_2 by done. simpl. split_and!; [done | |].
        -- intros [(e0 & Hin & He0) | [=]].
           apply list_elem_of_singleton in Hin. subst e0. by destruct He.
        -- by intros e0 [= <-] _.
Qed.

(** C8 on a sample: alice joins again from another connection while she is
    waiting; her old entry is replaced. *)
Lemma C8_queue_unique_sample :
  enqueue "sx" alice (waitingPlayers (state_after [pvp_queue "sa" alice "m0" 0]))
  = [waitingEntry "sx" alice] ∧
  waitingPlayers (on_queue "sx" alice "m1" 0 (state_after [pvp_queue "sa" alice "m0" 0])).1
  = [waitingEntry "sx" alice].
Proof.
  assert (reachable (state_after [pvp_queue "sa" alice "m0" 0])) as Hr.
  { apply state_after_reachable; [by repeat constructor | by eexists]. }
  destruct (C8_queue_unique _ Hr) as [_ H].
  destruct (H "sx" alice) as (_ & Hw & _ & Hq). split.
  - rewrite Hw. reflexivity.
  - destruct (Hq "m1" 0) as (_ & _ & Hsame & _). apply Hsame. left.
    exists (waitingEntry "sa" alice). split; [left | reflexivity].
Defined.

(** *** Disconnecting *)

Section map_laws.
Context {V : Type}.
Implicit Types (m : list (string * V)) (k : string).

Lemma get_set_ne m k k' v : k ≠ k' → JsMap.get k' (JsMap.set k v m) = JsMap.get k' m.
Proof.
intros Hne. induction m as [|[k0 v0] m IH]; simpl.
- by rewrite decide_False.
- destruct (decide (k0 = k)) as [->|Hk]; simpl.
  + by rewrite !decide_False.
  + destruct (decide (k0 = k')); [done | exact IH].
Qed.

Lemma set_set m k v v' : JsMap.set k v (JsMap.set k v' m) = JsMap.set k v m.
Proof.
induction m as [|[k0 v0] m IH]; simpl.
- by rewrite decide_True.
- destruct (decide (k0 = k)) as [->|Hk]; simpl.
  + by rewrite decide_True.
  + rewrite decide_False by done. by rewrite IH.
Qed.

Lemma set_get_id m k v : JsMap.get k m = Some v → JsMap.set k v m = m.
Proof.
induction m as [|[k0 v0] m IH]; simpl; [done|].
destruct (decide (k0 = k)) as [->|Hk].
- by intros [= ->].
- intros H. by rewrite IH.
Qed.

Lemma set_keys_NoDup m k v : NoDup (m.*1) → NoDup ((JsMap.set k v m).*1).
Proof.
induction m as [|[k0 v0] m IH]; simpl.
- intros _. apply NoDup_singleton.
- intros [Hk0 Hm]%NoDup_cons. destruct (decide (k0 = k)) as [->|Hk]; simpl.
  + by apply NoDup_cons.
  + apply NoDup_cons. split; [|by apply IH].
    intros (kv & Hkv & Hin)%list_elem_of_fmap. destruct kv as [k1 v1]. simpl in Hkv.
    subst k1. apply Hk0. clear IH Hm Hk0.
    induction m as [|[k2 v2] m IH]; simpl in *.
    * apply list_elem_of_singleton in Hin. congruence.
    * destruct (decide (k2 = k)) as [->|Hk2].
      -- apply elem_of_cons in Hin as [[=]|Hin]; [congruence|]. right.
         by apply (list_elem_of_fmap_2 fst _ (k0, v1)).
      -- apply elem_of_cons in Hin as [[= -> ->]|Hin]; [left|right; by apply IH].
Qed.
End map_laws.

Lemma get_delete_None {V} (m : list (string * V)) k k' :
  JsMap.get k m = None → JsMap.get k (JsMap.delete k' m) = None.
Proof.
  induction m as [|[k0 v0] m IH]; simpl; [done|].
  destruct (decide (k0 = k)) as [|Hk]; [done|]. intros Hg.
  destruct (decide (k0 = k')); [by apply IH|].
  simpl. rewrite decide_False by done. by apply IH.
Qed.

Lemma some_true {A} (f : A → bool) l : some f l = true ↔ ∃ x, x ∈ l ∧ f x = true.
Proof.
  unfold some. rewrite existsb_exists. split; intros (x & H1 & H2); exists x.
  - by rewrite list_elem_of_In.
  - by rewrite <- list_elem_of_In.
Qed.

Section forfeit.
Context (socket : string).

Let mine (m : Match) : bool :=
  some (λ p, bool_decide (socketId p = socket)) (match_players m).

Lemma forfeit_all_gone entries active k :
  JsMap.get k active = None → JsMap.get k (forfeit_all socket entries active).1 = None.
Proof.
  revert active. induction entries as [|[k0 m0] entries IH]; intros active Hk; simpl.
  - done.
  - destruct (some _ _).
    + specialize (IH (JsMap.delete k0 active) (get_delete_None _ _ _ Hk)).
      by destruct (forfeit_all socket entries _).
    + by apply IH.
Qed.

Lemma forfeit_all_deleted entries active k m :
  (k, m) ∈ entries → mine m = true →
  JsMap.get k (forfeit_all socket entries active).1 = None.
Proof.
  revert active. induction entries as [|[k0 m0] entries IH]; intros active Hin Hm.
  - by apply elem_of_nil in Hin.
  - simpl. apply elem_of_cons in Hin as [[= <- <-]|Hin].
    + subst mine. simpl in Hm. rewrite Hm.
      pose proof (forfeit_all_gone entries (JsMap.delete k active) k (get_delete _ _)).
      by destruct (forfeit_all socket entries _).
    + destruct (some _ _).
      * specialize (IH (JsMap.delete k0 active) Hin Hm).
        by destruct (forfeit_all socket entries _).
      * by apply IH.
Qed.

Lemma forfeit_all_notice entries active k m opponent :
  (k, m) ∈ entries → mine m = true →
  find (λ p, bool_decide (socketId p ≠ socket)) (match_players m) = Some opponent →
  Emit (socketId opponent) pvp_opponent_disconnect
    ∈ (forfeit_all socket entries active).2.
Proof.
  revert active. induction entries as [|[k0 m0] entries IH]; intros active Hin Hm Hf.
  - by apply elem_of_nil in Hin.
  - simpl. apply elem_of_cons in Hin as [[= <- <-]|Hin].
    + subst mine. simpl in Hm. rewrite Hm, Hf.
      destruct (forfeit_all socket entries _). simpl. left.
    + destruct (some _ _).
      * specialize (IH (JsMap.delete k0 active) Hin Hm Hf).
        destruct (forfeit_all socket entries _). simpl in *.
        apply elem_of_app. by right.
      * by apply IH.
Qed.

Lemma forfeit_all_only_notices entries active e :
  e ∈ (forfeit_all socket entries active).2 → ∃ to, e = Emit to pvp_opponent_disconnect.
Proof.
  revert active. induction entries as [|[k0 m0] entries IH]; intros active; simpl.
  - by intros ?%elem_of_nil.
  - destruct (some _ _); [|by apply IH].
    specialize (IH (JsMap.delete k0 active)).
    destruct (forfeit_all socket entries _) as [a rest]. simpl in *.
    intros [He|He]%elem_of_app; [|by apply IH].
    destruct (find _ _); [|by apply elem_of_nil in He].
    apply list_elem_of_singleton in He as ->. eauto.
Qed.

Lemma forfeit_all_kept entries active k m :
  (k, m) ∈ (forfeit_all socket entries active).1 →
  (k, m) ∈ active ∧ ∀ m0, (k, m0) ∈ entries → mine m0 = false.
Proof.
  revert active. induction entries as [|[k0 m0] entries IH]; intros active; simpl.
  - intros H. split; [done|]. by intros ? ?%elem_of_nil.
  - destruct (some _ (match_players m0)) eqn:Hs.
    + specialize (IH (JsMap.delete k0 active)).
      destruct (forfeit_all socket entries _) as [a rest]. simpl in *.
      intros [[Hne Hin]%elem_delete Hrest]%IH. split; [done|].
      intros m1 [[= <- <-]|H1]%elem_of_cons; [done | by apply Hrest].
    + intros [Hin Hrest]%IH. split; [done|].
      intros m1 [[= <- <-]|H1]%elem_of_cons; [done | by apply Hrest].
Qed.
End forfeit.

Lemma withdraw_short socket waiting p :
  (length waiting ≤ 1)%nat → p ∈ withdraw socket waiting → socketId p ≠ socket.
Proof.
  rewrite withdraw_eq. destruct waiting as [|x [|y l]]; simpl; [| |lia].
  - by intros _ ?%elem_of_nil.
  - intros _. case_bool_decide as Hx; [by intros ?%elem_of_nil|].
    by intros ->%list_elem_of_singleton.
Qed.

(** C9.  When a connection drops, the other participant of every match the
    connection takes part in is sent the opponent-disconnect notice, the
    handler sends nothing else (no battle-end message, so no trophy change,
    and nothing to the player store), every such match leaves the registry,
    the matches that stay are the ones the connection has no part in, and no
    waiting entry of the connection is left in the queue. *)
Theorem C9_disconnect st socket :
  reachable st →
  let st' := (on_disconnect socket st).1 in
  let out := (on_disconnect socket st).2 in
  (∀ k m mine other,
     (k, m) ∈ activeMatches st →
     mine ∈ match_players m → socketId mine = socket →
     other ∈ match_players m → socketId other ≠ socket →
     Emit (socketId other) pvp_opponent_disconnect ∈ out ∧
     JsMap.get k (activeMatches st') = None) ∧
  (∀ e, e ∈ out → ∃ to, e = Emit to pvp_opponent_disconnect) ∧
  (∀ k m, (k, m) ∈ activeMatches st' →
     (k, m) ∈ activeMatches st ∧ ∀ p, p ∈ match_players m → socketId p ≠ socket) ∧
  (∀ p, p ∈ waitingPlayers st' → socketId p ≠ socket).
Proof.
  intros Hst%reachable_inv st' out. subst st' out. unfold on_disconnect.
  pose proof (forfeit_all_deleted socket (activeMatches st) (activeMatches st)) as Hdel.
  pose proof (forfeit_all_notice socket (activeMatches st) (activeMatches st)) as Hnot.
  pose proof (forfeit_all_only_notices socket (activeMatches st) (activeMatches st)) as Honly.
  pose proof (forfeit_all_kept socket (activeMatches st) (activeMatches st)) as Hkept.
  destruct (forfeit_all socket (activeMatches st) (activeMatches st)) as [active notices].
  simpl in *. split_and!.
  - intros k m mine other Hin Hmine Hs Hother Hne.
    assert (some (λ p, bool_decide (socketId p = socket)) (match_players m) = true) as Hsome.
    { apply some_true. exists mine. split; [done | by apply bool_decide_eq_true_2]. }
    split; [|by eapply Hdel].
    destruct Hst as [Hm _ _].
    pose proof (proj1 (Forall_forall _ _) Hm (k, m) Hin) as Hwf. simpl in Hwf.
    destruct Hwf as (pl1 & pl2 & _ & _ & Hpl & _).
    assert (∃ opponent,
              find (λ p, bool_decide (socketId p ≠ socket)) (match_players m)
              = Some opponent ∧ socketId opponent = socketId other) as (opp & Hf & <-).
    { rewrite Hpl in Hmine, Hother |- *. simpl.
      apply elem_of_cons in Hmine as [-> | ->%list_elem_of_singleton];
        apply elem_of_cons in Hother as [-> | ->%list_elem_of_singleton];
        try done.
      - rewrite bool_decide_eq_false_2 by (by intros []).
        rewrite bool_decide_eq_true_2 by done. eauto.
      - rewrite bool_decide_eq_true_2 by done. eauto. }
    by eapply Hnot.
  - done.
  - intros k m [Hin Hrest]%Hkept. split; [done|].
    specialize (Hrest m Hin). intros p Hp Hs.
    assert (some (λ p, bool_decide (socketId p = socket)) (match_players m) = true) as Hsome.
    { apply some_true. exists p. split; [done | by apply bool_decide_eq_true_2]. }
    congruence.
  - intros p. apply withdraw_short. apply Hst.
Qed.

(** C9 on a sample: A and B are in a match and A has chosen; A drops. *)
Lemma C9_disconnect_sample :
  Emit "sb" pvp_opponent_disconnect ∈ (on_disconnect "sa" (state_after first_attack)).2 ∧
  JsMap.get "m1" (activeMatches (on_disconnect "sa" (state_after first_attack)).1) = None.
Proof.
  destruct (C9_disconnect _ "sa" first_attack_reachable) as [H _].
  assert ((λ o, match o with
                | Some m => Some (match_players m)
                | None => None
                end) (JsMap.get "m1" (activeMatches (state_after first_attack)))
          = Some [waitingEntry "sa" alice; waitingEntry "sb" bob]) as Hobs
    by (vm_compute; reflexivity).
  destruct (JsMap.get "m1" (activeMatches (state_after first_attack))) as [m|] eqn:Hget.
  2: exfalso; exact (eq_ind None (λ o, if o is None then True else False) I _ Hobs).
  injection Hobs as Hpl. apply get_Some_elem in Hget.
  apply (H "m1" m (waitingEntry "sa" alice) (waitingEntry "sb" bob) Hget).
  - rewrite Hpl. left.
  - reflexivity.
  - rewrite Hpl. right. left.
  - intros [=].
Defined.

(** ** Further invariants of the registry *)

Lemma match_shape_new uuid now pl1 pl2 :
  playerId pl1 ≠ playerId pl2 → match_shape uuid (newMatch uuid now pl1 pl2).
Proof.
  intros Hne. destruct (createBattleState_lookup pl1 pl2 Hne) as [H1 H2].
  split;
    change (first_id (newMatch uuid now pl1 pl2)) with (playerId pl1);
    change (second_id (newMatch uuid now pl1 pl2)) with (playerId pl2);
    rewrite ?(combatant_lookup (newMatch uuid now pl1 pl2) _ _ H1);
    rewrite ?(combatant_lookup (newMatch uuid now pl1 pl2) _ _ H2).
  - done.
  - simpl. lia.
  - by left.
  - done.
  - done.
  - simpl. rewrite !dom_insert_L, dom_empty_L, (right_id_L ∅ (∪)).
    apply (comm_L (∪)).
Qed.

Lemma bp_entry_after b d : bp_entry (cooled (damaged d (charged b))) = bp_entry b.
Proof. rewrite bp_entry_cooled. simpl. by rewrite bp_entry_charged. Qed.

Lemma maxHp_after b d : maxHp (cooled (damaged d (charged b))) = maxHp b.
Proof.
  unfold cooled, damaged, charged. repeat case_decide; done.
Qed.

Lemma wf_match_ids m :
  wf_match m →
  first_id m ≠ second_id m ∧
  players (battleState m) !! first_id m = Some (combatant m (first_id m)) ∧
  players (battleState m) !! second_id m = Some (combatant m (second_id m)) ∧
  ∃ pl1 pl2, match_players m = [pl1; pl2] ∧
             playerId pl1 = first_id m ∧ playerId pl2 = second_id m.
Proof.
  intros (pl1 & pl2 & b1 & b2 & Hpl & Hne & Hids & H1 & H2 & _).
  unfold first_id, second_id, combatant. rewrite Hids. simpl.
  rewrite (lookup_total_correct _ _ _ H1), (lookup_total_correct _ _ _ H2).
  split_and!; eauto.
Qed.

Lemma match_shape_frame k m : match_shape k m → match_frame k m.
Proof. intros [? ? ? ? ? ?]. unfold match_frame. tauto. Qed.

Lemma match_frame_record socket matchId action_ st m player bp k :
  match_frame k m →
  accepted socket matchId action_ st m player bp →
  match_frame k (recordAction player action_ m).
Proof.
  intros (Hk & Ht & Hmax & Hent & Hdom) (_ & _ & _ & Hbp & _).
  assert (∀ p, bp_entry (combatant (recordAction player action_ m) p)
               = bp_entry (combatant m p) ∧
               maxHp (combatant (recordAction player action_ m) p)
               = maxHp (combatant m p)) as Hsame.
  { intros p. unfold combatant. simpl.
    destruct (decide (playerId player = p)) as [<-|Hp'].
    - rewrite lookup_total_alter_eq, Hbp. simpl.
      by rewrite (lookup_total_correct _ _ _ Hbp).
    - by rewrite lookup_total_alter_ne. }
  change (first_id (recordAction player action_ m)) with (first_id m).
  change (second_id (recordAction player action_ m)) with (second_id m).
  unfold match_frame.
  change (first_id (recordAction player action_ m)) with (first_id m).
  change (second_id (recordAction player action_ m)) with (second_id m).
  destruct (Hsame (first_id m)) as [-> ->].
  destruct (Hsame (second_id m)) as [-> ->].
  split_and!; try done; try apply Hmax. simpl. by rewrite dom_alter_L.
Qed.

Lemma match_shape_record socket matchId action_ st m player bp k :
  wf_match m → match_shape k m →
  accepted socket matchId action_ st m player bp →
  allSubmitted (battleState (recordAction player action_ m)) = Some false →
  match_shape k (recordAction player action_ m).
Proof.
  intros Hwf Hshape Hacc Hall.
  destruct (match_frame_record _ _ _ _ _ _ _ _ (match_shape_frame _ _ Hshape) Hacc)
    as (Hk & Ht & Hmax & Hent & Hdom).
  pose proof (wf_match_record _ _ _ _ _ _ _ Hwf Hacc) as Hwf'.
  destruct (wf_match_ids _ Hwf') as (_ & L1' & L2' & _).
  split; try done.
  unfold allSubmitted in Hall.
  destruct (playerIds (battleState (recordAction player action_ m))) as [p1 p2] eqn:Hids.
  unfold first_id, second_id in *. rewrite Hids in *. cbn [fst snd] in *.
  rewrite L1' in Hall. cbn [mbind option_bind] in Hall. case_decide as Ha1.
  - rewrite L2' in Hall. cbn [mbind option_bind] in Hall.
    injection Hall as Ha2%bool_decide_eq_false. right.
    destruct (decide (action (combatant (recordAction player action_ m) p2) = None))
      as [E|E]; [exact E | destruct (Ha2 E)].
  - left. exact Ha1.
Qed.

Lemma match_shape_continue matchId m rnd1 rnd2 active k :
  resolving_match m → match_frame k m →
  let r := concludeTurn matchId m active (store_after m rnd1 rnd2)
             (dealt1 (combatant m (first_id m)) (combatant m (second_id m)) rnd1)
             (dealt2 (combatant m (first_id m)) (combatant m (second_id m)) rnd2) in
  truthy (r_winner r) = false →
  match_shape k (r_match r).
Proof.
  intros Hres (Hk & Ht & Hmax & Hent & Hdom) r Hw.
  destruct (resolved_combatants matchId m rnd1 rnd2 active Hres) as [C1 C2].
  cbv zeta in C1, C2. fold r in C1, C2. rewrite Hw in C1, C2.
  pose proof (concludeTurn_playerIds matchId m active (store_after m rnd1 rnd2)
    (dealt1 (combatant m (first_id m)) (combatant m (second_id m)) rnd1)
    (dealt2 (combatant m (first_id m)) (combatant m (second_id m)) rnd2)) as Pids.
  pose proof (concludeTurn_turn matchId m active (store_after m rnd1 rnd2)
    (dealt1 (combatant m (first_id m)) (combatant m (second_id m)) rnd1)
    (dealt2 (combatant m (first_id m)) (combatant m (second_id m)) rnd2)) as Pturn.
  pose proof (concludeTurn_match_players matchId m active (store_after m rnd1 rnd2)
    (dealt1 (combatant m (first_id m)) (combatant m (second_id m)) rnd1)
    (dealt2 (combatant m (first_id m)) (combatant m (second_id m)) rnd2)) as Pmp.
  pose proof (concludeTurn_players matchId m active (store_after m rnd1 rnd2)
    (dealt1 (combatant m (first_id m)) (combatant m (second_id m)) rnd1)
    (dealt2 (combatant m (first_id m)) (combatant m (second_id m)) rnd2)) as Ppl.
  cbv zeta in Pids, Pturn, Pmp, Ppl. fold r in Pids, Pturn, Pmp, Ppl.
  rewrite Hw in Pturn, Ppl.
  assert (match_id (r_match r) = match_id m) as Pid.
  { subst r. unfold concludeTurn.
    destruct (playerIds (battleState m)). by destruct (truthy (checkWinner _ _ _)). }
  assert (first_id (r_match r) = first_id m) as F1 by (unfold first_id; by rewrite Pids).
  assert (second_id (r_match r) = second_id m) as F2 by (unfold second_id; by rewrite Pids).
  split; rewrite ?F1, ?F2, ?C1, ?C2.
  - by rewrite Pid.
  - rewrite Pturn. lia.
  - by left.
  - simpl. unfold after1, after2. by rewrite !maxHp_after.
  - rewrite Pmp. simpl. unfold after1, after2. by rewrite !bp_entry_after.
  - rewrite Ppl, !dom_alter_L. unfold store_after. rewrite !dom_insert_L, Hdom.
    apply set_eq. intros x. rewrite !elem_of_union, !elem_of_singleton. tauto.
Qed.

(** Every match of a reachable state has the shape. *)
Lemma handle_shaped e st st' out :
  inv st → shaped st → event_ok e → handle e st = Some (st', out) → shaped st'.
Proof.
  intros Hinv Hsh Hok.
  destruct e as [socket pd uuid now|socket|socket|socket matchId a rnd1 rnd2|socket|socket];
    simpl; try done.
  - intros [= H]. unfold on_queue in H.
    pose proof (enqueue_NoDup socket pd _ (inv_distinct _ Hinv)) as Hd.
    pose proof (enqueue_length socket pd (waitingPlayers st)) as Hl.
    pose proof (inv_short _ Hinv) as Hs.
    unfold tryMatchPlayers in H. simpl in H.
    destruct (enqueue socket pd (waitingPlayers st)) as [|pl1 [|pl2 rest]];
      simpl in H; injection H as <- _; try done.
    unfold shaped. simpl. apply Forall_set; [|done]. simpl.
    apply match_shape_new. simpl in Hd. apply NoDup_cons in Hd as [Hd _].
    intros E. apply Hd. rewrite E. left.
  - by intros [= <- _].
  - unfold on_submit_action.
    destruct (submit_action _ _ _ _ _ _) as [[[st1 out1] res]|] eqn:H; [|done].
    simpl. intros [= <- _]. destruct Hok as [Hr1 Hr2].
    apply submit_action_inv in H
      as [(-> & _)|(m & player & bp & Hacc & [(Hall & -> & _)|(Hall & r & Hr & -> & _)])];
      [done|..].
    all: assert (wf_match m ∧ match_shape matchId m) as [Hwf Hshape]
      by (destruct Hacc as [Hget%get_Some_elem _]; split;
          [exact (proj1 (Forall_forall _ _) (inv_matches _ Hinv) (matchId, m) Hget)
          |exact (proj1 (Forall_forall _ _) Hsh (matchId, m) Hget)]).
    + unfold shaped. simpl. apply Forall_set; [|done]. simpl.
      by eapply match_shape_record.
    + unfold shaped. simpl.
      pose proof (wf_match_record _ _ _ _ _ _ _ Hwf Hacc) as Hwf'.
      pose proof (resolving_match_intro _ Hwf' Hall) as Hres.
      pose proof (match_frame_record _ _ _ _ _ _ _ _
                    (match_shape_frame _ _ Hshape) Hacc) as Hframe.
      cbv zeta in Hr. rewrite (resolveTurn_resolving _ _ _ _ _ Hres) in Hr.
      injection Hr as <-.
      match goal with |- context [concludeTurn _ ?m2 _ _ _ _] => set (m2' := m2) in * end.
      assert (match_frame matchId m2') as Hframe' by exact Hframe.
      rewrite concludeTurn_activeMatches.
      destruct (truthy (r_winner _)) eqn:Hw.
      * by apply Forall_delete.
      * apply Forall_set; [|done]. simpl.
        by apply (match_shape_continue matchId m2' rnd1 rnd2 (activeMatches st)).
  - intros [= H]. unfold on_disconnect in H.
    pose proof (forfeit_all_Forall (λ km, match_shape km.1 km.2) socket
                  (activeMatches st) (activeMatches st) Hsh) as Hf.
    destruct (forfeit_all _ _ _) as [active notices]. by injection H as <- _.
Qed.

Theorem reachable_shaped st : reachable st → shaped st.
Proof.
  induction 1 as [|st e st' out Hst IH Hok Hstep].
  - constructor.
  - eapply handle_shaped; eauto using reachable_inv.
Qed.

(** ** Further properties of the PvP handlers *)

Lemma registry_entry st k m :
  reachable st → (k, m) ∈ activeMatches st → wf_match m ∧ match_shape k m.
Proof.
  intros Hst Hin. split.
  - exact (proj1 (Forall_forall _ _) (inv_matches _ (reachable_inv _ Hst)) (k, m) Hin).
  - exact (proj1 (Forall_forall _ _) (reachable_shaped _ Hst) (k, m) Hin).
Qed.

(** X1.  Every entry of [battle.players] of every match of a reachable state
    has [maxHp] 100 and hit points between 0 and [maxHp]; the same bounds hold
    for both combatants of the match object a call of [resolveTurn] leaves
    behind, finished or not. *)
Theorem hp_within_bounds st :
  reachable st →
  (∀ k m pid b,
     (k, m) ∈ activeMatches st → players (battleState m) !! pid = Some b →
     maxHp b = 100 ∧ 0 ≤ hp b ≤ maxHp b) ∧
  (∀ socket matchId action_ rnd1 rnd2 st' out m r pid,
     random_ok rnd1 → random_ok rnd2 →
     submit_action socket matchId action_ rnd1 rnd2 st = Some (st', out, Some (m, r)) →
     pid = first_id m ∨ pid = second_id m →
     0 ≤ hp (combatant (r_match r) pid) ≤ 100 ∧
     hp (combatant (r_match r) pid) ≤ hp (combatant m pid)).
Proof.
  intros Hst. split.
  - intros k m pid b Hin Hb.
    destruct (registry_entry _ _ _ Hst Hin) as [Hwf [_ _ _ [M1 M2] _ Hdom]].
    destruct (wf_match_ids _ Hwf) as (_ & L1 & L2 & _).
    destruct Hwf as (pl1 & pl2 & b1 & b2 & _ & _ & Hids & H1 & H2 & W1 & W2 & _).
    assert (pid ∈ dom (players (battleState m))) as Hpid by (apply elem_of_dom; eauto).
    rewrite Hdom in Hpid. unfold first_id, second_id in *. rewrite Hids in *.
    simpl in *. rewrite H1 in L1. rewrite H2 in L2.
    injection L1 as E1. injection L2 as E2.
    apply elem_of_union in Hpid as [->%elem_of_singleton | ->%elem_of_singleton].
    + rewrite H1 in Hb. injection Hb as <-. rewrite <- E1 in M1.
      destruct W1 as [? _ _ _]. lia.
    + rewrite H2 in Hb. injection Hb as <-. rewrite <- E2 in M2.
      destruct W2 as [? _ _ _]. lia.
  - intros socket matchId action_ rnd1 rnd2 st' out m r pid Hr1 Hr2 H Hpid.
    pose proof (reachable_inv _ Hst) as Hinv.
    destruct (submit_action_resolves _ _ _ _ _ _ _ _ _ _ Hinv H) as (Hres & Hr & _).
    destruct (resolved_combatants matchId m rnd1 rnd2 (activeMatches st) Hres) as [C1 C2].
    cbv zeta in C1, C2. rewrite <- Hr in C1, C2.
    pose proof (dealt1_range (combatant m (first_id m)) (combatant m (second_id m))
                  rnd1 Hr1) as D1.
    pose proof (dealt2_range (combatant m (first_id m)) (combatant m (second_id m))
                  rnd2 Hr2) as D2.
    destruct (resolving_wf_first m Hres) as [W1 _ _ _].
    destruct (resolving_wf_second m Hres) as [W2 _ _ _].
    destruct Hpid as [-> | ->].
    + rewrite C1. destruct (truthy _); cbn [hp set_action]; unfold after1;
        rewrite hp_after; lia.
    + rewrite C2. destruct (truthy _); cbn [hp set_action]; unfold after2;
        rewrite hp_after; lia.
Qed.

(** X1 on the sample session: after the first turn A is at 85 of 100. *)
Lemma hp_within_bounds_sample :
  match JsMap.get "m1" (activeMatches (state_after after_special)) with
  | Some m => match players (battleState m) !! "A" with
              | Some b => hp b = 85 ∧ maxHp b = 100 ∧ 0 ≤ hp b ≤ maxHp b
              | None => False
              end
  | None => False
  end.
Proof.
  assert (reachable (state_after after_special)) as Hreach.
  { apply state_after_reachable.
    - simpl; events_ok.
    - vm_compute. eauto. }
  destruct (hp_within_bounds _ Hreach) as [H _].
  assert ((λ o, match o with
                | Some m => Some (hp <$> players (battleState m) !! "A")
                | None => None
                end) (JsMap.get "m1" (activeMatches (state_after after_special)))
          = Some (Some 85)) as Hobs by (vm_compute; reflexivity).
  destruct (JsMap.get "m1" (activeMatches (state_after after_special))) as [m|] eqn:Hget.
  2: exfalso; exact (eq_ind None (λ o, if o is None then True else False) I _ Hobs).
  injection Hobs as Hobs.
  destruct (players (battleState m) !! "A") as [b|] eqn:Hb.
  2: exfalso; exact (eq_ind None (λ o, if o is None then True else False) I _ Hobs).
  injection Hobs as Hhp.
  destruct (H "m1" m "A" b (get_Some_elem _ _ _ Hget) Hb) as [M B].
  split; [exact Hhp | split; [exact M | exact B]].
Defined.



(** X3.  Between two events at most one combatant of a match holds an
    action: as soon as the second one is recorded the turn is resolved within
    the same handler, so a turn is resolved once per pair of submissions. *)
Theorem one_pending_action st k m :
  reachable st → (k, m) ∈ activeMatches st →
  action (combatant m (first_id m)) = None ∨ action (combatant m (second_id m)) = None.
Proof. intros Hst Hin. by destruct (registry_entry _ _ _ Hst Hin) as [_ []]. Qed.

Lemma one_pending_action_sample :
  match JsMap.get "m1" (activeMatches (state_after first_attack)) with
  | Some m => action (combatant m (first_id m)) = Some "attack" ∧
              action (combatant m (second_id m)) = None
  | None => False
  end.
Proof.
  assert ((λ o, match o with
                | Some m => Some (action (combatant m (first_id m)))
                | None => None
                end) (JsMap.get "m1" (activeMatches (state_after first_attack)))
          = Some (Some "attack")) as Hobs by (vm_compute; reflexivity).
  pose proof (one_pending_action (state_after first_attack) "m1") as H.
  destruct (JsMap.get "m1" (activeMatches (state_after first_attack))) as [m|] eqn:Hget.
  2: exfalso; exact (eq_ind None (λ o, if o is None then True else False) I _ Hobs).
  injection Hobs as Ha. split; [exact Ha|].
  destruct (H m first_attack_reachable (get_Some_elem _ _ _ Hget)) as [E|E]; [|exact E].
  exfalso. rewrite Ha in E. exact (eq_ind (Some "attack")
    (λ o, if o is Some _ then True else False) I _ E).
Defined.

Lemma resolved_without_winner socket matchId action_ rnd1 rnd2 st st' out m r :
  inv st →
  submit_action socket matchId action_ rnd1 rnd2 st = Some (st', out, Some (m, r)) →
  truthy (r_winner r) = false →
  JsMap.get matchId (activeMatches st') = Some (r_match r) ∧
  status (battleState (r_match r)) = waiting_actions ∧
  turn (battleState (r_match r)) = turn (battleState m) + 1 ∧
  action (combatant (r_match r) (first_id m)) = None ∧
  action (combatant (r_match r) (second_id m)) = None.
Proof.
  intros Hinv H Hw.
  destruct (submit_action_resolves _ _ _ _ _ _ _ _ _ _ Hinv H) as (Hres & Hr & -> & _).
  destruct (resolved_combatants matchId m rnd1 rnd2 (activeMatches st) Hres) as [C1 C2].
  cbv zeta in C1, C2. rewrite <- Hr in C1, C2. rewrite Hw in C1, C2.
  rewrite C1, C2. split_and!; try done.
  - simpl. rewrite Hr at 1. rewrite concludeTurn_activeMatches, <- Hr, Hw.
    apply get_set.
  - rewrite Hr, concludeTurn_status, <- Hr. by rewrite Hw.
  - rewrite Hr, concludeTurn_turn, <- Hr. by rewrite Hw.
Qed.



(** X5.  Outside the double knock-out the winner is decided by who is left
    standing: when exactly one side is taken to zero or below, the other side
    wins, and when neither is, there is no winner. *)
Theorem single_knock_out socket matchId action_ rnd1 rnd2 st st' out m r :
  reachable st →
  submit_action socket matchId action_ rnd1 rnd2 st = Some (st', out, Some (m, r)) →
  let hp1 := hp (combatant m (first_id m)) - (r_damage r).2 in
  let hp2 := hp (combatant m (second_id m)) - (r_damage r).1 in
  (hp1 ≤ 0 → 0 < hp2 → r_winner r = Some (second_id m)) ∧
  (0 < hp1 → hp2 ≤ 0 → r_winner r = Some (first_id m)) ∧
  (0 < hp1 → 0 < hp2 → r_winner r = None).
Proof.
  intros Hst%reachable_inv H hp1 hp2.
  destruct (submit_action_resolves _ _ _ _ _ _ _ _ _ _ Hst H) as (Hres & Hr & _).
  pose proof (checkWinner_after m rnd1 rnd2 Hres) as Hc. cbv zeta in Hc.
  assert (r_winner r = checkWinner (first_id m) (second_id m) (store_after m rnd1 rnd2))
    as Hw by (rewrite Hr; apply concludeTurn_winner).
  assert (r_damage r = (dealt1 (combatant m (first_id m)) (combatant m (second_id m)) rnd1,
                        dealt2 (combatant m (first_id m)) (combatant m (second_id m)) rnd2))
    as Hd by (rewrite Hr; apply concludeTurn_damage).
  subst hp1 hp2. rewrite Hw, Hc, Hd. cbn [fst snd].
  split_and!; intros; repeat case_decide; try done; lia.
Qed.

Lemma single_knock_out_sample :
  match submit_action "sb" "m1" "defend" (1#2) 0 (state_after first_attack) with
  | Some (_, _, Some (m, r)) => r_winner r = None
  | _ => False
  end.
Proof.
  assert ((λ c, match c with
                | Some (_, _, Some (m, r)) =>
                    Some (hp (combatant m (first_id m)) - (r_damage r).2,
                          hp (combatant m (second_id m)) - (r_damage r).1)
                | _ => None
                end)
            (submit_action "sb" "m1" "defend" (1#2) 0 (state_after first_attack))
          = Some (100, 90)) as Hobs by (vm_compute; reflexivity).
  pose proof (λ st' out m r,
                single_knock_out "sb" "m1" "defend" (1#2) 0 _ st' out m r
                  first_attack_reachable) as Hthm.
  destruct (submit_action "sb" "m1" "defend" (1#2) 0 (state_after first_attack))
    as [[[st' out] [[m r]|]]|].
  2-3: exfalso; exact (eq_ind None (λ o, if o is None then True else False) I _ Hobs).
  injection Hobs as H1 H2.
  destruct (Hthm st' out m r eq_refl) as (_ & _ & H3).
  apply H3; [rewrite H1 | rewrite H2]; lia.
Defined.

Lemma nameless_reachable : reachable (state_after nameless_events).
Proof.
  apply state_after_reachable.
  - simpl; events_ok.
  - vm_compute. eauto.
Qed.

Lemma ready_notice_no_end socket m : Forall (λ e, is_battle_end e = false) (ready_notice socket m).
Proof. unfold ready_notice. destruct (find _ _); by repeat constructor. Qed.

(** X6.  The test of line 748 treats an empty winner id as no winner: when
    the side that wins a turn has the empty string as player id, the turn
    result is sent but no battle-end message, and the match stays in the
    registry, waiting for actions, although a combatant is at 0 hit points. *)
Theorem empty_winner_id_continues socket matchId action_ rnd1 rnd2 st st' out m r :
  reachable st →
  submit_action socket matchId action_ rnd1 rnd2 st = Some (st', out, Some (m, r)) →
  r_winner r = Some "" →
  status (battleState (r_match r)) = waiting_actions ∧
  JsMap.get matchId (activeMatches st') = Some (r_match r) ∧
  Forall (λ e, is_battle_end e = false) out ∧
  (hp (combatant (r_match r) (first_id m)) = 0 ∨
   hp (combatant (r_match r) (second_id m)) = 0).
Proof.
  intros Hst H Hw.
  assert (truthy (r_winner r) = false) as Htr by (by rewrite Hw).
  pose proof (reachable_inv _ Hst) as Hinv.
  destruct (resolved_without_winner _ _ _ _ _ _ _ _ _ _ Hinv H Htr) as (G & S & _).
  destruct (submit_action_resolves _ _ _ _ _ _ _ _ _ _ Hinv H)
    as (Hres & Hr & _ & m0 & _ & ->).
  split_and!; [done | done | |].
  - apply Forall_app. split; [apply ready_notice_no_end|].
    pose proof Hres as (pl1 & pl2 & Hpl & Hids & Hd & _).
    destruct (concludeTurn_effects matchId m (activeMatches st)
                (store_after m rnd1 rnd2)
                (dealt1 (combatant m (first_id m)) (combatant m (second_id m)) rnd1)
                (dealt2 (combatant m (first_id m)) (combatant m (second_id m)) rnd2)
                pl1 pl2 Hpl Hids Hd) as [tr Heff].
    cbv zeta in Heff. rewrite <- Hr in Heff. rewrite Hw in Heff.
    rewrite bool_decide_eq_false_2 in Heff by (by intros []).
    rewrite Heff. by repeat constructor.
  - destruct (resolved_combatants matchId m rnd1 rnd2 (activeMatches st) Hres) as [C1 C2].
    cbv zeta in C1, C2. rewrite <- Hr in C1, C2. rewrite Htr in C1, C2.
    rewrite C1, C2. cbn [hp set_action]. unfold after1, after2. rewrite !hp_after.
    pose proof (checkWinner_after m rnd1 rnd2 Hres) as Hc. cbv zeta in Hc.
    rewrite <- concludeTurn_winner with (matchId := matchId) (active := activeMatches st)
      (d1 := dealt1 (combatant m (first_id m)) (combatant m (second_id m)) rnd1)
      (d2 := dealt2 (combatant m (first_id m)) (combatant m (second_id m)) rnd2) in Hc.
    rewrite <- Hr, Hw in Hc.
    repeat case_decide; try done; lia.
Qed.

(** X6 on a sample: alice is beaten by the nameless player and nothing ends. *)
Lemma empty_winner_id_continues_sample :
  match submit_action "sb" "m1" "attack" 0 (15#16) (state_after nameless_events) with
  | Some (st', out, Some (m, r)) =>
      hp (combatant (r_match r) "A") = 0 ∧
      status (battleState (r_match r)) = waiting_actions ∧
      JsMap.get "m1" (activeMatches st') = Some (r_match r)
  | _ => False
  end.
Proof.
  assert ((λ c, match c with
                | Some (_, _, Some (m, r)) =>
                    Some (r_winner r, hp (combatant (r_match r) "A"))
                | _ => None
                end)
            (submit_action "sb" "m1" "attack" 0 (15#16) (state_after nameless_events))
          = Some (Some "", 0)) as Hobs by (vm_compute; reflexivity).
  pose proof (λ st' out m r,
                empty_winner_id_continues "sb" "m1" "attack" 0 (15#16) _ st' out m r
                  nameless_reachable) as Hthm.
  destruct (submit_action "sb" "m1" "attack" 0 (15#16) (state_after nameless_events))
    as [[[st' out] [[m r]|]]|].
  2-3: exfalso; exact (eq_ind None (λ o, if o is None then True else False) I _ Hobs).
  injection Hobs as Hw Hhp.
  destruct (Hthm st' out m r eq_refl Hw) as (S & G & _).
  split; [exact Hhp | split; [exact S | exact G]].
Defined.




Lemma lookup_pair {A} (p1 p2 : string) (x y : A) :
  p1 ≠ p2 →
  (<[p2 := y]> (<[p1 := x]> ∅) : gmap string A) !! p1 = Some x ∧
  (<[p2 := y]> (<[p1 := x]> ∅) : gmap string A) !! p2 = Some y.
Proof.
  intros Hne. split.
  - rewrite lookup_insert_ne by done. apply lookup_insert_eq.
  - apply lookup_insert_eq.
Qed.

(** The turn result of lines 709-727 for two distinct players. *)
Lemma concludeTurn_turn_result matchId m active h d1 d2 pl1 pl2 :
  match_players m = [pl1; pl2] →
  playerIds (battleState m) = (playerId pl1, playerId pl2) →
  playerId pl1 ≠ playerId pl2 →
  let r := concludeTurn matchId m active h d1 d2 in
  ∃ tr rest,
    r_effects r =
      Emit (socketId pl1) (pvp_turn_result tr (playerId pl1) (playerId pl2))
      :: Emit (socketId pl2) (pvp_turn_result tr (playerId pl2) (playerId pl1))
      :: rest ∧
    tr_turn tr = turn (battleState m) ∧
    tr_actions tr !! playerId pl1 = Some (action (h !!! playerId pl1)) ∧
    tr_actions tr !! playerId pl2 = Some (action (h !!! playerId pl2)) ∧
    tr_damage tr !! playerId pl1 = Some d2 ∧
    tr_damage tr !! playerId pl2 = Some d1 ∧
    tr_hp tr !! playerId pl1 = Some (hp (h !!! playerId pl1)) ∧
    tr_hp tr !! playerId pl2 = Some (hp (h !!! playerId pl2)) ∧
    tr_specialCooldown tr !! playerId pl1 = Some (specialCooldown (h !!! playerId pl1)) ∧
    tr_specialCooldown tr !! playerId pl2 = Some (specialCooldown (h !!! playerId pl2)).
Proof.
  intros Hpl Hids Hne. unfold concludeTurn. rewrite Hids, Hpl.
  set (tr := {| tr_turn := turn (battleState m); tr_actions := _; tr_damage := _;
                tr_hp := _; tr_specialCooldown := _ |}).
  exists tr.
  assert (tr_turn tr = turn (battleState m) ∧
    tr_actions tr !! playerId pl1 = Some (action (h !!! playerId pl1)) ∧
    tr_actions tr !! playerId pl2 = Some (action (h !!! playerId pl2)) ∧
    tr_damage tr !! playerId pl1 = Some d2 ∧
    tr_damage tr !! playerId pl2 = Some d1 ∧
    tr_hp tr !! playerId pl1 = Some (hp (h !!! playerId pl1)) ∧
    tr_hp tr !! playerId pl2 = Some (hp (h !!! playerId pl2)) ∧
    tr_specialCooldown tr !! playerId pl1 = Some (specialCooldown (h !!! playerId pl1)) ∧
    tr_specialCooldown tr !! playerId pl2 = Some (specialCooldown (h !!! playerId pl2)))
    as Htr.
  { subst tr. cbn [tr_turn tr_actions tr_damage tr_hp tr_specialCooldown].
    split_and!; try done; by apply lookup_pair. }
  clearbody tr.
  destruct (truthy (checkWinner _ _ _)); cbn [fmap list_fmap app r_effects];
    rewrite decide_True by done; rewrite decide_False by done;
    eexists; (split; [reflexivity | exact Htr]).
Qed.

(** X8.  After a resolved turn both participants are sent the same turn
    result, each with its own id as [yourId] and the other id as
    [opponentId].  The result carries the number of the turn, the actions
    played, for each id the damage that side took (what the other side dealt
    after mitigation), and the hit points and cooldown each side is left
    with. *)
Theorem turn_result_content socket matchId action_ rnd1 rnd2 st st' out m r :
  reachable st →
  submit_action socket matchId action_ rnd1 rnd2 st = Some (st', out, Some (m, r)) →
  let p1 := first_id m in
  let p2 := second_id m in
  ∃ pl1 pl2 tr rest,
    match_players m = [pl1; pl2] ∧ playerId pl1 = p1 ∧ playerId pl2 = p2 ∧
    r_effects r = Emit (socketId pl1) (pvp_turn_result tr p1 p2)
                  :: Emit (socketId pl2) (pvp_turn_result tr p2 p1) :: rest ∧
    tr_turn tr = turn (battleState m) ∧
    tr_actions tr !! p1 = Some (action (combatant m p1)) ∧
    tr_actions tr !! p2 = Some (action (combatant m p2)) ∧
    tr_damage tr !! p1 = Some (r_damage r).2 ∧
    tr_damage tr !! p2 = Some (r_damage r).1 ∧
    tr_hp tr !! p1 = Some (hp (combatant (r_match r) p1)) ∧
    tr_hp tr !! p2 = Some (hp (combatant (r_match r) p2)) ∧
    tr_specialCooldown tr !! p1 = Some (specialCooldown (combatant (r_match r) p1)) ∧
    tr_specialCooldown tr !! p2 = Some (specialCooldown (combatant (r_match r) p2)).
Proof.
  intros Hst%reachable_inv H p1 p2.
  destruct (submit_action_resolves _ _ _ _ _ _ _ _ _ _ Hst H) as (Hres & Hr & _).
  pose proof Hres as (pl1 & pl2 & Hpl & Hids & Hd & _).
  assert (playerId pl1 = p1 ∧ playerId pl2 = p2) as [I1 I2]
    by (subst p1 p2; unfold first_id, second_id; by rewrite Hids).
  destruct (concludeTurn_turn_result matchId m (activeMatches st)
              (store_after m rnd1 rnd2)
              (dealt1 (combatant m (first_id m)) (combatant m (second_id m)) rnd1)
              (dealt2 (combatant m (first_id m)) (combatant m (second_id m)) rnd2)
              pl1 pl2 Hpl Hids Hd)
    as (tr & rest & Heff & T & A1 & A2 & D1 & D2 & P1 & P2 & S1 & S2).
  cbv zeta in Heff. rewrite <- Hr in Heff. rewrite I1, I2 in *. subst p1 p2.
  rewrite store_after_first in A1, P1, S1 by done.
  rewrite store_after_second in A2, P2, S2 by done.
  destruct (resolved_combatants matchId m rnd1 rnd2 (activeMatches st) Hres) as [C1 C2].
  cbv zeta in C1, C2. rewrite <- Hr in C1, C2.
  assert (r_damage r =
          (dealt1 (combatant m (first_id m)) (combatant m (second_id m)) rnd1,
           dealt2 (combatant m (first_id m)) (combatant m (second_id m)) rnd2)) as Hdmg
    by (rewrite Hr; apply concludeTurn_damage).
  exists pl1, pl2, tr, rest. rewrite Hdmg, C1, C2. cbn [fst snd].
  unfold after1, after2 in *. rewrite !action_after in A1, A2.
  split_and!; try done; destruct (truthy _); done.
Qed.

Lemma turn_result_content_sample :
  match submit_action "sb" "m1" "defend" (1#2) 0 (state_after first_attack) with
  | Some (_, _, Some (m, r)) =>
      ∃ tr rest,
        r_effects r = Emit "sa" (pvp_turn_result tr "A" "B")
                      :: Emit "sb" (pvp_turn_result tr "B" "A") :: rest ∧
        tr_damage tr !! "B" = Some 10 ∧ tr_hp tr !! "B" = Some 90
  | _ => False
  end.
Proof.
  assert ((λ c, match c with
                | Some (_, _, Some (m, r)) =>
                    Some (match_players m, (r_damage r).1,
                          hp (combatant (r_match r) (second_id m)))
                | _ => None
                end)
            (submit_action "sb" "m1" "defend" (1#2) 0 (state_after first_attack))
          = Some ([waitingEntry "sa" alice; waitingEntry "sb" bob], 10, 90)) as Hobs
    by (vm_compute; reflexivity).
  pose proof (λ st' out m r,
                turn_result_content "sb" "m1" "defend" (1#2) 0 _ st' out m r
                  first_attack_reachable) as Hthm.
  destruct (submit_action "sb" "m1" "defend" (1#2) 0 (state_after first_attack))
    as [[[st' out] [[m r]|]]|].
  2-3: exfalso; exact (eq_ind None (λ o, if o is None then True else False) I _ Hobs).
  injection Hobs as Hpl Hd Hhp.
  destruct (Hthm st' out m r eq_refl)
    as (pl1 & pl2 & tr & rest & Hpl' & I1 & I2 & Heff & _ & _ & _ & _ & D2 & _ & P2 & _).
  rewrite Hpl in Hpl'. injection Hpl' as <- <-.
  rewrite <- I1, <- I2 in Heff. rewrite <- I2 in D2, P2, Hhp.
  exists tr, rest. split; [exact Heff|]. split.
  - rewrite <- Hd. exact D2.
  - rewrite <- Hhp. exact P2.
Defined.

Lemma remove_first_other {A} (f : A → bool) (l : list A) x :
  x ∈ l → f x = false → x ∈ remove_first f l.
Proof.
  induction l as [|y l IH]; simpl; [done|].
  intros [->|Hin]%elem_of_cons Hx.
  - rewrite Hx. left.
  - destruct (f y); [done|]. right. by apply IH.
Qed.

(** X9.  Leaving the queue sends nothing and touches no match.  In a
    reachable state it removes the waiting entry of the connection, keeps
    every entry of another connection, and changes nothing at all when the
    connection has no entry. *)
Theorem leave_withdraws st socket :
  reachable st →
  (on_leave socket st).2 = [] ∧
  activeMatches (on_leave socket st).1 = activeMatches st ∧
  (∀ p, p ∈ waitingPlayers (on_leave socket st).1 → socketId p ≠ socket) ∧
  (∀ p, p ∈ waitingPlayers st → socketId p ≠ socket →
        p ∈ waitingPlayers (on_leave socket st).1) ∧
  ((∀ p, p ∈ waitingPlayers st → socketId p ≠ socket) → (on_leave socket st).1 = st).
Proof.
  intros Hst%reachable_inv. simpl. split_and!; try done.
  - intros p. apply withdraw_short. apply Hst.
  - intros p Hin Hs. rewrite withdraw_eq. apply remove_first_other; [done|].
    by apply bool_decide_eq_false_2.
  - intros Hno. destruct st as [waiting active]. simpl in *. f_equal.
    rewrite withdraw_eq. apply remove_first_none.
    apply Forall_forall. intros p Hp. apply bool_decide_eq_false_2. by apply Hno.
Qed.

Lemma leave_withdraws_sample :
  waitingPlayers (on_leave "sa" (state_after [pvp_queue "sa" alice "m0" 0])).1 = [] ∧
  (on_leave "sb" (state_after [pvp_queue "sa" alice "m0" 0])).1
  = state_after [pvp_queue "sa" alice "m0" 0].
Proof.
  assert (reachable (state_after [pvp_queue "sa" alice "m0" 0])) as Hr.
  { apply state_after_reachable; [by repeat constructor | by eexists]. }
  split.
  - destruct (leave_withdraws _ "sa" Hr) as (_ & _ & H & _).
    destruct (waitingPlayers (on_leave "sa" _).1) as [|p l] eqn:E; [reflexivity|].
    exfalso. apply (H p); [left|].
    assert (p ∈ waitingPlayers (on_leave "sa" (state_after [pvp_queue "sa" alice "m0" 0])).1)
      as Hin by (rewrite E; left).
    vm_compute in Hin. by apply elem_of_nil in Hin.
  - destruct (leave_withdraws _ "sb" Hr) as (_ & _ & _ & _ & H). apply H.
    intros p Hin. vm_compute in Hin.
    apply list_elem_of_singleton in Hin as ->. intros [=].
Defined.

Lemma forfeit_all_uninvolved socket entries active :
  (∀ k m, (k, m) ∈ entries → ∀ p, p ∈ match_players m → socketId p ≠ socket) →
  forfeit_all socket entries active = (active, []).
Proof.
  induction entries as [|[k m] entries IH]; intros Hno; simpl; [done|].
  assert (some (λ p, bool_decide (socketId p = socket)) (match_players m) = false) as ->.
  { apply not_true_iff_false. intros (p & Hp & Hs%bool_decide_eq_true)%some_true.
    apply (Hno k m (list_elem_of_here _ _) p Hp Hs). }
  apply IH. intros k' m' Hin. apply (Hno k' m'). by right.
Qed.

(** X10.  A disconnect of a connection that neither waits in the queue nor
    takes part in a match changes nothing and sends nothing. *)
Theorem disconnect_uninvolved st socket :
  (∀ p, p ∈ waitingPlayers st → socketId p ≠ socket) →
  (∀ k m, (k, m) ∈ activeMatches st → ∀ p, p ∈ match_players m → socketId p ≠ socket) →
  on_disconnect socket st = (st, []).
Proof.
  intros Hq Hm. unfold on_disconnect. rewrite (forfeit_all_uninvolved _ _ _ Hm).
  destruct st as [waiting active]. simpl in *. f_equal. f_equal.
  rewrite withdraw_eq. apply remove_first_none.
  apply Forall_forall. intros p Hp. apply bool_decide_eq_false_2. by apply Hq.
Qed.

Lemma disconnect_uninvolved_sample :
  on_disconnect "sz" (state_after [pvp_queue "sa" alice "m0" 0])
  = (state_after [pvp_queue "sa" alice "m0" 0], []).
Proof.
  apply disconnect_uninvolved.
  - intros p Hin. vm_compute in Hin. apply list_elem_of_singleton in Hin as ->.
    intros [=].
  - intros k m Hin. vm_compute in Hin. by apply elem_of_nil in Hin.
Defined.

Lemma resolveTurn_activeMatches matchId m rnd1 rnd2 active r :
  resolveTurn matchId m rnd1 rnd2 active = Some r →
  r_activeMatches r =
    if truthy (r_winner r) then JsMap.delete matchId active
    else JsMap.set matchId (r_match r) active.
Proof.
  unfold resolveTurn. destruct (playerIds (battleState m)) as [p1 p2].
  case_decide; [|done].
  destruct (baseDamage p1 rnd1 _) as [d1 h1]. destruct (baseDamage p2 rnd2 _) as [d2 h2].
  intros [= <-]. apply concludeTurn_activeMatches.
Qed.

Lemma forfeit_all_absent socket entries active k :
  JsMap.get k active = None → JsMap.get k (forfeit_all socket entries active).1 = None.
Proof.
  revert active. induction entries as [|[matchId m] entries IH]; intros active Ha; simpl.
  - done.
  - destruct (some _ _).
    + specialize (IH (JsMap.delete matchId active) (get_delete_None _ _ _ Ha)).
      by destruct (forfeit_all socket entries _).
    + by apply IH.
Qed.

(** An id under which no match is registered stays so, unless a join
    registers a match under it. *)
Lemma handle_absent e st st' out k :
  reuses k e = false →
  JsMap.get k (activeMatches st) = None →
  handle e st = Some (st', out) →
  JsMap.get k (activeMatches st') = None.
Proof.
  intros Hre Hk.
  destruct e as [socket pd uuid now|socket|socket|socket matchId a rnd1 rnd2|socket|socket];
    simpl; try done.
  - intros [= H]. unfold on_queue, tryMatchPlayers in H. simpl in H.
    simpl in Hre. apply bool_decide_eq_false in Hre.
    destruct (enqueue socket pd (waitingPlayers st)) as [|pl1 [|pl2 rest]];
      simpl in H; injection H as <- _; simpl; try done.
    by rewrite get_set_ne.
  - by intros [= <- _].
  - unfold on_submit_action.
    destruct (submit_action _ _ _ _ _ _) as [[[st1 out1] res]|] eqn:H; [|done].
    simpl. intros [= <- _].
    apply submit_action_inv in H
      as [(-> & _)|(m & player & bp & Hacc & [(Hall & -> & _)|(Hall & r & Hr & -> & _)])];
      [done|..].
    all: assert (matchId ≠ k) as Hne
      by (intros ->; destruct Hacc as [Hget _]; congruence).
    + simpl. by rewrite get_set_ne.
    + simpl. cbv zeta in Hr. rewrite (resolveTurn_activeMatches _ _ _ _ _ _ Hr).
      destruct (truthy (r_winner r)).
      * by apply get_delete_None.
      * by rewrite get_set_ne.
  - intros [= H]. unfold on_disconnect in H.
    pose proof (forfeit_all_absent socket (activeMatches st) (activeMatches st) k Hk) as Hf.
    destruct (forfeit_all _ _ _) as [active notices]. by injection H as <- _.
Qed.

Lemma run_absent es st st' out k :
  Forall (λ e, reuses k e = false) es →
  JsMap.get k (activeMatches st) = None →
  run es st = Some (st', out) →
  JsMap.get k (activeMatches st') = None.
Proof.
  intros Hes. revert st out.
  induction Hes as [|e es He _ IH]; intros st out Hk; simpl.
  - by intros [= <- _].
  - destruct (handle e st) as [[st1 out1]|] eqn:Hh; [|done]. simpl.
    destruct (run es st1) as [[st2 out2]|] eqn:Hrun; [|done]. simpl.
    intros [= <- _]. eapply IH; [|exact Hrun]. by eapply handle_absent.
Qed.

(** X11.  Once a match is over, by a declared winner or because a
    participant disconnected, every later submission that names its id is
    dropped: whatever events the server handles in between, the state stays as
    it is and nothing is sent.  The one exception is a later join that
    registers a new match under the same id, which takes [uuidv4()] to return
    an id a second time; the events in between are required not to do that. *)
Theorem submission_after_end_dropped st :
  reachable st →
  (∀ socket matchId action_ rnd1 rnd2 st' out m r w,
     submit_action socket matchId action_ rnd1 rnd2 st = Some (st', out, Some (m, r)) →
     r_winner r = Some w → w ≠ "" →
     ∀ es st'' out',
       Forall (λ e, reuses matchId e = false) es →
       run es st' = Some (st'', out') →
       ∀ socket' action' rnd1' rnd2',
         on_submit_action socket' matchId action' rnd1' rnd2' st'' = Some (st'', [])) ∧
  (∀ socket matchId m mine,
     (matchId, m) ∈ activeMatches st →
     mine ∈ match_players m → socketId mine = socket →
     ∀ es st'' out',
       Forall (λ e, reuses matchId e = false) es →
       run es (on_disconnect socket st).1 = Some (st'', out') →
       ∀ socket' action' rnd1' rnd2',
         on_submit_action socket' matchId action' rnd1' rnd2' st'' = Some (st'', [])).
Proof.
  intros Hst. split.
  - intros socket matchId action_ rnd1 rnd2 st' out m r w H Hw Hne es st'' out' Hes Hrun
      socket' a' r1 r2.
    pose proof (reachable_inv _ Hst) as Hinv.
    destruct (submit_action_resolves _ _ _ _ _ _ _ _ _ _ Hinv H) as (_ & Hr & -> & _).
    assert (truthy (r_winner r) = true) as Htr
      by (rewrite Hw; simpl; by apply bool_decide_eq_true_2).
    assert (JsMap.get matchId (r_activeMatches r) = None) as G0.
    { rewrite Hr at 1. rewrite concludeTurn_activeMatches, <- Hr, Htr. apply get_delete. }
    pose proof (run_absent es {| waitingPlayers := waitingPlayers st;
                                 activeMatches := r_activeMatches r |} _ _ _ Hes G0 Hrun)
      as G.
    unfold on_submit_action, submit_action. by rewrite G.
  - intros socket matchId m mine Hin Hmine Hs es st'' out' Hes Hrun socket' a' r1 r2.
    assert (JsMap.get matchId (activeMatches (on_disconnect socket st).1) = None) as G0.
    { unfold on_disconnect.
      pose proof (forfeit_all_deleted socket (activeMatches st) (activeMatches st)
                    matchId m Hin) as Hdel.
      destruct (forfeit_all _ _ _) as [active notices]. simpl in *. apply Hdel.
      apply some_true. exists mine. split; [done | by apply bool_decide_eq_true_2]. }
    pose proof (run_absent _ _ _ _ _ Hes G0 Hrun) as G.
    unfold on_submit_action, submit_action. by rewrite G.
Qed.

Lemma submission_after_end_dropped_sample :
  match tie_call with
  | Some (st', _, _) =>
      on_submit_action "sa" "m1" "attack" 0 0 (on_leave "sb" st').1
      = Some ((on_leave "sb" st').1, [])
  | None => False
  end.
Proof.
  assert ((λ c, match c with
                | Some (_, _, Some (m, r)) => Some (r_winner r)
                | _ => None
                end) tie_call = Some (Some "B")) as Hobs by (vm_compute; reflexivity).
  destruct (submission_after_end_dropped _
              (state_after_reachable _ tie_events_ok tie_events_run)) as [Hthm _].
  specialize (Hthm "sb" "m1" "special" 0%Q 0%Q). fold tie_call in Hthm.
  destruct tie_call as [[[st' out] [[m r]|]]|].
  2-3: exfalso; exact (eq_ind None (λ o, if o is None then True else False) I _ Hobs).
  injection Hobs as Hw.
  assert ("B" ≠ "") as Hne by (intros [=]).
  apply (Hthm st' out m r "B" eq_refl Hw Hne [pvp_leave "sb"] _ []).
  - apply Forall_cons. split; [reflexivity | apply Forall_nil_2].
  - reflexivity.
Defined.

(** ** Global chat *)

Lemma trimStart_suffix s : trimStart s `suffix_of` s.
Proof.
  induction s as [|c s IH]; simpl; [done|].
  destruct (isWhiteSpace c); [by apply suffix_cons_r | done].
Qed.

Lemma trimStart_head s c s' : trimStart s = c :: s' → isWhiteSpace c = false.
Proof.
  induction s as [|d s IH]; simpl; [done|].
  destruct (isWhiteSpace d) eqn:Hd; [done|]. by intros [= <- _].
Qed.

Lemma trimStart_app_keep s c :
  isWhiteSpace c = false → trimStart (s ++ [c]) = trimStart s ++ [c].
Proof.
  intros Hc. induction s as [|d s IH]; simpl; [by rewrite Hc|].
  by destruct (isWhiteSpace d).
Qed.

Lemma trimStart_all s : Forall (λ c, isWhiteSpace c = true) s → trimStart s = [].
Proof. induction 1 as [|c s Hc _ IH]; simpl; [done|]. by rewrite Hc. Qed.

Lemma trimEnd_prefix s : trimEnd s `prefix_of` s.
Proof.
  unfold trimEnd. destruct (trimStart_suffix (reverse s)) as [k Hk].
  exists (reverse k). apply (inj reverse). by rewrite reverse_app, !reverse_involutive.
Qed.

Lemma trimEnd_cons_keep c s :
  isWhiteSpace c = false → trimEnd (c :: s) = c :: trimEnd s.
Proof.
  intros Hc. unfold trimEnd. rewrite reverse_cons, trimStart_app_keep by done.
  by rewrite reverse_app.
Qed.

Lemma trim_infix s : trim s `sublist_of` s ∧ ∃ k1 k2, s = k1 ++ trim s ++ k2.
Proof.
  destruct (trimStart_suffix s) as [k1 H1].
  destruct (trimEnd_prefix (trimStart s)) as [k2 H2].
  assert (s = k1 ++ trim s ++ k2) as Hs by (unfold trim; by rewrite <- H2).
  split; [|by eauto]. rewrite Hs at 2.
  apply sublist_inserts_l, sublist_inserts_r. done.
Qed.

Lemma trim_length s : (length (trim s) ≤ length s)%nat.
Proof. apply sublist_length, trim_infix. Qed.

Lemma trim_head s c s' : trim s = c :: s' → isWhiteSpace c = false.
Proof.
  unfold trim. destruct (trimStart s) as [|d t] eqn:Ht.
  - by cbv.
  - pose proof (trimStart_head _ _ _ Ht) as Hd.
    rewrite trimEnd_cons_keep by done. by intros [= <- _].
Qed.

Lemma trim_last s c : last (trim s) = Some c → isWhiteSpace c = false.
Proof.
  unfold trim, trimEnd. rewrite last_reverse.
  destruct (trimStart (reverse (trimStart s))) as [|d t] eqn:Ht; [done|].
  intros [= <-]. by eapply trimStart_head.
Qed.

(** X12.  A chat message is broadcast exactly when the sender name and the
    text are present and not empty and the text has at most 200 code units.
    The broadcast carries the sender name as given and the text with the
    white space at both ends removed: a contiguous part of the text received,
    so of at most 200 code units (the [slice] of line 850 never cuts), which
    neither begins nor ends with white space.  A text of white space only is
    broadcast as the empty text. *)
Theorem chat_send_broadcast (username message : jsstring) now iso :
  (on_chat_send (Some username) (Some message) now iso = None ↔
     username = [] ∨ message = [] ∨ (200 < length message)%nat) ∧
  (∀ c, on_chat_send (Some username) (Some message) now iso = Some c →
     chat_id c = now ∧ chat_timestamp c = iso ∧ chat_username c = username ∧
     chat_message c = trim message ∧
     (length (chat_message c) ≤ 200)%nat ∧
     (∃ k1 k2, message = k1 ++ chat_message c ++ k2) ∧
     (∀ d, head (chat_message c) = Some d → isWhiteSpace d = false) ∧
     (∀ d, last (chat_message c) = Some d → isWhiteSpace d = false) ∧
     (Forall (λ d, isWhiteSpace d = true) message → chat_message c = [])).
Proof.
  unfold on_chat_send.
  destruct username as [|u us], message as [|m ms]; cbn [nonempty negb orb].
  1-3: split; [split; auto | done].
  case_bool_decide as Hlen; cbn [nonempty negb orb].
  - split; [|done]. split; [intros _; right; right; lia | done].
  - split.
    { split; [done|]. intros [[=]|[[=]|Hl]]. lia. }
    intros c Hc. apply (inj Some) in Hc. subst c.
    cbn [chat_id chat_username chat_message chat_timestamp].
    assert (slice0 200 (trim (m :: ms)) = trim (m :: ms)) as Hslice.
    { unfold slice0. apply take_ge. pose proof (trim_length (m :: ms)). simpl in *. lia. }
    rewrite Hslice. split_and!; try done.
    + pose proof (trim_length (m :: ms)). simpl in *. lia.
    + apply trim_infix.
    + intros d Hd. destruct (trim (m :: ms)) as [|d' s'] eqn:Ht; [done|].
      injection Hd as <-. by eapply trim_head.
    + apply trim_last.
    + intros Hall. unfold trim. by rewrite (trimStart_all _ Hall).
Qed.

(** X12 on a sample: " hi " is broadcast as "hi". *)
Lemma chat_send_broadcast_sample :
  chat_message <$> on_chat_send (Some [0x61%N]) (Some [0x20; 0x68; 0x69; 0x20]%N) 5 "t"
  = Some [0x68; 0x69]%N.
Proof.
  destruct (chat_send_broadcast [0x61%N] [0x20; 0x68; 0x69; 0x20]%N 5 "t") as [_ H].
  destruct (on_chat_send (Some [0x61%N]) (Some [0x20; 0x68; 0x69; 0x20]%N) 5 "t")
    as [c|] eqn:E.
  - destruct (H c eq_refl) as (_ & _ & _ & Hm & _).
    cbn [fmap option_fmap option_map]. rewrite Hm. reflexivity.
  - exfalso. vm_compute in E. exact (eq_ind (Some _)
      (λ o : option ChatMessage, if o is Some _ then True else False) I _ E).
Defined.

(** ** Guilds without a database *)

(** *** The boss *)

Lemma Qfloor_div_pos (a : Z) (b : positive) :
  Qfloor (inject_Z a / inject_Z (Z.pos b)) = a `div` Z.pos b.
Proof.
  unfold Qdiv, Qinv, Qmult, inject_Z, Qfloor. simpl. by rewrite Z.mul_1_r.
Qed.

Lemma boss_coins_div damage :
  0 ≤ damage < 256000 → boss_coins damage = damage `div` 1000.
Proof.
  intros Hd. unfold boss_coins, Math_floor, Number_div, GUILD_BOSS_coinsPerDamage.
  set (y := (inject_Z damage / inject_Z 1000)%Q).
  assert (Qfloor y = damage `div` 1000) as Hfl by apply Qfloor_div_pos.
  assert (1000 ≠ 0) as Hnz by lia. assert (0 < 1000) as Hpos by lia.
  pose proof (Z.div_mod damage 1000 Hnz) as Hdm.
  pose proof (Z.mod_pos_bound damage 1000 Hpos) as Hm.
  set (k := damage `div` 1000) in *.
  assert (0 ≤ k < 256) as Hk by lia.
  assert (y * 1000 == inject_Z damage)%Q as Hy by (unfold y; field).
  assert (inject_Z k <= y)%Q as Hlo by (rewrite <- Hfl; apply Qfloor_le).
  assert (inject_Z damage <= inject_Z k * 1000 + 999)%Q as Hup.
  { change 1000%Q with (inject_Z 1000). change 999%Q with (inject_Z 999).
    rewrite <- inject_Z_mult, <- inject_Z_plus, <- Zle_Qle. lia. }
  assert (y < 256)%Q as H256.
  { assert (inject_Z damage < inject_Z 256000)%Q by (rewrite <- Zlt_Qlt; lia).
    change (inject_Z 256000) with 256000%Q in *. lra. }
  assert (Qpower 2 (-46) < 1 # 1000)%Q as Hw by (vm_compute; reflexivity).
  assert (binary64 y <= y + Qpower 2 (-46))%Q as Hnear.
  { destruct (Qlt_le_dec 0 y) as [Hpos'|Hneg].
    - apply (binary64_near y 8 Hpos'); [exact H256 | lia].
    - assert (0 <= y)%Q by (change 0%Q with (inject_Z 0) in *;
        apply Qle_trans with (inject_Z k); [rewrite <- Zle_Qle; lia | exact Hlo]).
      rewrite (binary64_0 y) by lra. pose proof (two_pow_pos (-46)). lra. }
  assert (k ≤ Qfloor (binary64 y)) as G1 by (apply floor_binary64_ge; [lia | exact Hlo]).
  assert (Qfloor (binary64 y) < k + 1) as G2.
  { apply floor_lt. rewrite inject_Z_plus. change (inject_Z 1) with 1%Q.
    revert Hy Hup Hnear Hw.
    generalize (inject_Z k) (inject_Z damage) (Qpower 2 (-46)) (binary64 y).
    intros. lra. }
  lia.
Qed.

Lemma boss_damage_range rnd : random_ok rnd → 50000 ≤ boss_damage rnd ≤ 150000.
Proof.
  intros (Hlo & Hhi & _). unfold boss_damage, Math_floor, Number_add, Number_mul.
  assert (0 <= rnd * 100000)%Q as H0 by (apply Qmult_le_0_compat; [done | discriminate]).
  assert (rnd * 100000 <= inject_Z 100000)%Q as H1.
  { change (inject_Z 100000) with (1 * 100000)%Q.
    apply Qmult_le_compat_r; [by apply Qlt_le_weak | discriminate]. }
  set (y := binary64 (rnd * 100000)).
  assert (0 <= y)%Q as Y0 by (by apply binary64_nonneg).
  assert (y <= inject_Z 100000)%Q as Y1.
  { rewrite <- (binary64_int 100000) by lia. by apply binary64_mono. }
  change (inject_Z 100000) with 100000%Q in Y1.
  split.
  - apply floor_binary64_ge; [lia|]. change (inject_Z 50000) with 50000%Q. lra.
  - assert (binary64 (50000 + y) <= inject_Z 150000)%Q as Hb.
    { rewrite <- (binary64_int 150000) by lia. apply binary64_mono; [lra|].
      change (inject_Z 150000) with 150000%Q. lra. }
    assert (Qfloor (binary64 (50000 + y)) ≤ Qfloor (inject_Z 150000)) as Hf
      by (by apply Qfloor_resp_le).
    by rewrite Qfloor_Z in Hf.
Qed.



Lemma guild_ok_get guilds k g :
  guilds_ok guilds → JsMap.get k guilds = Some g → guild_ok k g.
Proof.
  intros [_ Hall] Hg. apply get_Some_elem in Hg.
  rewrite Forall_forall in Hall. exact (Hall _ Hg).
Qed.

Lemma guilds_ok_set guilds k g :
  guilds_ok guilds → guild_ok k g → guilds_ok (JsMap.set k g guilds).
Proof.
  intros [Hnd Hall] Hg. split; [by apply set_keys_NoDup|].
  by apply (Forall_set (λ kg, guild_ok kg.1 kg.2)).
Qed.

Lemma serve_ok q guilds : request_ok q → guilds_ok guilds → guilds_ok (serve q guilds).1.
Proof.
  intros Hq Hok. destruct q as [playerId guildName uuid|guildId playerId|guildId playerId|guildId rnd];
    simpl.
  - unfold create_guild. destruct playerId as [playerId|]; [|done].
    destruct guildName as [guildName|]; [|done].
    destruct (negb (truthy (Some playerId))) eqn:Hp; [done|].
    destruct (negb (nonempty (Some guildName))) eqn:Hn; [done|].
    destruct (bool_decide (Z.of_nat (length guildName) < 3)) eqn:Hl; [done|].
    cbn [orb fst]. apply guilds_ok_set; [done|].
    apply negb_false_iff in Hp. cbn [truthy] in Hp. apply bool_decide_eq_true in Hp.
    apply bool_decide_eq_false in Hl.
    split; cbn; unfold GUILD_BOSS_maxHp; try done; lia.
  - unfold join_guild. destruct (JsMap.get guildId guilds) as [g|] eqn:Hg; [|done].
    cbn [fst]. apply guilds_ok_set; [done|].
    destruct (guild_ok_get _ _ _ Hok Hg). by split.
  - unfold leave_guild. destruct (JsMap.get guildId guilds) as [g|] eqn:Hg; [|done].
    cbn [fst]. apply guilds_ok_set; [done|].
    destruct (guild_ok_get _ _ _ Hok Hg). by split.
  - unfold attack_boss. destruct (JsMap.get guildId guilds) as [g|] eqn:Hg; [|done].
    cbn [fst]. apply guilds_ok_set; [done|].
    destruct (guild_ok_get _ _ _ Hok Hg) as [? ? Hhp ? ?].
    pose proof (boss_damage_range rnd Hq) as Hd.
    split; cbn [set_bossHp guild_id level bossHp guild_name leaderId]; try done.
    unfold Math_max. lia.
Qed.

Lemma guilds_reachable_ok guilds : guilds_reachable guilds → guilds_ok guilds.
Proof.
  induction 1 as [|guilds q _ IH Hq].
  - split; [apply NoDup_nil_2 | apply Forall_nil_2].
  - by apply serve_ok.
Qed.

Lemma one_guild_reachable : guilds_reachable one_guild.
Proof. apply guilds_step; [apply guilds_initial | exact I]. Qed.

(** X14.  Whatever requests the guild routes have served since start-up,
    every guild in the [Map] is stored under its own id, is at level 1, has a
    name of at least three characters and a non-empty leader id, and its
    boss health lies between 0 and the maximum of 10000000. *)
Theorem guilds_invariant guilds guildId guild :
  guilds_reachable guilds →
  JsMap.get guildId guilds = Some guild →
  guild_id guild = guildId ∧ level guild = 1 ∧
  3 ≤ Z.of_nat (length (guild_name guild)) ∧ leaderId guild ≠ "" ∧
  0 ≤ bossHp guild ≤ 10000000.
Proof.
  intros Hr%guilds_reachable_ok Hg.
  destruct (guild_ok_get _ _ _ Hr Hg) as [Hk Hl Hhp Hn Hld].
  unfold GUILD_BOSS_maxHp in Hhp. split_and!; try done; lia.
Qed.

Lemma guilds_invariant_sample :
  ∃ guild, JsMap.get "g1" one_guild = Some guild ∧ 0 ≤ bossHp guild ≤ 10000000.
Proof.
  eexists. split; [reflexivity|].
  exact (proj2 (proj2 (proj2 (proj2
    (guilds_invariant one_guild "g1" _ one_guild_reachable eq_refl))))).
Defined.

(** X15.  The boss-status route never reports a dead boss: it answers the
    stored health while that is positive, and the full 10000000 both for an
    unknown guild and for a guild whose boss is at 0 (the [||] of line 1432
    takes 0 for a missing value). *)
Theorem boss_status_never_zero guilds guildId :
  guilds_reachable guilds →
  ∃ hp, boss_status guildId guilds = res_boss hp 10000000 ∧ 0 < hp ≤ 10000000 ∧
    match JsMap.get guildId guilds with
    | None => hp = 10000000
    | Some guild => if decide (bossHp guild = 0) then hp = 10000000 else hp = bossHp guild
    end.
Proof.
  intros Hr. unfold boss_status.
  destruct (JsMap.get guildId guilds) as [g|] eqn:Hg.
  - destruct (guild_ok_get _ _ _ (guilds_reachable_ok _ Hr) Hg) as [_ _ Hhp _ _].
    unfold GUILD_BOSS_maxHp in Hhp.
    destruct (decide (bossHp g = 0)) as [H0|H0].
    + eexists. split; [reflexivity|]. unfold GUILD_BOSS_maxHp. split; [lia | done].
    + eexists. split; [reflexivity|]. split; [lia | done].
  - eexists. split; [reflexivity|]. unfold GUILD_BOSS_maxHp. split; [lia | done].
Qed.

Lemma attack_boss_get guilds k g rnd :
  JsMap.get k guilds = Some g →
  JsMap.get k (attack_boss k rnd guilds).1
  = Some (set_bossHp (Z.max 0 (bossHp g - boss_damage rnd)) g).
Proof. intros Hg. unfold attack_boss. rewrite Hg. cbn [fst]. apply get_set. Qed.

Lemma attack_boss_other guilds k k' rnd :
  k ≠ k' → JsMap.get k' (attack_boss k rnd guilds).1 = JsMap.get k' guilds.
Proof.
  intros Hne. unfold attack_boss. destruct (JsMap.get k guilds); [|done].
  cbn [fst]. by apply get_set_ne.
Qed.

Lemma attacks_reachable guilds k rnds :
  guilds_reachable guilds → Forall random_ok rnds → guilds_reachable (attacks k rnds guilds).
Proof.
  intros Hr Hall. revert guilds Hr.
  induction Hall as [|rnd rnds Hrnd _ IH]; intros guilds Hr; [done|].
  apply IH. exact (guilds_step guilds (req_attack k rnd) Hr Hrnd).
Qed.

Lemma total_damage_bounds rnds :
  Forall random_ok rnds →
  50000 * Z.of_nat (length rnds) ≤ total_damage rnds ≤ 150000 * Z.of_nat (length rnds).
Proof.
  induction 1 as [|rnd rnds Hrnd _ IH]; [done|].
  pose proof (boss_damage_range rnd Hrnd).
  change (total_damage (rnd :: rnds)) with (boss_damage rnd + total_damage rnds).
  rewrite length_cons, Nat2Z.inj_succ. lia.
Qed.

Lemma attacks_get guilds k g rnds :
  Forall random_ok rnds →
  JsMap.get k guilds = Some g →
  JsMap.get k (attacks k rnds guilds)
  = Some (match rnds with
          | [] => g
          | _ => set_bossHp (Z.max 0 (bossHp g - total_damage rnds)) g
          end).
Proof.
  intros Hall. revert guilds g.
  induction Hall as [|rnd rnds Hrnd Hall IH]; intros guilds g Hg; [done|].
  change (attacks k (rnd :: rnds) guilds) with (attacks k rnds (attack_boss k rnd guilds).1).
  rewrite (IH _ _ (attack_boss_get _ _ _ rnd Hg)).
  change (total_damage (rnd :: rnds)) with (boss_damage rnd + total_damage rnds).
  destruct rnds as [|rnd' rnds].
  - change (total_damage []) with 0. by rewrite Z.add_0_r.
  - pose proof (total_damage_bounds _ Hall) as Ht.
    assert (0 ≤ total_damage (rnd' :: rnds)) as Hpos by lia.
    unfold set_bossHp. cbn [guild_id guild_name leaderId level members bossHp].
    do 2 f_equal. lia.
Qed.

Lemma slain_reachable : guilds_reachable slain.
Proof.
  apply attacks_reachable; [exact one_guild_reachable|].
  apply Forall_replicate. random_values.
Qed.

(** X16.  Boss attacks accumulate and are not metered.  After any run of
    attacks on a guild its boss health is the health before minus the sum of
    the damages, cut off at 0; the member list (with every member's coins)
    and the other guilds are as before; and the next attack is answered with
    its damage and [attacksLeft: 2] however many came before.  From full
    health the boss survives any 66 attacks and is at 0 after any 200. *)
Theorem boss_attacks_accumulate guilds guildId guild rnds rnd :
  guilds_reachable guilds →
  JsMap.get guildId guilds = Some guild →
  Forall random_ok rnds →
  random_ok rnd →
  ∃ guild',
    JsMap.get guildId (attacks guildId rnds guilds) = Some guild' ∧
    bossHp guild' = Z.max 0 (bossHp guild - total_damage rnds) ∧
    members guild' = members guild ∧
    (∀ other, other ≠ guildId →
       JsMap.get other (attacks guildId rnds guilds) = JsMap.get other guilds) ∧
    (attack_boss guildId rnd (attacks guildId rnds guilds)).2
      = res_boss_attack (boss_damage rnd) (boss_damage rnd `div` 1000) 2 ∧
    (bossHp guild = 10000000 → (length rnds ≤ 66)%nat → 0 < bossHp guild') ∧
    ((200 ≤ length rnds)%nat → bossHp guild' = 0).
Proof.
  intros Hr Hg Hall Hrnd.
  destruct (guild_ok_get _ _ _ (guilds_reachable_ok _ Hr) Hg) as [_ _ Hhp _ _].
  unfold GUILD_BOSS_maxHp in Hhp.
  pose proof (attacks_get _ _ _ _ Hall Hg) as Hget.
  pose proof (total_damage_bounds _ Hall) as Ht.
  eexists. split; [exact Hget|].
  assert (bossHp (match rnds with
                  | [] => guild
                  | _ => set_bossHp (Z.max 0 (bossHp guild - total_damage rnds)) guild
                  end) = Z.max 0 (bossHp guild - total_damage rnds)) as Hhp'.
  { destruct rnds; [|done]. change (total_damage []) with 0. lia. }
  split_and!.
  - exact Hhp'.
  - by destruct rnds.
  - intros other Hne. clear -Hne. revert guilds.
    induction rnds as [|r rnds IH]; intros guilds; [done|].
    change (attacks guildId (r :: rnds) guilds)
      with (attacks guildId rnds (attack_boss guildId r guilds).1).
    rewrite IH. by apply attack_boss_other.
  - unfold attack_boss. rewrite Hget. cbn [snd].
    pose proof (boss_damage_range rnd Hrnd). by rewrite boss_coins_div by lia.
  - intros Hfull Hlen. rewrite Hhp'. lia.
  - intros Hlen. rewrite Hhp'. lia.
Qed.

Lemma boss_attacks_accumulate_sample :
  ∃ guild', JsMap.get "g1" slain = Some guild' ∧ bossHp guild' = 0 ∧
    (attack_boss "g1" (1#2) slain).2 = res_boss_attack 100000 100 2.
Proof.
  assert (Forall random_ok (replicate 200 0%Q)) as Hall
    by (apply Forall_replicate; random_values).
  assert (random_ok (1#2)) as Hrnd by random_values.
  destruct (boss_attacks_accumulate one_guild "g1" _ (replicate 200 0%Q) (1#2)
              one_guild_reachable eq_refl Hall Hrnd)
    as (guild' & Hget & _ & _ & _ & Hres & _ & Hdead).
  exists guild'. split; [exact Hget|]. split.
  - apply Hdead. rewrite length_replicate. lia.
  - exact Hres.
Defined.

Lemma boss_status_never_zero_sample :
  boss_status "g1" slain = res_boss 10000000 10000000.
Proof.
  destruct (boss_status_never_zero slain "g1" slain_reachable) as (hp & Heq & _ & Hm).
  assert (bossHp <$> JsMap.get "g1" slain = Some 0) as Hobs by (vm_compute; reflexivity).
  destruct (JsMap.get "g1" slain) as [g|].
  - apply (inj Some) in Hobs. destruct (decide (bossHp g = 0)) as [_|Hne].
    + rewrite Heq, Hm. reflexivity.
    + exfalso. exact (Hne Hobs).
  - exfalso. exact (eq_ind None (λ o : option Z, if o is None then True else False) I _ Hobs).
Defined.

Section map_append.
Context {V : Type}.
Implicit Types (m : list (string * V)) (k : string).

Lemma set_fresh m k v : JsMap.get k m = None → JsMap.set k v m = m ++ [(k, v)].
Proof.
induction m as [|[k0 v0] m IH]; simpl; [done|].
destruct (decide (k0 = k)); [done|]. intros H. by rewrite IH.
Qed.
End map_append.

Lemma find_None_iff {A} (f : A → bool) l : find f l = None ↔ ∀ x, x ∈ l → f x = false.
Proof.
  induction l as [|y l IH]; simpl.
  - split; [by intros _ x ?%elem_of_nil | done].
  - destruct (f y) eqn:Hy.
    + split; [done|]. intros H. rewrite (H y) in Hy by left. done.
    + rewrite IH. split.
      * intros H x [-> | Hx]%elem_of_cons; [done | by apply H].
      * intros H x Hx. apply H. by right.
Qed.

Lemma player_guild_None p guilds :
  player_guild p guilds = res_player_guild None ↔ guildless p guilds.
Proof.
  unfold guildless. induction guilds as [|[k g] guilds IH]; simpl.
  - split; [by intros _ k g m ?%elem_of_nil | done].
  - destruct (find _ (members g)) as [m|] eqn:Hf.
    + split; [done|]. intros H. apply find_Some in Hf as [Hm Hp].
      apply bool_decide_eq_true in Hp. by destruct (H k g m (list_elem_of_here _ _) Hm).
    + rewrite IH. rewrite find_None_iff in Hf. split.
      * intros H k' g' m [[= -> ->] | Hin]%elem_of_cons Hm.
        -- specialize (Hf m Hm). by apply bool_decide_eq_false in Hf.
        -- by apply (H k' g' m).
      * intros H k' g' m Hin. apply (H k' g' m). by right.
Qed.

Lemma player_guild_app p pre post :
  guildless p pre → player_guild p (pre ++ post) = player_guild p post.
Proof.
  induction pre as [|[k g] pre IH]; intros Hpre; [done|]. simpl.
  destruct (find _ (members g)) as [m|] eqn:Hf.
  - apply find_Some in Hf as [Hm Hp]. apply bool_decide_eq_true in Hp.
    by destruct (Hpre k g m (list_elem_of_here _ _) Hm).
  - apply IH. intros k' g' m' Hin. apply (Hpre k' g' m'). by right.
Qed.

Lemma filter_keep_all {A} (P : A → Prop) `{∀ x, Decision (P x)} (l : list A) :
  (∀ x, x ∈ l → P x) → filter P l = l.
Proof.
  induction l as [|x l IH]; intros Hall; [done|].
  rewrite filter_cons_True by (apply Hall; left).
  f_equal. apply IH. intros y Hy. apply Hall. by right.
Qed.

(** X17.  Creating a guild without a database checks the request and nothing
    else.  A missing or empty player id, a missing name or a name shorter
    than three characters is answered with status 400 and leaves the [Map]
    as it was.  Any other request succeeds, whatever guilds exist already:
    the new guild is then returned by the guild-details route with the
    creator as its only member, in the role of leader and with 0 coins; its
    boss is reported at full health; the other guilds are untouched; and
    when the id is new and the creator was in no guild, the player's-guild
    route now answers with this guild and the role of leader. *)
Theorem create_guild_outcome playerId guildName uuid guilds :
  (∀ p n, playerId = Some p → guildName = Some n → p ≠ "" → (3 ≤ length n)%nat →
     ∃ guild,
       create_guild playerId guildName uuid guilds
         = (JsMap.set uuid guild guilds, res_created uuid n 1) ∧
       guild_name guild = n ∧ leaderId guild = p ∧
       get_guild uuid (JsMap.set uuid guild guilds) = res_guild guild [leader_of p] ∧
       boss_status uuid (JsMap.set uuid guild guilds) = res_boss 10000000 10000000 ∧
       (∀ other, other ≠ uuid →
          JsMap.get other (JsMap.set uuid guild guilds) = JsMap.get other guilds) ∧
       (JsMap.get uuid guilds = None → guildless p guilds →
          player_guild p (JsMap.set uuid guild guilds)
            = res_player_guild (Some (guild, "leader")))) ∧
  (playerId = None ∨ playerId = Some "" ∨ guildName = None ∨
   (∃ n, guildName = Some n ∧ (length n < 3)%nat) →
     create_guild playerId guildName uuid guilds
       = (guilds, res_error 400 "Guild name must be at least 3 characters")).
Proof.
  split.
  - intros p n -> -> Hp Hn. unfold create_guild. cbn [truthy].
    rewrite bool_decide_eq_true_2 by done.
    assert (nonempty (Some n) = true) as -> by (destruct n; [simpl in Hn; lia | done]).
    rewrite bool_decide_eq_false_2 by lia. cbn [negb orb].
    eexists. split; [reflexivity|]. cbn [guild_name leaderId].
    split; [done|]. split; [done|]. split_and!.
    + unfold get_guild. by rewrite get_set.
    + unfold boss_status. rewrite get_set. cbn [bossHp]. reflexivity.
    + intros other Hne. by apply get_set_ne.
    + intros Hfresh Hless. rewrite (set_fresh _ _ _ Hfresh).
      rewrite (player_guild_app _ _ _ Hless). cbn [player_guild members find member_playerId].
      by rewrite bool_decide_eq_true_2.
  - unfold create_guild. intros [-> | [-> | [-> | (n & -> & Hn)]]].
    + done.
    + by destruct guildName.
    + by destruct playerId.
    + destruct playerId as [p|]; [|done].
      rewrite (bool_decide_eq_true_2 (Z.of_nat (length n) < 3)) by lia.
      by rewrite !orb_true_r.
Qed.

Lemma create_guild_outcome_sample :
  ∃ guild,
    create_guild (Some "p1") (Some [99; 97; 112; 121]%N) "g2" one_guild
      = (JsMap.set "g2" guild one_guild, res_created "g2" [99; 97; 112; 121]%N 1) ∧
    get_guild "g2" (JsMap.set "g2" guild one_guild) = res_guild guild [leader_of "p1"].
Proof.
  destruct (create_guild_outcome (Some "p1") (Some [99; 97; 112; 121]%N) "g2" one_guild)
    as [Hok _].
  assert ("p1" ≠ "") as Hp by (intros H; discriminate H).
  assert (3 ≤ length [99; 97; 112; 121]%N)%nat as Hn by (simpl; lia).
  destruct (Hok "p1" [99; 97; 112; 121]%N eq_refl eq_refl Hp Hn)
    as (guild & Hc & _ & _ & Hg & _).
  exists guild. split; [exact Hc | exact Hg].
Defined.

(** X18.  Joining and leaving a guild without a database.  A join appends
    the player as a member with 0 coins, without looking whether the player
    is a member already; a leave removes every entry of the player, the
    leader's too.  For a player who was not a member, joining and then
    leaving gives back the [Map] as it was; joining twice leaves two
    entries, and one leave removes both. *)
Theorem join_then_leave guilds guildId guild playerId :
  JsMap.get guildId guilds = Some guild →
  let joined := (join_guild guildId playerId guilds).1 in
  let twice := (join_guild guildId playerId joined).1 in
  (∃ g, JsMap.get guildId joined = Some g ∧
        members g = members guild ++ [joiner playerId]) ∧
  (∃ g, JsMap.get guildId twice = Some g ∧
        members g = members guild ++ [joiner playerId; joiner playerId]) ∧
  (∃ g, JsMap.get guildId (leave_guild guildId playerId twice).1 = Some g ∧
        members g = filter (λ m, member_playerId m ≠ playerId) (members guild) ∧
        ∀ m, m ∈ members g → member_playerId m ≠ playerId) ∧
  ((∀ m, m ∈ members guild → member_playerId m ≠ playerId) →
     (leave_guild guildId playerId joined).1 = guilds ∧
     (leave_guild guildId playerId twice).1 = guilds).
Proof.
  intros Hg joined twice.
  assert (joined = JsMap.set guildId
            (set_members (members guild ++ [joiner playerId]) guild) guilds) as Hj.
  { unfold joined, join_guild. by rewrite Hg. }
  assert (twice = JsMap.set guildId
            (set_members (members guild ++ [joiner playerId; joiner playerId]) guild) guilds)
    as Ht.
  { unfold twice, join_guild. rewrite Hj, get_set. cbn [fst]. rewrite set_set.
    unfold set_members. cbn [guild_id guild_name leaderId level members bossHp].
    by rewrite <- app_assoc. }
  assert (∀ ms, filter (λ m, member_playerId m ≠ playerId) (ms ++ [joiner playerId])
                = filter (λ m, member_playerId m ≠ playerId) ms) as Hf1.
  { intros ms. rewrite filter_app, filter_cons_False by (simpl; tauto).
    rewrite filter_nil. apply app_nil_r. }
  assert (∀ ms, (leave_guild guildId playerId
                   (JsMap.set guildId (set_members ms guild) guilds)).1
                = JsMap.set guildId
                    (set_members (filter (λ m, member_playerId m ≠ playerId) ms) guild)
                    guilds) as Hl.
  { intros ms. unfold leave_guild. rewrite get_set. cbn [fst]. by rewrite set_set. }
  split_and!.
  - eexists. rewrite Hj, get_set. done.
  - eexists. rewrite Ht, get_set. done.
  - eexists. rewrite Ht, Hl, get_set. split; [reflexivity|].
    cbn [set_members members].
    change [joiner playerId; joiner playerId] with ([joiner playerId] ++ [joiner playerId]).
    rewrite app_assoc, !Hf1. split; [done|].
    by intros m [Hm _]%list_elem_of_filter.
  - intros Hnot.
    assert (JsMap.set guildId
              (set_members (filter (λ m, member_playerId m ≠ playerId) (members guild)) guild)
              guilds = guilds) as Hback.
    { rewrite (filter_keep_all _ _ Hnot). apply set_get_id. rewrite Hg. by destruct guild. }
    split.
    + by rewrite Hj, Hl, Hf1.
    + rewrite Ht, Hl.
      change [joiner playerId; joiner playerId] with ([joiner playerId] ++ [joiner playerId]).
      by rewrite app_assoc, !Hf1.
Qed.

Lemma join_then_leave_sample :
  (leave_guild "g1" (Some "p2") (join_guild "g1" (Some "p2") one_guild).1).1 = one_guild.
Proof.
  pose proof (join_then_leave one_guild "g1" _ (Some "p2") eq_refl) as (_ & _ & _ & Hback).
  apply Hback. intros m Hm Heq.
  apply list_elem_of_singleton in Hm. subst m.
  discriminate Heq.
Defined.

(** X19.  The player's-guild route answers with the first guild, in the
    order the guilds were created, that lists the player, and with the role
    of the player's first entry there; it answers [null] exactly when no
    guild lists the player.  A player in two guilds is shown only the
    earlier one. *)
Theorem player_guild_first playerId guilds :
  (player_guild playerId guilds = res_player_guild None ↔ guildless playerId guilds) ∧
  (∀ guild r, player_guild playerId guilds = res_player_guild (Some (guild, r)) →
     ∃ pre k post m,
       guilds = pre ++ (k, guild) :: post ∧ guildless playerId pre ∧
       find (λ m, bool_decide (member_playerId m = Some playerId)) (members guild) = Some m ∧
       m ∈ members guild ∧ member_playerId m = Some playerId ∧ role m = r).
Proof.
  split; [apply player_guild_None|].
  induction guilds as [|[k g] guilds IH]; intros guild r; simpl; [done|].
  destruct (find _ (members g)) as [m|] eqn:Hf.
  - intros [= -> <-]. exists [], k, guilds, m.
    destruct (find_Some _ _ _ Hf) as [Hm Hp]. apply bool_decide_eq_true in Hp.
    split_and!; try done. by intros k' g' m' ?%elem_of_nil.
  - intros (pre & k' & post & m & -> & Hpre & Hfm & Hm & Hp & Hr)%IH.
    exists ((k, g) :: pre), k', post, m. split_and!; try done.
    intros k0 g0 m0 [[= -> ->] | Hin]%elem_of_cons Hm0.
    + rewrite find_None_iff in Hf. specialize (Hf m0 Hm0). by apply bool_decide_eq_false in Hf.
    + by apply (Hpre k0 g0 m0).
Qed.

Lemma player_guild_first_sample :
  ∃ guild pre k post,
    player_guild "p1" two_guilds = res_player_guild (Some (guild, "leader")) ∧
    guild_id guild = "g1" ∧
    two_guilds = pre ++ (k, guild) :: post ∧ guildless "p1" pre.
Proof.
  destruct (player_guild_first "p1" two_guilds) as [_ H].
  destruct (H _ _ eq_refl) as (pre & k & post & m & Heq & Hpre & _).
  eexists _, pre, k, post. split; [reflexivity|].
  split; [reflexivity|]. split; [exact Heq | exact Hpre].
Defined.

(** ** A match of one connection with itself *)

Lemma lone_match_new uuid now pl1 pl2 :
  playerId pl1 ≠ playerId pl2 → lone_match (newMatch uuid now pl1 pl2).
Proof.
  intros Hne _ _ _ _. destruct (createBattleState_lookup pl1 pl2 Hne) as [_ H2].
  change (second_id (newMatch uuid now pl1 pl2)) with (playerId pl2).
  by rewrite (combatant_lookup (newMatch uuid now pl1 pl2) _ _ H2).
Qed.

Lemma lone_match_record socket matchId action_ st m player bp :
  wf_match m → lone_match m →
  accepted socket matchId action_ st m player bp →
  lone_match (recordAction player action_ m).
Proof.
  intros Hwf Hlone (_ & _ & Hfind & _) pl1 pl2 Hpl Hs.
  change (match_players (recordAction player action_ m)) with (match_players m) in Hpl.
  change (second_id (recordAction player action_ m)) with (second_id m).
  destruct (wf_match_ids _ Hwf) as (Hne & _ & _ & pl1' & pl2' & Hpl' & H1 & H2).
  rewrite Hpl in Hpl'. injection Hpl' as <- <-.
  rewrite Hpl in Hfind. cbn [find] in Hfind. rewrite <- Hs in Hfind.
  destruct (bool_decide (socketId pl1 = socket)); [|done].
  injection Hfind as <-.
  unfold combatant. cbn [recordAction set_battleState set_players battleState players].
  rewrite lookup_total_alter_ne by (by rewrite H1).
  exact (Hlone pl1 pl2 Hpl Hs).
Qed.

Lemma handle_lone e st st' out :
  inv st → lone st → event_ok e → handle e st = Some (st', out) → lone st'.
Proof.
  intros Hinv Hlone Hok.
  destruct e as [socket pd uuid now|socket|socket|socket matchId a rnd1 rnd2|socket|socket];
    simpl; try done.
  - intros [= H]. unfold on_queue in H.
    pose proof (enqueue_NoDup socket pd _ (inv_distinct _ Hinv)) as Hd.
    unfold tryMatchPlayers in H. simpl in H.
    destruct (enqueue socket pd (waitingPlayers st)) as [|pl1 [|pl2 rest]];
      simpl in H; injection H as <- _; try done.
    unfold lone. simpl. apply Forall_set; [|done]. simpl.
    apply lone_match_new. simpl in Hd. apply NoDup_cons in Hd as [Hd _].
    intros E. apply Hd. rewrite E. left.
  - by intros [= <- _].
  - unfold on_submit_action.
    destruct (submit_action _ _ _ _ _ _) as [[[st1 out1] res]|] eqn:H; [|done].
    simpl. intros [= <- _]. destruct Hok as [Hr1 Hr2].
    apply submit_action_inv in H
      as [(-> & _)|(m & player & bp & Hacc & [(Hall & -> & _)|(Hall & r & Hr & -> & _)])];
      [done|..].
    all: assert (wf_match m ∧ lone_match m) as [Hwf Hl]
      by (destruct Hacc as [Hget%get_Some_elem _]; split;
          [exact (proj1 (Forall_forall _ _) (inv_matches _ Hinv) (matchId, m) Hget)
          |exact (proj1 (Forall_forall _ _) Hlone (matchId, m) Hget)]).
    + unfold lone. simpl. apply Forall_set; [|done]. simpl.
      by eapply lone_match_record.
    + unfold lone. simpl.
      pose proof (wf_match_record _ _ _ _ _ _ _ Hwf Hacc) as Hwf'.
      pose proof (resolving_match_intro _ Hwf' Hall) as Hres.
      cbv zeta in Hr. rewrite (resolveTurn_resolving _ _ _ _ _ Hres) in Hr.
      injection Hr as <-.
      match goal with |- context [concludeTurn _ ?m2 _ _ _ _] => set (m2' := m2) in * end.
      rewrite concludeTurn_activeMatches.
      destruct (truthy (r_winner _)) eqn:Hw.
      * by apply Forall_delete.
      * apply Forall_set; [|done]. cbn [snd].
        match goal with |- lone_match (r_match ?r0) => set (r := r0) in * end.
        intros _ _ _ _.
        assert (second_id (r_match r) = second_id m2') as F2
          by (unfold second_id; subst r; by rewrite concludeTurn_playerIds).
        rewrite F2.
        destruct (resolved_combatants matchId m2' rnd1 rnd2 (activeMatches st) Hres)
          as [_ C2].
        cbv zeta in C2. fold r in C2. rewrite Hw in C2. by rewrite C2.
  - intros [= H]. unfold on_disconnect in H.
    pose proof (forfeit_all_Forall (λ km, lone_match km.2) socket
                  (activeMatches st) (activeMatches st) Hlone) as Hf.
    destruct (forfeit_all _ _ _) as [active notices]. by injection H as <- _.
Qed.

Lemma reachable_lone st : reachable st → lone st.
Proof.
  induction 1 as [|st e st' out Hst IH Hok Hstep].
  - constructor.
  - eapply handle_lone; eauto using reachable_inv.
Qed.

Lemma solo_reachable : reachable (state_after solo).
Proof.
  apply state_after_reachable; [repeat constructor | vm_compute; eauto].
Qed.

(** X20.  Two waiting entries of one connection (joined under two player
    ids) are paired like any others, but their match never resolves a turn:
    every submission of the connection is taken for the first participant,
    so the second never has an action.  No submission to such a match, from
    any connection, leads to a call of [resolveTurn]; the most it does is to
    record the action of the first participant, and the only message it can
    cause is the cooldown error. *)
Theorem shared_connection_stalls st matchId m pl1 pl2 socket action_ rnd1 rnd2 :
  reachable st →
  JsMap.get matchId (activeMatches st) = Some m →
  match_players m = [pl1; pl2] →
  socketId pl1 = socketId pl2 →
  ∃ st' out,
    submit_action socket matchId action_ rnd1 rnd2 st = Some (st', out, None) ∧
    (out = [] ∨ out = [Emit socket (pvp_action_error "Special is on cooldown!")]) ∧
    (st' = st ∨
     socket = socketId pl1 ∧
     st' = {| waitingPlayers := waitingPlayers st;
              activeMatches :=
                JsMap.set matchId (recordAction pl1 action_ m) (activeMatches st) |}) ∧
    action (combatant m (second_id m)) = None.
Proof.
  intros Hst Hget Hpl Hs.
  pose proof (proj1 (Forall_forall _ _) (inv_matches _ (reachable_inv _ Hst))
                (matchId, m) (get_Some_elem _ _ _ Hget)) as Hwf.
  pose proof (proj1 (Forall_forall _ _) (reachable_lone _ Hst)
                (matchId, m) (get_Some_elem _ _ _ Hget) pl1 pl2 Hpl Hs) as Hnone.
  cbn [snd] in Hwf, Hnone.
  destruct Hwf as (pl1' & pl2' & b1 & b2 & Hpl' & Hne & Hids & L1 & L2 & _ & _ & Hstat).
  rewrite Hpl in Hpl'. injection Hpl' as <- <-.
  assert (action b2 = None) as Hb2.
  { unfold combatant, second_id in Hnone. rewrite Hids in Hnone. cbn [snd] in Hnone.
    by rewrite (lookup_total_correct _ _ _ L2) in Hnone. }
  unfold submit_action. rewrite Hget.
  destruct (decide (status (battleState m) ≠ waiting_actions)) as [Hbad|_];
    [by destruct Hbad|].
  rewrite Hpl. cbn [find]. rewrite <- Hs.
  destruct (bool_decide (socketId pl1 = socket)) eqn:Hsock.
  2: { eexists _, _. split; [reflexivity|]. split_and!; [by left | by left | done]. }
  apply bool_decide_eq_true in Hsock.
  rewrite L1.
  destruct (truthy (action b1)).
  { eexists _, _. split; [reflexivity|]. split_and!; [by left | by left | done]. }
  destruct (negb (valid_action action_)).
  { eexists _, _. split; [reflexivity|]. split_and!; [by left | by left | done]. }
  destruct (decide (action_ = "special" ∧ specialCooldown b1 > 0)).
  { eexists _, _. split; [reflexivity|]. split_and!; [by right | by left | done]. }
  assert (allSubmitted (battleState (recordAction pl1 action_ m)) = Some false) as ->.
  { unfold allSubmitted.
    cbn [recordAction set_battleState set_players battleState players playerIds].
    rewrite Hids. rewrite lookup_alter_eq, L1. cbn [fmap option_fmap option_map mbind option_bind].
    rewrite decide_True by done.
    rewrite lookup_alter_ne by done. rewrite L2. cbn [mbind option_bind].
    by rewrite bool_decide_eq_false_2 by (by rewrite Hb2; intros []). }
  cbn [mbind option_bind].
  change (match_players (recordAction pl1 action_ m)) with (match_players m).
  rewrite Hpl. cbn [find]. rewrite <- Hs.
  rewrite (bool_decide_eq_false_2 (socketId pl1 ≠ socket)) by (intros H; by apply H).
  eexists _, _. split; [reflexivity|]. split_and!; [by left | by right | done].
Qed.

Lemma shared_connection_stalls_sample :
  ∃ st' out,
    submit_action "sa" "m1" "attack" 0 0 (state_after solo) = Some (st', out, None) ∧
    (out = [] ∨ out = [Emit "sa" (pvp_action_error "Special is on cooldown!")]).
Proof.
  destruct (shared_connection_stalls (state_after solo) "m1" _
              (waitingEntry "sa" alice) (waitingEntry "sa" bob) "sa" "attack" 0 0
              solo_reachable eq_refl eq_refl eq_refl)
    as (st' & out & H & Hout & _).
  exists st', out. split; [exact H | exact Hout].
Defined.
